(** * all-in-apps notes client: wire codec and cache reconciler

    A shallow embedding of
    - [ui/src/lib/protobuf/notes.ts]: the hand-written protobuf codec,
      with the host's [TextEncoder] and [TextDecoder] it calls (module
      [Codec]);
    - the cache helpers of the svelte-query notes API ([sortNotes],
      [upsertNote], [applyDelta], [removeNote], [applyNoteEventToCache])
      and the base URL helpers of the two API clients (module [Cache]);
    - the realtime handler of the page component, in the version that
      keeps the collection in its own state (module [LocalPage]) and in
      the version that reads it from the query cache (module [Page]);
    followed by the properties of each. *)

From Stdlib Require Import ZArith Lia Strings.Byte Strings.Ascii.
From stdpp Require Import base decidable option list sorting strings.
From Equations Require Import Equations.

Local Open Scope Z_scope.

(** * Part I: the programs *)

(** ** The cache reconciler *)

Module Cache.

(** The generated [Note] message: every 64-bit field is a [bigint]. *)
Record Note := {
  id : Z;
  title : string;
  body : string;
  createdAtUnixMs : Z;
  updatedAtUnixMs : Z;
  version : Z
}.

(** The generated [NoteDelta] message; [title] and [body] are optional. *)
Record NoteDelta := {
  delta_id : Z;
  delta_title : option string;
  delta_body : option string;
  delta_updatedAtUnixMs : Z;
  delta_version : Z
}.

(** The comparator handed to [Array.prototype.sort] in [sortNotes]. *)
Definition compareNotes (a b : Note) : Z :=
  if decide (updatedAtUnixMs a ≠ updatedAtUnixMs b) then
    if decide (updatedAtUnixMs a < updatedAtUnixMs b) then 1 else -1
  else
    if decide (id a < id b) then 1 else -1.

(** [a] may stay in front of [b]: the comparator does not ask to swap. *)
Definition before (a b : Note) : Prop := compareNotes a b ≤ 0.

#[global] Instance before_dec a b : Decision (before a b).
Proof. unfold before. apply _. Defined.

(** [[...items].sort(cmp)]: a stable merge sort driven by the comparator.
    The argument is copied, so the caller's array is left alone. *)
Definition sortNotes (items : list Note) : list Note :=
  merge_sort before items.

(** [notes.findIndex(c => c.id === note.id)], then append or overwrite. *)
Definition upsertNote (notes : list Note) (note : Note) : list Note :=
  match list_find (λ candidate, id candidate = id note) notes with
  | None => sortNotes (notes ++ [note])
  | Some (index, _) => sortNotes (<[index := note]> notes)
  end.

(** The object literal [{...existing, title: delta.title ?? existing.title,
    body: delta.body ?? existing.body, updatedAtUnixMs, version}]. *)
Definition mergeDelta (existing : Note) (delta : NoteDelta) : Note :=
  {| id := id existing;
     title := default (title existing) (delta_title delta);
     body := default (body existing) (delta_body delta);
     createdAtUnixMs := createdAtUnixMs existing;
     updatedAtUnixMs := delta_updatedAtUnixMs delta;
     version := delta_version delta |}.

Definition applyDelta (notes : list Note) (delta : NoteDelta) : list Note :=
  match list_find (λ candidate, id candidate = delta_id delta) notes with
  | None => notes
  | Some (_, existing) => upsertNote notes (mergeDelta existing delta)
  end.

(** The page component keeps the collection in its [notes] state and has
    its own copy of the helpers; its [applyDelta] assigns the new
    collection and returns the merged note, or [null] for an unknown id. *)
Definition pageApplyDelta (notes : list Note) (delta : NoteDelta)
  : list Note * option Note :=
  match list_find (λ candidate, id candidate = delta_id delta) notes with
  | None => (notes, None)
  | Some (_, existing) =>
      let updated := mergeDelta existing delta in
      (upsertNote notes updated, Some updated)
  end.

Definition removeNote (notes : list Note) (noteId : Z) : list Note :=
  filter (λ note, id note ≠ noteId) notes.

(** The entity the collection holds for an id ([notes.find]). *)
Definition findNote (notes : list Note) (noteId : Z) : option Note :=
  snd <$> list_find (λ candidate, id candidate = noteId) notes.

(** The order of the specification: newer first, ties by larger id. *)
Definition precedes (a b : Note) : Prop :=
  updatedAtUnixMs b < updatedAtUnixMs a ∨
  (updatedAtUnixMs a = updatedAtUnixMs b ∧ id b < id a).

(** The generated [NoteEvent]: the case of its [event] oneof with the
    value of that case, or no case. *)
Inductive NoteEvent :=
  | Created (value : Note)
  | Updated (value : NoteDelta)
  | Deleted (noteId : Z)
  | NoCase.

(** The id an event is about. *)
Definition eventId (event : NoteEvent) : option Z :=
  match event with
  | Created note => Some (id note)
  | Updated delta => Some (delta_id delta)
  | Deleted noteId => Some noteId
  | NoCase => None
  end.

(** [applyNoteEventToCache] on the entry of the notes query: the entry is
    [undefined] ([None]) until something is stored, and
    [setQueryData(key, f)] stores [f(current)]; each updater starts from
    [current ?? []]. A case that is set carries its value. *)
Definition applyNoteEventToCache (cached : option (list Note)) (event : NoteEvent)
  : option (list Note) :=
  match event with
  | Created created => Some (upsertNote (default [] cached) created)
  | Updated updated => Some (applyDelta (default [] cached) updated)
  | Deleted noteId => Some (removeNote (default [] cached) noteId)
  | NoCase => cached
  end.

(** *** Base URLs

    [baseUrl?.replace(/\/+$/, '') ?? '']: the run of slashes the string
    ends with is removed. A string is its list of characters. *)
Definition isSlash (c : ascii) : bool := bool_decide (c = "/"%char).

Fixpoint stripTrailingSlashes (s : list ascii) : list ascii :=
  match s with
  | [] => []
  | c :: rest =>
      match stripTrailingSlashes rest with
      | [] => if isSlash c then [] else [c]
      | rest' => c :: rest'
      end
  end.

Definition normalizedBaseUrl (baseUrl : option (list ascii)) : list ascii :=
  from_option stripTrailingSlashes [] baseUrl.

(** The URL of a request: [`${baseUrl}${path}`] on the normalised base. *)
Definition buildUrl (baseUrl : option (list ascii)) (path : list ascii)
  : list ascii :=
  normalizedBaseUrl baseUrl ++ path.

(** [value.endsWith('/') ? value : `${value}/`] *)
Definition ensureTrailingSlash (value : list ascii) : list ascii :=
  match last value with
  | Some c => if isSlash c then value else value ++ ["/"%char]
  | None => value ++ ["/"%char]
  end.

End Cache.

(** ** The page component with its own collection

    The page of [part_004] keeps the collection in its [notes] state and
    has its own copy of the helpers. This is the state its realtime
    handler reads and writes. *)

Module LocalPage.
Import Cache.

Record State := {
  notes : list Note;
  selectedNoteId : option Z;
  draftTitle : string;
  draftBody : string
}.

(** [$derived(notes.find((note) => note.id === selectedNoteId) ?? null)] *)
Definition selectedNote (page : State) : option Note :=
  match selectedNoteId page with
  | Some noteId => findNote (notes page) noteId
  | None => None
  end.

Definition hasUnsavedChanges (page : State) : bool :=
  match selectedNote page with
  | Some note =>
      bool_decide (draftTitle page ≠ title note ∨ draftBody page ≠ body note)
  | None => false
  end.

Definition selectNote (noteId : option Z) (page : State) : State :=
  let note := match noteId with
              | Some noteId => findNote (notes page) noteId
              | None => None
              end in
  {| notes := notes page;
     selectedNoteId := noteId;
     draftTitle := from_option title EmptyString note;
     draftBody := from_option body EmptyString note |}.

(** The assignment [notes = items]. *)
Definition setNotes (items : list Note) (page : State) : State :=
  {| notes := items;
     selectedNoteId := selectedNoteId page;
     draftTitle := draftTitle page;
     draftBody := draftBody page |}.

Definition upsertNote (note : Note) (page : State) : State :=
  setNotes (Cache.upsertNote (notes page) note) page.

Definition removeNote (noteId : Z) (page : State) : State :=
  let page := setNotes (Cache.removeNote (notes page) noteId) page in
  if decide (selectedNoteId page ≠ Some noteId) then page
  else selectNote (id <$> head (notes page)) page.

(** [applyDelta] of the page: [pageApplyDelta] on the state. *)
Definition applyDelta (delta : NoteDelta) (page : State) : option Note * State :=
  let (items, updated) := pageApplyDelta (notes page) delta in
  (updated, setNotes items page).

Definition handleRealtimeEvent (event : NoteEvent) (page : State) : State :=
  match event with
  | Created note => upsertNote note page
  | Updated delta =>
      let shouldSyncEditor :=
        negb (hasUnsavedChanges page)
        && bool_decide (selectedNoteId page = Some (delta_id delta)) in
      let (updated, page) := applyDelta delta page in
      match updated with
      | Some updated =>
          if shouldSyncEditor then
            {| notes := notes page;
               selectedNoteId := selectedNoteId page;
               draftTitle := title updated;
               draftBody := body updated |}
          else page
      | None => page
      end
  | Deleted noteId => removeNote noteId page
  | NoCase => page
  end.

End LocalPage.

(** ** The page component on the query cache

    [routes/+page.svelte] reads the collection from the notes query,
    [notes = notesQuery.data ?? []], and hands every event to
    [applyNoteEventToCache]; the query and the cache update use the same
    key, so [data] is the entry the update writes. *)

Module Page.
Import Cache.

Record State := {
  data : option (list Note);
  selectedNoteId : option Z;
  draftTitle : string;
  draftBody : string
}.

Definition notes (page : State) : list Note := default [] (data page).

Definition selectedNote (page : State) : option Note :=
  match selectedNoteId page with
  | Some noteId => findNote (notes page) noteId
  | None => None
  end.

Definition hasUnsavedChanges (page : State) : bool :=
  match selectedNote page with
  | Some note =>
      bool_decide (draftTitle page ≠ title note ∨ draftBody page ≠ body note)
  | None => false
  end.

Definition selectNote (noteId : option Z) (page : State) : State :=
  let note := match noteId with
              | Some noteId => findNote (notes page) noteId
              | None => None
              end in
  {| data := data page;
     selectedNoteId := noteId;
     draftTitle := from_option title EmptyString note;
     draftBody := from_option body EmptyString note |}.

Definition applyDraftDelta (delta : NoteDelta) (page : State) : State :=
  {| data := data page;
     selectedNoteId := selectedNoteId page;
     draftTitle := default (draftTitle page) (delta_title delta);
     draftBody := default (draftBody page) (delta_body delta) |}.

Definition handleRealtimeEvent (event : NoteEvent) (page : State) : State :=
  let page :=
    match event with
    | Updated delta =>
        let shouldSyncEditor :=
          negb (hasUnsavedChanges page)
          && bool_decide (selectedNoteId page = Some (delta_id delta)) in
        if shouldSyncEditor then applyDraftDelta delta page else page
    | _ => page
    end in
  {| data := applyNoteEventToCache (data page) event;
     selectedNoteId := selectedNoteId page;
     draftTitle := draftTitle page;
     draftBody := draftBody page |}.

(** The body of the effect that keeps a note selected; the framework runs
    it again whenever [notes] or [selectedNoteId] has changed. *)
Definition selectionEffect (page : State) : State :=
  match notes page with
  | [] =>
      match selectedNoteId page with
      | Some _ => selectNote None page
      | None => page
      end
  | first :: _ =>
      match selectedNoteId page with
      | None => selectNote (Some (id first)) page
      | Some noteId =>
          let selectionStillExists :=
            existsb (λ note, bool_decide (id note = noteId)) (notes page) in
          if selectionStillExists then page
          else selectNote (Some (id first)) page
      end
  end.

End Page.

(** ** The wire codec *)

Module Codec.

(** *** Host values *)

(** A JavaScript [number], as far as the codec looks at it: not a number,
    an infinity, a finite integral value, or a finite value strictly
    between [floor] and [floor + 1]. *)
Inductive number :=
  | NaN
  | Infinity (negative : bool)
  | Integer (value : Z)
  | Fraction (floor : Z).

Definition MAX_SAFE_INTEGER : Z := 2 ^ 53 - 1.

Definition isFinite (value : number) : bool :=
  match value with
  | Integer _ | Fraction _ => true
  | NaN | Infinity _ => false
  end.

(** [value < 0] *)
Definition isNegative (value : number) : bool :=
  match value with
  | NaN => false
  | Infinity negative => negative
  | Integer z => bool_decide (z < 0)
  | Fraction floor => bool_decide (floor < 0)
  end.

Definition isSafeInteger (value : number) : bool :=
  match value with
  | Integer z => bool_decide (Z.abs z ≤ MAX_SAFE_INTEGER)
  | _ => false
  end.

(** [Number(v)] for a bigint [v]: the nearest double, ties to even. Below
    [2 ^ 53] the conversion is exact. (Magnitudes of [2 ^ 1024] and more
    would give an infinity; a varint stays below [2 ^ 70].) *)
Definition bigintToNumber (v : Z) : Z :=
  let a := Z.abs v in
  if bool_decide (a < 2 ^ 53) then v
  else
    let k := Z.log2 a - 52 in
    let q := Z.shiftr a k in
    let r := Z.land a (Z.ones k) in
    let half := Z.shiftl 1 (k - 1) in
    let q' := if bool_decide (half < r ∨ (r = half ∧ Z.odd q = true))
              then q + 1 else q in
    Z.sgn v * Z.shiftl q' k.

Definition ToUint32 (x : Z) : Z := x mod 2 ^ 32.

Definition ToInt32 (x : Z) : Z :=
  let u := x mod 2 ^ 32 in if bool_decide (2 ^ 31 ≤ u) then u - 2 ^ 32 else u.

Definition byte_to_Z (b : byte) : Z := Z.of_N (Byte.to_N b).

(** Storing a number into a [Uint8Array] keeps it modulo 256. *)
Definition byte_of_Z (z : Z) : byte :=
  default Byte.x00 (Byte.of_N (Z.to_N (z mod 256))).

(** [payload.subarray(begin, end)] for [begin ≤ end ≤ payload.length]. *)
Definition subarray (payload : list byte) (begin_ end_ : nat) : list byte :=
  take (end_ - begin_) (drop begin_ payload).

(** *** Outcomes *)

(** The [Error]s the codec throws, by message. *)
Inductive Error :=
  | UnexpectedEnd            (* unexpected end of protobuf payload *)
  | VarintTooLarge           (* protobuf varint is too large *)
  | Int64ExceedsSafe (value : Z)
                             (* protobuf int64 exceeds Number.MAX_SAFE_INTEGER *)
  | LengthExceedsBounds      (* protobuf length-delimited field exceeds payload bounds *)
  | SkipBeyondBounds         (* cannot skip field beyond payload bounds *)
  | UnsupportedWireType (wireType : Z)
                             (* unsupported protobuf wire type *)
  | NotFiniteNonNegative (value : number)
                             (* protobuf int64 must be a finite non-negative number *)
  | NotSafeInteger (value : number)
                             (* protobuf int64 must be a safe integer *)
  | RangeError.              (* BigInt() of a number that is not an integer *)

(** A call returns, throws, or is cut off because the fuel given to a
    [while] loop ran out (which the decoders below never let happen). *)
Inductive Result (A : Type) :=
  | Ok (a : A)
  | Throw (e : Error)
  | OutOfFuel.
Arguments Ok {A} a.
Arguments Throw {A} e.
Arguments OutOfFuel {A}.

(** Methods of an object with state [S]: state in, outcome and state out. *)
Definition Eff (S A : Type) : Type := S → Result (A * S).

Definition ret {S A} (a : A) : Eff S A := λ s, Ok (a, s).

Definition bind {S A B} (m : Eff S A) (k : A → Eff S B) : Eff S B :=
  λ s, match m s with
       | Ok (a, s') => k a s'
       | Throw e => Throw e
       | OutOfFuel => OutOfFuel
       end.

Definition throw {S A} (e : Error) : Eff S A := λ _, Throw e.

(** A call that does not touch the object. *)
Definition lift {S A} (r : Result A) : Eff S A :=
  λ s, match r with
       | Ok a => Ok (a, s)
       | Throw e => Throw e
       | OutOfFuel => OutOfFuel
       end.

Notation "'let!' x ':=' m 'in' k" := (bind m (λ x, k))
  (at level 10, x pattern, m at level 100, k at level 200, only parsing).
Notation "m ';;' k" := (bind m (λ _, k))
  (at level 100, k at level 200, right associativity, only parsing).

(** *** Writer *)

Record Writer := { bytes : list Z }.

Definition newWriter : Writer := {| bytes := [] |}.

Definition push (b : Z) : Eff Writer unit :=
  λ w, Ok (tt, {| bytes := bytes w ++ [b] |}).

(** The [while (current >= 0x80n)] loop of [writeVarint], then the last
    group. *)
Equations(noeqns noind) writeVarint_loop (current : Z) (w : Writer) : Writer
  by wf (Z.to_nat (Z.log2 current)) lt :=
  writeVarint_loop current w with decide (128 ≤ current) := {
    | left _ =>
        writeVarint_loop (Z.shiftr current 7)
          {| bytes := bytes w ++ [Z.lor (Z.land current 127) 128] |}
    | right _ => {| bytes := bytes w ++ [current] |} }.
Next Obligation.
  rewrite Z.log2_shiftr by lia.
  assert (7 ≤ Z.log2 current)
    by (change 7 with (Z.log2 128); apply Z.log2_le_mono; lia).
  lia.
Qed.

Definition writeVarint (value : Z) : Eff Writer unit :=
  λ w, Ok (tt, writeVarint_loop value w).

Definition WIRE_VARINT : Z := 0.
Definition WIRE_LENGTH_DELIMITED : Z := 2.

Definition writeTag (fieldNumber wireType : Z) : Eff Writer unit :=
  writeVarint (Z.lor (Z.shiftl fieldNumber 3) wireType).

Definition BigInt (value : number) : Result Z :=
  match value with
  | Integer z => Ok z
  | _ => Throw RangeError
  end.

Definition numberToVarint (value : number) : Result Z :=
  if negb (isFinite value) || isNegative value then
    Throw (NotFiniteNonNegative value)
  else if negb (isSafeInteger value) then
    Throw (NotSafeInteger value)
  else BigInt value.

Definition writeInt64 (fieldNumber : Z) (value : number) : Eff Writer unit :=
  writeTag fieldNumber WIRE_VARINT;;
  let! v := lift (numberToVarint value) in
  writeVarint v.

(** [for (const byte of encoded) this.bytes.push(byte)] *)
Fixpoint pushAll (encoded : list byte) : Eff Writer unit :=
  match encoded with
  | [] => ret tt
  | byte :: rest => push (byte_to_Z byte);; pushAll rest
  end.

Definition writeMessage (fieldNumber : Z) (payload : list byte) : Eff Writer unit :=
  writeTag fieldNumber WIRE_LENGTH_DELIMITED;;
  writeVarint (Z.of_nat (length payload));;
  pushAll payload.

(** [Uint8Array.from(this.bytes)] *)
Definition finish (w : Writer) : list byte := byte_of_Z <$> bytes w.

(** What an encoder returns: its writer, run from empty, then [finish]ed. *)
Definition written (m : Eff Writer unit) : Result (list byte) :=
  match m newWriter with
  | Ok (_, w) => Ok (finish w)
  | Throw e => Throw e
  | OutOfFuel => OutOfFuel
  end.

(** *** Reader *)

Record Reader := { payload : list byte; offset : nat }.

Definition newReader (payload : list byte) : Reader :=
  {| payload := payload; offset := 0 |}.

Definition seek (r : Reader) (offset : nat) : Reader :=
  {| payload := payload r; offset := offset |}.

Definition eof (r : Reader) : bool :=
  bool_decide (length (payload r) ≤ offset r)%nat.

(** The [while (true)] loop of [readVarint]: the locals are the offset,
    [shift] and [value]; it returns the value and the new offset. *)
Equations(noeqns noind) readVarint_loop (payload : list byte) (offset : nat) (shift value : Z)
  : Result (Z * nat) by wf (Z.to_nat (64 - shift)) lt :=
  readVarint_loop payload offset shift value with payload !! offset := {
    | None => Throw UnexpectedEnd
    | Some byte with decide (Z.land (byte_to_Z byte) 128 = 0) := {
        | left _ =>
            Ok (Z.lor value (Z.shiftl (Z.land (byte_to_Z byte) 127) shift),
                S offset)
        | right _ with decide (63 < shift + 7) := {
            | left _ => Throw VarintTooLarge
            | right _ =>
                readVarint_loop payload (S offset) (shift + 7)
                  (Z.lor value (Z.shiftl (Z.land (byte_to_Z byte) 127) shift)) } } }.
Next Obligation. lia. Qed.

Definition readVarint : Eff Reader Z :=
  λ r, match readVarint_loop (payload r) (offset r) 0 0 with
       | Ok (value, offset') => Ok (value, seek r offset')
       | Throw e => Throw e
       | OutOfFuel => OutOfFuel
       end.

Record Tag := { fieldNumber : Z; wireType : Z }.

Definition readTag : Eff Reader Tag :=
  let! v := readVarint in
  let raw := bigintToNumber v in
  ret {| fieldNumber := Z.shiftr (ToUint32 raw) 3;
         wireType := Z.land (ToInt32 raw) 7 |}.

Definition readInt64 : Eff Reader number :=
  let! value := readVarint in
  if bool_decide (MAX_SAFE_INTEGER < value) then throw (Int64ExceedsSafe value)
  else ret (Integer (bigintToNumber value)).

Definition readBytes : Eff Reader (list byte) :=
  let! v := readVarint in
  λ r,
    let length_ := bigintToNumber v in
    let end_ := Z.of_nat (offset r) + length_ in
    if bool_decide (Z.of_nat (length (payload r)) < end_) then
      Throw LengthExceedsBounds
    else
      Ok (subarray (payload r) (offset r) (Z.to_nat end_), seek r (Z.to_nat end_)).

Definition skipField (wireType : Z) : Eff Reader unit :=
  match wireType with
  | 0 => readVarint;; ret tt
  | 2 =>
      let! v := readVarint in
      λ r,
        let length_ := bigintToNumber v in
        let end_ := Z.of_nat (offset r) + length_ in
        if bool_decide (Z.of_nat (length (payload r)) < end_) then
          Throw SkipBeyondBounds
        else Ok (tt, seek r (Z.to_nat end_))
  | _ => throw (UnsupportedWireType wireType)
  end.

(** The decoders share one loop,
    [while (!reader.eof()) { tag = reader.readTag(); switch ... }];
    [field] is the [switch] and [message] the object being filled. *)
Fixpoint decodeFields {T} (field : Z → Z → T → Eff Reader T)
    (fuel : nat) (message : T) (reader : Reader) : Result T :=
  match fuel with
  | O => OutOfFuel
  | S fuel =>
      if eof reader then Ok message
      else
        match (let! tag := readTag in
               field (fieldNumber tag) (wireType tag) message) reader with
        | Ok (message, reader) => decodeFields field fuel message reader
        | Throw e => Throw e
        | OutOfFuel => OutOfFuel
        end
  end.

(** Every turn of the loop reads at least the tag's first byte, so one
    unit of fuel per remaining byte, and one for the last test, is enough. *)
Definition whileNotEof {T} (field : Z → Z → T → Eff Reader T)
    (message : T) (reader : Reader) : Result T :=
  decodeFields field (S (length (payload reader) - offset reader)) message reader.

Definition decodeMessage {T} (bytes : list byte)
    (decode : Reader → Result T) : Result T :=
  decode (newReader bytes).

(** *** The reader as a parser of the bytes ahead

    The notions below are not in the source: they describe a method of
    the reader by what it does to the bytes not yet read, and are what
    the properties of the decoders are stated and proved with. *)

(** The bytes from the offset on. *)
Definition remaining (r : Reader) : list byte := drop (offset r) (payload r).

(** A method run on a fresh reader over [bs]: its value and the number of
    bytes it read. *)
Definition view {A} (m : Eff Reader A) (bs : list byte) : Result (A * nat) :=
  match m (newReader bs) with
  | Ok (a, r) => Ok (a, offset r)
  | Throw e => Throw e
  | OutOfFuel => OutOfFuel
  end.

(** The outcome for a reader [r] of a method known by its [view]. *)
Definition resume {A} (r : Reader) (v : Result (A * nat)) : Result (A * Reader) :=
  match v with
  | Ok (a, n) => Ok (a, seek r (offset r + n))
  | Throw e => Throw e
  | OutOfFuel => OutOfFuel
  end.

(** A method is [Streaming] when it only looks at the bytes ahead, moves
    the offset forward within the payload, and, when it returns, does so
    whatever follows the bytes it read. *)
Class Streaming {A} (m : Eff Reader A) : Prop := {
  streaming_local r :
    (offset r ≤ length (payload r))%nat → m r = resume r (view m (remaining r));
  streaming_bound bs a n : view m bs = Ok (a, n) → (n ≤ length bs)%nat;
  streaming_prefix bs a n tail :
    view m bs = Ok (a, n) → view m (take n bs ++ tail) = Ok (a, n)
}.

(** A varint read off a list of bytes: the value and the number of bytes. *)
Fixpoint parseVarint (bs : list byte) (shift value : Z) : Result (Z * nat) :=
  match bs with
  | [] => Throw UnexpectedEnd
  | byte :: bs =>
      let value := Z.lor value (Z.shiftl (Z.land (byte_to_Z byte) 127) shift) in
      if decide (Z.land (byte_to_Z byte) 128 = 0) then Ok (value, 1%nat)
      else if decide (63 < shift + 7) then Throw VarintTooLarge
      else match parseVarint bs (shift + 7) value with
           | Ok (v, n) => Ok (v, S n)
           | Throw e => Throw e
           | OutOfFuel => OutOfFuel
           end
  end.

(** The bytes [writeVarint] appends. *)
Definition varintBytes (value : Z) : list Z :=
  bytes (writeVarint_loop value newWriter).

(** The bytes a writer method appends to an empty writer, as stored. *)
Definition bytesOf (m : Eff Writer unit) : list byte :=
  match m newWriter with
  | Ok (_, w) => finish w
  | _ => []
  end.

(** The decoding loop run on a whole buffer from a given message. *)
Definition decodeFrom {T} (field : Z → Z → T → Eff Reader T)
    (message : T) (bs : list byte) : Result T :=
  whileNotEof field message (newReader bs).

(** One turn of the loop. *)
Definition readField {T} (field : Z → Z → T → Eff Reader T) (message : T)
  : Eff Reader T :=
  let! tag := readTag in field (fieldNumber tag) (wireType tag) message.

(** The continuation bit of a byte is set. *)
Definition continues (b : byte) : Prop := Z.land (byte_to_Z b) 128 ≠ 0.

(** A writer method that appends [out] and returns. *)
Definition writes (m : Eff Writer unit) (out : list Z) : Prop :=
  ∀ w, m w = Ok (tt, {| bytes := bytes w ++ out |}).

(** A writer method that appends bytes which [finish] stores as [out]. *)
Definition emits (m : Eff Writer unit) (out : list byte) : Prop :=
  ∃ raw, writes m raw ∧ byte_of_Z <$> raw = out.

(** A writer method that throws. *)
Definition throws (m : Eff Writer unit) : Prop :=
  ∀ w, ∃ e, m w = Throw e.

(** A writer method that does one or the other. *)
Definition settled (m : Eff Writer unit) : Prop :=
  (∃ out, emits m out) ∨ throws m.

(** Fields as the writer lays them out: a tag, a varint field, and a
    length-delimited field. *)
Definition tagBytes (fieldNumber wireType : Z) : list byte :=
  bytesOf (writeTag fieldNumber wireType).

Definition varintField (fieldNumber value : Z) : list byte :=
  bytesOf (writeTag fieldNumber WIRE_VARINT;; writeVarint value).

Definition bytesField (fieldNumber : Z) (content : list byte) : list byte :=
  bytesOf (writeMessage fieldNumber content).

(** A number [writeInt64] accepts. *)
Definition safeNumber (value : number) : Prop :=
  match value with
  | Integer z => 0 ≤ z ≤ MAX_SAFE_INTEGER
  | _ => False
  end.

(** A varint that cannot be read: the bytes end before a group without
    continuation bit, or ten groups in a row ask for more. *)
Inductive VarintFault : list byte → Error → Prop :=
  | varint_truncated bs :
      Forall continues bs → (length bs < 10)%nat →
      VarintFault bs UnexpectedEnd
  | varint_unterminated bs tail :
      Forall continues bs → length bs = 10%nat →
      VarintFault (bs ++ tail) VarintTooLarge.

Inductive MessageType :=
  | TNote | TCreateNoteRequest | TCreateNoteResponse | TGetNoteResponse
  | TListNotesResponse | TUpdateNoteRequest | TUpdateNoteResponse
  | TDeleteNoteResponse | TNoteDelta | TNoteDeleted | TNoteEvent.

(** How a decoder reads a field number it knows. *)
Inductive FieldKind := Int64Field | BytesField.

(** The [case] labels of the eleven [switch (fieldNumber)] statements. *)
Definition schema (T : MessageType) (fieldNumber : Z) : option FieldKind :=
  match T, fieldNumber with
  | TNote, (1 | 4 | 5 | 6) => Some Int64Field
  | TNote, (2 | 3) => Some BytesField
  | TCreateNoteRequest, (1 | 2) => Some BytesField
  | TCreateNoteResponse, 1 => Some BytesField
  | TGetNoteResponse, 1 => Some BytesField
  | TListNotesResponse, 1 => Some BytesField
  | TUpdateNoteRequest, (1 | 2) => Some BytesField
  | TUpdateNoteResponse, 1 => Some BytesField
  | TDeleteNoteResponse, 1 => Some Int64Field
  | TNoteDelta, (1 | 4 | 5) => Some Int64Field
  | TNoteDelta, (2 | 3) => Some BytesField
  | TNoteDeleted, 1 => Some Int64Field
  | TNoteEvent, (1 | 2 | 3) => Some BytesField
  | _, _ => None
  end.

(** The fields whose bytes are handed to another decoder. *)
Definition nested (T : MessageType) (fieldNumber : Z) : option MessageType :=
  match T, fieldNumber with
  | TCreateNoteResponse, 1 => Some TNote
  | TGetNoteResponse, 1 => Some TNote
  | TListNotesResponse, 1 => Some TNote
  | TUpdateNoteResponse, 1 => Some TNote
  | TNoteEvent, 1 => Some TNote
  | TNoteEvent, 2 => Some TNoteDelta
  | TNoteEvent, 3 => Some TNoteDeleted
  | _, _ => None
  end.

(** A field number of the wire format: 29 bits. *)
Definition validFieldNumber (fieldNumber : Z) : Prop := 0 ≤ fieldNumber < 2 ^ 29.

Definition mapResult {A B} (f : A → B) (r : Result A) : Result B :=
  match r with
  | Ok a => Ok (f a)
  | Throw e => Throw e
  | OutOfFuel => OutOfFuel
  end.

(** *** Messages *)

(** [TextEncoder.encode] and [TextDecoder.decode] belong to the host; the
    codec is parametric in them and in the host's string type. *)
Class TextCodec (Str : Type) := {
  emptyString : Str;
  textEncoder_encode : Str → list byte;
  textDecoder_decode : list byte → Str
}.

Section Messages.
Context {Str : Type} {text : TextCodec Str}.

Definition writeString (fieldNumber : Z) (value : Str) : Eff Writer unit :=
  writeTag fieldNumber WIRE_LENGTH_DELIMITED;;
  let encoded := textEncoder_encode value in
  writeVarint (Z.of_nat (length encoded));;
  pushAll encoded.

Definition readString : Eff Reader Str :=
  let! bytes := readBytes in
  ret (textDecoder_decode bytes).

Record Note := {
  id : number;
  title : Str;
  body : Str;
  created_at_unix_ms : number;
  updated_at_unix_ms : number;
  version : number
}.

Record CreateNoteRequest := { create_title : Str; create_body : Str }.
Record CreateNoteResponse := { created_note : option Note }.
Record GetNoteResponse := { got_note : option Note }.
Record ListNotesResponse := { notes : list Note }.
Record UpdateNoteRequest := { update_title : option Str; update_body : option Str }.
Record UpdateNoteResponse := { updated_note : option Note }.
Record DeleteNoteResponse := { deleted_response_id : number }.

Record NoteDelta := {
  delta_id : number;
  delta_title : option Str;
  delta_body : option Str;
  delta_updated_at_unix_ms : number;
  delta_version : number
}.

Record NoteDeleted := { deleted_id : number }.

(** [{event: {kind, ...}} | {event: undefined}] *)
Inductive NoteEvent :=
  | EventCreated (note : Note)
  | EventUpdated (delta : NoteDelta)
  | EventDeleted (deleted : NoteDeleted)
  | EventUndefined.

Definition encodeNote (message : Note) : Result (list byte) :=
  written (
    writeInt64 1 (id message);;
    writeString 2 (title message);;
    writeString 3 (body message);;
    writeInt64 4 (created_at_unix_ms message);;
    writeInt64 5 (updated_at_unix_ms message);;
    writeInt64 6 (version message)).

Definition decodeNote_field (fieldNumber wireType : Z) (message : Note)
  : Eff Reader Note :=
  match fieldNumber with
  | 1 => let! v := readInt64 in
         ret {| id := v; title := title message; body := body message;
                created_at_unix_ms := created_at_unix_ms message;
                updated_at_unix_ms := updated_at_unix_ms message;
                version := version message |}
  | 2 => let! v := readString in
         ret {| id := id message; title := v; body := body message;
                created_at_unix_ms := created_at_unix_ms message;
                updated_at_unix_ms := updated_at_unix_ms message;
                version := version message |}
  | 3 => let! v := readString in
         ret {| id := id message; title := title message; body := v;
                created_at_unix_ms := created_at_unix_ms message;
                updated_at_unix_ms := updated_at_unix_ms message;
                version := version message |}
  | 4 => let! v := readInt64 in
         ret {| id := id message; title := title message; body := body message;
                created_at_unix_ms := v;
                updated_at_unix_ms := updated_at_unix_ms message;
                version := version message |}
  | 5 => let! v := readInt64 in
         ret {| id := id message; title := title message; body := body message;
                created_at_unix_ms := created_at_unix_ms message;
                updated_at_unix_ms := v;
                version := version message |}
  | 6 => let! v := readInt64 in
         ret {| id := id message; title := title message; body := body message;
                created_at_unix_ms := created_at_unix_ms message;
                updated_at_unix_ms := updated_at_unix_ms message;
                version := v |}
  | _ => skipField wireType;; ret message
  end.

Definition decodeNote (bytes : list byte) : Result Note :=
  decodeMessage bytes
    (whileNotEof decodeNote_field
       {| id := Integer 0; title := emptyString; body := emptyString;
          created_at_unix_ms := Integer 0; updated_at_unix_ms := Integer 0;
          version := Integer 0 |}).

Definition encodeCreateNoteRequest (message : CreateNoteRequest) : Result (list byte) :=
  written (
    writeString 1 (create_title message);;
    writeString 2 (create_body message)).

Definition decodeCreateNoteRequest_field (fieldNumber wireType : Z)
    (message : CreateNoteRequest) : Eff Reader CreateNoteRequest :=
  match fieldNumber with
  | 1 => let! v := readString in
         ret {| create_title := v; create_body := create_body message |}
  | 2 => let! v := readString in
         ret {| create_title := create_title message; create_body := v |}
  | _ => skipField wireType;; ret message
  end.

Definition decodeCreateNoteRequest (bytes : list byte) : Result CreateNoteRequest :=
  decodeMessage bytes
    (whileNotEof decodeCreateNoteRequest_field
       {| create_title := emptyString; create_body := emptyString |}).

(** [if (message.note !== undefined) writer.writeMessage(1, encodeNote(message.note))] *)
Definition writeOptionalNote (note : option Note) : Eff Writer unit :=
  match note with
  | Some note => let! payload := lift (encodeNote note) in writeMessage 1 payload
  | None => ret tt
  end.

Definition encodeCreateNoteResponse (message : CreateNoteResponse) : Result (list byte) :=
  written (writeOptionalNote (created_note message)).

Definition decodeCreateNoteResponse_field (fieldNumber wireType : Z)
    (message : CreateNoteResponse) : Eff Reader CreateNoteResponse :=
  match fieldNumber with
  | 1 => let! bytes := readBytes in
         let! note := lift (decodeNote bytes) in
         ret {| created_note := Some note |}
  | _ => skipField wireType;; ret message
  end.

Definition decodeCreateNoteResponse (bytes : list byte) : Result CreateNoteResponse :=
  decodeMessage bytes
    (whileNotEof decodeCreateNoteResponse_field {| created_note := None |}).

Definition encodeGetNoteResponse (message : GetNoteResponse) : Result (list byte) :=
  written (writeOptionalNote (got_note message)).

Definition decodeGetNoteResponse_field (fieldNumber wireType : Z)
    (message : GetNoteResponse) : Eff Reader GetNoteResponse :=
  match fieldNumber with
  | 1 => let! bytes := readBytes in
         let! note := lift (decodeNote bytes) in
         ret {| got_note := Some note |}
  | _ => skipField wireType;; ret message
  end.

Definition decodeGetNoteResponse (bytes : list byte) : Result GetNoteResponse :=
  decodeMessage bytes
    (whileNotEof decodeGetNoteResponse_field {| got_note := None |}).

(** [for (const note of message.notes) writer.writeMessage(1, encodeNote(note))] *)
Fixpoint writeNotes (items : list Note) : Eff Writer unit :=
  match items with
  | [] => ret tt
  | note :: rest =>
      let! payload := lift (encodeNote note) in
      writeMessage 1 payload;;
      writeNotes rest
  end.

Definition encodeListNotesResponse (message : ListNotesResponse) : Result (list byte) :=
  written (writeNotes (notes message)).

Definition decodeListNotesResponse_field (fieldNumber wireType : Z)
    (message : ListNotesResponse) : Eff Reader ListNotesResponse :=
  match fieldNumber with
  | 1 => let! bytes := readBytes in
         let! note := lift (decodeNote bytes) in
         ret {| notes := notes message ++ [note] |}
  | _ => skipField wireType;; ret message
  end.

Definition decodeListNotesResponse (bytes : list byte) : Result ListNotesResponse :=
  decodeMessage bytes
    (whileNotEof decodeListNotesResponse_field {| notes := [] |}).

(** [if (value !== undefined) writer.writeString(fieldNumber, value)] *)
Definition writeOptionalString (fieldNumber : Z) (value : option Str) : Eff Writer unit :=
  match value with
  | Some value => writeString fieldNumber value
  | None => ret tt
  end.

Definition encodeUpdateNoteRequest (message : UpdateNoteRequest) : Result (list byte) :=
  written (
    writeOptionalString 1 (update_title message);;
    writeOptionalString 2 (update_body message)).

Definition decodeUpdateNoteRequest_field (fieldNumber wireType : Z)
    (message : UpdateNoteRequest) : Eff Reader UpdateNoteRequest :=
  match fieldNumber with
  | 1 => let! v := readString in
         ret {| update_title := Some v; update_body := update_body message |}
  | 2 => let! v := readString in
         ret {| update_title := update_title message; update_body := Some v |}
  | _ => skipField wireType;; ret message
  end.

Definition decodeUpdateNoteRequest (bytes : list byte) : Result UpdateNoteRequest :=
  decodeMessage bytes
    (whileNotEof decodeUpdateNoteRequest_field
       {| update_title := None; update_body := None |}).

Definition encodeUpdateNoteResponse (message : UpdateNoteResponse) : Result (list byte) :=
  written (writeOptionalNote (updated_note message)).

Definition decodeUpdateNoteResponse_field (fieldNumber wireType : Z)
    (message : UpdateNoteResponse) : Eff Reader UpdateNoteResponse :=
  match fieldNumber with
  | 1 => let! bytes := readBytes in
         let! note := lift (decodeNote bytes) in
         ret {| updated_note := Some note |}
  | _ => skipField wireType;; ret message
  end.

Definition decodeUpdateNoteResponse (bytes : list byte) : Result UpdateNoteResponse :=
  decodeMessage bytes
    (whileNotEof decodeUpdateNoteResponse_field {| updated_note := None |}).

Definition encodeDeleteNoteResponse (message : DeleteNoteResponse) : Result (list byte) :=
  written (writeInt64 1 (deleted_response_id message)).

Definition decodeDeleteNoteResponse_field (fieldNumber wireType : Z)
    (message : DeleteNoteResponse) : Eff Reader DeleteNoteResponse :=
  match fieldNumber with
  | 1 => let! v := readInt64 in ret {| deleted_response_id := v |}
  | _ => skipField wireType;; ret message
  end.

Definition decodeDeleteNoteResponse (bytes : list byte) : Result DeleteNoteResponse :=
  decodeMessage bytes
    (whileNotEof decodeDeleteNoteResponse_field {| deleted_response_id := Integer 0 |}).

Definition encodeNoteDelta (message : NoteDelta) : Result (list byte) :=
  written (
    writeInt64 1 (delta_id message);;
    writeOptionalString 2 (delta_title message);;
    writeOptionalString 3 (delta_body message);;
    writeInt64 4 (delta_updated_at_unix_ms message);;
    writeInt64 5 (delta_version message)).

Definition decodeNoteDelta_field (fieldNumber wireType : Z) (message : NoteDelta)
  : Eff Reader NoteDelta :=
  match fieldNumber with
  | 1 => let! v := readInt64 in
         ret {| delta_id := v; delta_title := delta_title message;
                delta_body := delta_body message;
                delta_updated_at_unix_ms := delta_updated_at_unix_ms message;
                delta_version := delta_version message |}
  | 2 => let! v := readString in
         ret {| delta_id := delta_id message; delta_title := Some v;
                delta_body := delta_body message;
                delta_updated_at_unix_ms := delta_updated_at_unix_ms message;
                delta_version := delta_version message |}
  | 3 => let! v := readString in
         ret {| delta_id := delta_id message; delta_title := delta_title message;
                delta_body := Some v;
                delta_updated_at_unix_ms := delta_updated_at_unix_ms message;
                delta_version := delta_version message |}
  | 4 => let! v := readInt64 in
         ret {| delta_id := delta_id message; delta_title := delta_title message;
                delta_body := delta_body message;
                delta_updated_at_unix_ms := v;
                delta_version := delta_version message |}
  | 5 => let! v := readInt64 in
         ret {| delta_id := delta_id message; delta_title := delta_title message;
                delta_body := delta_body message;
                delta_updated_at_unix_ms := delta_updated_at_unix_ms message;
                delta_version := v |}
  | _ => skipField wireType;; ret message
  end.

Definition decodeNoteDelta (bytes : list byte) : Result NoteDelta :=
  decodeMessage bytes
    (whileNotEof decodeNoteDelta_field
       {| delta_id := Integer 0; delta_title := None; delta_body := None;
          delta_updated_at_unix_ms := Integer 0; delta_version := Integer 0 |}).

Definition encodeNoteDeleted (message : NoteDeleted) : Result (list byte) :=
  written (writeInt64 1 (deleted_id message)).

Definition decodeNoteDeleted_field (fieldNumber wireType : Z)
    (message : NoteDeleted) : Eff Reader NoteDeleted :=
  match fieldNumber with
  | 1 => let! v := readInt64 in ret {| deleted_id := v |}
  | _ => skipField wireType;; ret message
  end.

Definition decodeNoteDeleted (bytes : list byte) : Result NoteDeleted :=
  decodeMessage bytes
    (whileNotEof decodeNoteDeleted_field {| deleted_id := Integer 0 |}).

(** The three [if (message.event?.kind === ...)] tests: one of them fires. *)
Definition encodeNoteEvent (message : NoteEvent) : Result (list byte) :=
  written (
    match message with
    | EventCreated note =>
        let! payload := lift (encodeNote note) in writeMessage 1 payload
    | EventUpdated delta =>
        let! payload := lift (encodeNoteDelta delta) in writeMessage 2 payload
    | EventDeleted deleted =>
        let! payload := lift (encodeNoteDeleted deleted) in writeMessage 3 payload
    | EventUndefined => ret tt
    end).

Definition decodeNoteEvent_field (fieldNumber wireType : Z)
    (message : NoteEvent) : Eff Reader NoteEvent :=
  match fieldNumber with
  | 1 => let! bytes := readBytes in
         let! note := lift (decodeNote bytes) in
         ret (EventCreated note)
  | 2 => let! bytes := readBytes in
         let! delta := lift (decodeNoteDelta bytes) in
         ret (EventUpdated delta)
  | 3 => let! bytes := readBytes in
         let! deleted := lift (decodeNoteDeleted bytes) in
         ret (EventDeleted deleted)
  | _ => skipField wireType;; ret message
  end.

Definition decodeNoteEvent (bytes : list byte) : Result NoteEvent :=
  decodeMessage bytes (whileNotEof decodeNoteEvent_field EventUndefined).

(** *** All messages at once *)

Inductive Message :=
  | MNote (m : Note)
  | MCreateNoteRequest (m : CreateNoteRequest)
  | MCreateNoteResponse (m : CreateNoteResponse)
  | MGetNoteResponse (m : GetNoteResponse)
  | MListNotesResponse (m : ListNotesResponse)
  | MUpdateNoteRequest (m : UpdateNoteRequest)
  | MUpdateNoteResponse (m : UpdateNoteResponse)
  | MDeleteNoteResponse (m : DeleteNoteResponse)
  | MNoteDelta (m : NoteDelta)
  | MNoteDeleted (m : NoteDeleted)
  | MNoteEvent (m : NoteEvent).

Definition messageType (m : Message) : MessageType :=
  match m with
  | MNote _ => TNote
  | MCreateNoteRequest _ => TCreateNoteRequest
  | MCreateNoteResponse _ => TCreateNoteResponse
  | MGetNoteResponse _ => TGetNoteResponse
  | MListNotesResponse _ => TListNotesResponse
  | MUpdateNoteRequest _ => TUpdateNoteRequest
  | MUpdateNoteResponse _ => TUpdateNoteResponse
  | MDeleteNoteResponse _ => TDeleteNoteResponse
  | MNoteDelta _ => TNoteDelta
  | MNoteDeleted _ => TNoteDeleted
  | MNoteEvent _ => TNoteEvent
  end.

Definition encode (m : Message) : Result (list byte) :=
  match m with
  | MNote m => encodeNote m
  | MCreateNoteRequest m => encodeCreateNoteRequest m
  | MCreateNoteResponse m => encodeCreateNoteResponse m
  | MGetNoteResponse m => encodeGetNoteResponse m
  | MListNotesResponse m => encodeListNotesResponse m
  | MUpdateNoteRequest m => encodeUpdateNoteRequest m
  | MUpdateNoteResponse m => encodeUpdateNoteResponse m
  | MDeleteNoteResponse m => encodeDeleteNoteResponse m
  | MNoteDelta m => encodeNoteDelta m
  | MNoteDeleted m => encodeNoteDeleted m
  | MNoteEvent m => encodeNoteEvent m
  end.

Definition decode (T : MessageType) (bytes : list byte) : Result Message :=
  match T with
  | TNote => mapResult MNote (decodeNote bytes)
  | TCreateNoteRequest => mapResult MCreateNoteRequest (decodeCreateNoteRequest bytes)
  | TCreateNoteResponse => mapResult MCreateNoteResponse (decodeCreateNoteResponse bytes)
  | TGetNoteResponse => mapResult MGetNoteResponse (decodeGetNoteResponse bytes)
  | TListNotesResponse => mapResult MListNotesResponse (decodeListNotesResponse bytes)
  | TUpdateNoteRequest => mapResult MUpdateNoteRequest (decodeUpdateNoteRequest bytes)
  | TUpdateNoteResponse => mapResult MUpdateNoteResponse (decodeUpdateNoteResponse bytes)
  | TDeleteNoteResponse => mapResult MDeleteNoteResponse (decodeDeleteNoteResponse bytes)
  | TNoteDelta => mapResult MNoteDelta (decodeNoteDelta bytes)
  | TNoteDeleted => mapResult MNoteDeleted (decodeNoteDeleted bytes)
  | TNoteEvent => mapResult MNoteEvent (decodeNoteEvent bytes)
  end.

(** The loop of each decoder: the message being filled, the [switch],
    the message the loop starts from, and the wrapping into [Message]. *)
Record Decoder := {
  Partial : Type;
  fieldOf : Z → Z → Partial → Eff Reader Partial;
  initial : Partial;
  wrap : Partial → Message
}.

Definition decoderOf (T : MessageType) : Decoder :=
  match T with
  | TNote =>
      {| fieldOf := decodeNote_field;
         initial := {| id := Integer 0; title := emptyString; body := emptyString;
                       created_at_unix_ms := Integer 0;
                       updated_at_unix_ms := Integer 0; version := Integer 0 |};
         wrap := MNote |}
  | TCreateNoteRequest =>
      {| fieldOf := decodeCreateNoteRequest_field;
         initial := {| create_title := emptyString; create_body := emptyString |};
         wrap := MCreateNoteRequest |}
  | TCreateNoteResponse =>
      {| fieldOf := decodeCreateNoteResponse_field;
         initial := {| created_note := None |};
         wrap := MCreateNoteResponse |}
  | TGetNoteResponse =>
      {| fieldOf := decodeGetNoteResponse_field;
         initial := {| got_note := None |};
         wrap := MGetNoteResponse |}
  | TListNotesResponse =>
      {| fieldOf := decodeListNotesResponse_field;
         initial := {| notes := [] |};
         wrap := MListNotesResponse |}
  | TUpdateNoteRequest =>
      {| fieldOf := decodeUpdateNoteRequest_field;
         initial := {| update_title := None; update_body := None |};
         wrap := MUpdateNoteRequest |}
  | TUpdateNoteResponse =>
      {| fieldOf := decodeUpdateNoteResponse_field;
         initial := {| updated_note := None |};
         wrap := MUpdateNoteResponse |}
  | TDeleteNoteResponse =>
      {| fieldOf := decodeDeleteNoteResponse_field;
         initial := {| deleted_response_id := Integer 0 |};
         wrap := MDeleteNoteResponse |}
  | TNoteDelta =>
      {| fieldOf := decodeNoteDelta_field;
         initial := {| delta_id := Integer 0; delta_title := None; delta_body := None;
                       delta_updated_at_unix_ms := Integer 0;
                       delta_version := Integer 0 |};
         wrap := MNoteDelta |}
  | TNoteDeleted =>
      {| fieldOf := decodeNoteDeleted_field;
         initial := {| deleted_id := Integer 0 |};
         wrap := MNoteDeleted |}
  | TNoteEvent =>
      {| fieldOf := decodeNoteEvent_field;
         initial := EventUndefined;
         wrap := MNoteEvent |}
  end.

(** What can be wrong with the bytes after the tag of a field. *)
Inductive FieldFault (T : MessageType) (fieldNumber wireType : Z)
  : list byte → Error → Prop :=
  | fault_int64 bs e :
      schema T fieldNumber = Some Int64Field → VarintFault bs e →
      FieldFault T fieldNumber wireType bs e
  | fault_length bs e :
      schema T fieldNumber = Some BytesField → VarintFault bs e →
      FieldFault T fieldNumber wireType bs e
  | fault_bounds declared content :
      schema T fieldNumber = Some BytesField →
      Z.of_nat (length content) < declared < 2 ^ 70 →
      Z.of_nat (length content) ≤ MAX_SAFE_INTEGER →
      FieldFault T fieldNumber wireType
        ((byte_of_Z <$> varintBytes declared) ++ content) LengthExceedsBounds
  | fault_nested T' content tail e :
      nested T fieldNumber = Some T' →
      Z.of_nat (length content) ≤ MAX_SAFE_INTEGER →
      decode T' content = Throw e →
      FieldFault T fieldNumber wireType
        ((byte_of_Z <$> varintBytes (Z.of_nat (length content))) ++ content ++ tail) e
  | fault_skip_varint bs e :
      schema T fieldNumber = None → wireType = 0 → VarintFault bs e →
      FieldFault T fieldNumber wireType bs e
  | fault_skip_length bs e :
      schema T fieldNumber = None → wireType = 2 → VarintFault bs e →
      FieldFault T fieldNumber wireType bs e
  | fault_skip_bounds declared content :
      schema T fieldNumber = None → wireType = 2 →
      Z.of_nat (length content) < declared < 2 ^ 70 →
      Z.of_nat (length content) ≤ MAX_SAFE_INTEGER →
      FieldFault T fieldNumber wireType
        ((byte_of_Z <$> varintBytes declared) ++ content) SkipBeyondBounds
  | fault_wire_type bs :
      schema T fieldNumber = None → wireType ≠ 0 → wireType ≠ 2 →
      FieldFault T fieldNumber wireType bs (UnsupportedWireType wireType).

(** What can be wrong at a field boundary: the tag, or what follows it. *)
Inductive Fault (T : MessageType) : list byte → Error → Prop :=
  | fault_tag bs e : bs ≠ [] → VarintFault bs e → Fault T bs e
  | fault_field fieldNumber wireType bs e :
      validFieldNumber fieldNumber → 0 ≤ wireType < 8 →
      FieldFault T fieldNumber wireType bs e →
      Fault T (tagBytes fieldNumber wireType ++ bs) e.


(** A field of a number the decoder of [T] does not know, as the writer
    lays it out: a varint of at most 64 bits, or length-delimited bytes. *)
Inductive UnknownField (T : MessageType) : list byte → Prop :=
  | unknown_varint fieldNumber value :
      validFieldNumber fieldNumber → schema T fieldNumber = None →
      0 ≤ value < 2 ^ 64 →
      UnknownField T (varintField fieldNumber value)
  | unknown_bytes fieldNumber content :
      validFieldNumber fieldNumber → schema T fieldNumber = None →
      Z.of_nat (length content) ≤ MAX_SAFE_INTEGER →
      UnknownField T (bytesField fieldNumber content).

(** A buffer made of fields of an event, read from the left, and the
    member that comes last in it (none: the empty event). *)
Inductive EventFields : list byte → NoteEvent → Prop :=
  | event_fields_none : EventFields [] EventUndefined
  | event_fields_created bs earlier content note :
      EventFields bs earlier →
      Z.of_nat (length content) ≤ MAX_SAFE_INTEGER →
      decodeNote content = Ok note →
      EventFields (bs ++ bytesField 1 content) (EventCreated note)
  | event_fields_updated bs earlier content delta :
      EventFields bs earlier →
      Z.of_nat (length content) ≤ MAX_SAFE_INTEGER →
      decodeNoteDelta content = Ok delta →
      EventFields (bs ++ bytesField 2 content) (EventUpdated delta)
  | event_fields_deleted bs earlier content deleted :
      EventFields bs earlier →
      Z.of_nat (length content) ≤ MAX_SAFE_INTEGER →
      decodeNoteDeleted content = Ok deleted →
      EventFields (bs ++ bytesField 3 content) (EventDeleted deleted)
  | event_fields_unknown bs last unknown :
      EventFields bs last →
      UnknownField TNoteEvent unknown →
      EventFields (bs ++ unknown) last.

(** *** Well-formed messages *)

(** A string the host's text codec gives back as it was. *)
Definition textSurvives (s : Str) : Prop :=
  textDecoder_decode (textEncoder_encode s) = s.

Definition optionalTextSurvives (s : option Str) : Prop :=
  match s with Some s => textSurvives s | None => True end.

Definition wellFormedNote (m : Note) : Prop :=
  safeNumber (id m) ∧ textSurvives (title m) ∧ textSurvives (body m) ∧
  safeNumber (created_at_unix_ms m) ∧ safeNumber (updated_at_unix_ms m) ∧
  safeNumber (version m).

Definition wellFormedOptionalNote (m : option Note) : Prop :=
  match m with Some m => wellFormedNote m | None => True end.

Definition wellFormedNoteDelta (m : NoteDelta) : Prop :=
  safeNumber (delta_id m) ∧ optionalTextSurvives (delta_title m) ∧
  optionalTextSurvives (delta_body m) ∧
  safeNumber (delta_updated_at_unix_ms m) ∧ safeNumber (delta_version m).

Definition wellFormedNoteEvent (m : NoteEvent) : Prop :=
  match m with
  | EventCreated note => wellFormedNote note
  | EventUpdated delta => wellFormedNoteDelta delta
  | EventDeleted deleted => safeNumber (deleted_id deleted)
  | EventUndefined => True
  end.

(** Integer fields are non-negative safe integers, and text fields are
    strings the host's text codec round-trips. *)
Definition wellFormed (m : Message) : Prop :=
  match m with
  | MNote m => wellFormedNote m
  | MCreateNoteRequest m =>
      textSurvives (create_title m) ∧ textSurvives (create_body m)
  | MCreateNoteResponse m => wellFormedOptionalNote (created_note m)
  | MGetNoteResponse m => wellFormedOptionalNote (got_note m)
  | MListNotesResponse m => Forall wellFormedNote (notes m)
  | MUpdateNoteRequest m =>
      optionalTextSurvives (update_title m) ∧ optionalTextSurvives (update_body m)
  | MUpdateNoteResponse m => wellFormedOptionalNote (updated_note m)
  | MDeleteNoteResponse m => safeNumber (deleted_response_id m)
  | MNoteDelta m => wellFormedNoteDelta m
  | MNoteDeleted m => safeNumber (deleted_id m)
  | MNoteEvent m => wellFormedNoteEvent m
  end.

(** The numbers an encoder hands to [writeInt64]. *)
Definition int64sOfNote (m : Note) : list number :=
  [id m; created_at_unix_ms m; updated_at_unix_ms m; version m].

Definition int64sOfNoteDelta (m : NoteDelta) : list number :=
  [delta_id m; delta_updated_at_unix_ms m; delta_version m].

Definition int64sOf (m : Message) : list number :=
  match m with
  | MNote m => int64sOfNote m
  | MCreateNoteRequest _ | MUpdateNoteRequest _ => []
  | MCreateNoteResponse m => from_option int64sOfNote [] (created_note m)
  | MGetNoteResponse m => from_option int64sOfNote [] (got_note m)
  | MListNotesResponse m => notes m ≫= int64sOfNote
  | MUpdateNoteResponse m => from_option int64sOfNote [] (updated_note m)
  | MDeleteNoteResponse m => [deleted_response_id m]
  | MNoteDelta m => int64sOfNoteDelta m
  | MNoteDeleted m => [deleted_id m]
  | MNoteEvent (EventCreated note) => int64sOfNote note
  | MNoteEvent (EventUpdated delta) => int64sOfNoteDelta delta
  | MNoteEvent (EventDeleted deleted) => [deleted_id deleted]
  | MNoteEvent EventUndefined => []
  end.

(** The strings an encoder hands to [writeString]. *)
Definition stringsOfNote (m : Note) : list Str := [title m; body m].

Definition stringsOfNoteDelta (m : NoteDelta) : list Str :=
  option_list (delta_title m) ++ option_list (delta_body m).

Definition stringsOf (m : Message) : list Str :=
  match m with
  | MNote m => stringsOfNote m
  | MCreateNoteRequest m => [create_title m; create_body m]
  | MCreateNoteResponse m => from_option stringsOfNote [] (created_note m)
  | MGetNoteResponse m => from_option stringsOfNote [] (got_note m)
  | MListNotesResponse m => notes m ≫= stringsOfNote
  | MUpdateNoteRequest m =>
      option_list (update_title m) ++ option_list (update_body m)
  | MUpdateNoteResponse m => from_option stringsOfNote [] (updated_note m)
  | MDeleteNoteResponse _ | MNoteDeleted _ => []
  | MNoteDelta m => stringsOfNoteDelta m
  | MNoteEvent (EventCreated note) => stringsOfNote note
  | MNoteEvent (EventUpdated delta) => stringsOfNoteDelta delta
  | MNoteEvent (EventDeleted _) | MNoteEvent EventUndefined => []
  end.

End Messages.

(** A host whose strings are byte strings and whose text codec copies
    them; used to run the codec on examples. *)
Definition byteStrings : TextCodec string := {|
  emptyString := EmptyString;
  textEncoder_encode := String.list_byte_of_string;
  textDecoder_decode := String.string_of_list_byte
|}.

(** *** The host's text codec

    The codec calls [new TextEncoder().encode] and
    [new TextDecoder().decode]: UTF-8 in both directions, the decoder
    with its defaults (errors replaced by U+FFFD, a byte order mark
    removed). They are written down here as the Encoding Standard and
    Web IDL define them. A string is the list of its UTF-16 code units. *)

Definition isLeadSurrogate (c : Z) : bool := bool_decide (0xD800 ≤ c ≤ 0xDBFF).
Definition isTrailSurrogate (c : Z) : bool := bool_decide (0xDC00 ≤ c ≤ 0xDFFF).

(** A string of 16-bit code units. *)
Definition codeUnits (s : list Z) : Prop := Forall (λ c, 0 ≤ c < 2 ^ 16) s.

(** [String.prototype.isWellFormed]: no surrogate stands alone. *)
Fixpoint isWellFormed (s : list Z) : bool :=
  match s with
  | [] => true
  | c :: rest =>
      if isLeadSurrogate c then
        match rest with
        | d :: rest' => isTrailSurrogate d && isWellFormed rest'
        | [] => false
        end
      else if isTrailSurrogate c then false
      else isWellFormed rest
  end.

(** The conversion of a string to a [USVString], which the argument of
    [encode] goes through: a surrogate pair becomes its code point
    [2 ^ 16 + 2 ^ 10 * a + b], a surrogate that stands alone U+FFFD. *)
Fixpoint toScalarValues (s : list Z) : list Z :=
  match s with
  | [] => []
  | c :: rest =>
      if isLeadSurrogate c then
        match rest with
        | d :: rest' =>
            if isTrailSurrogate d then
              (2 ^ 16 + 2 ^ 10 * Z.land c 0x3FF + Z.land d 0x3FF)
                :: toScalarValues rest'
            else 0xFFFD :: toScalarValues rest
        | [] => [0xFFFD]
        end
      else if isTrailSurrogate c then 0xFFFD :: toScalarValues rest
      else c :: toScalarValues rest
  end.

(** The code units of a code point. *)
Definition fromScalarValue (cp : Z) : list Z :=
  if bool_decide (cp ≤ 0xFFFF) then [cp]
  else [(cp - 0x10000) `div` 0x400 + 0xD800; (cp - 0x10000) `mod` 0x400 + 0xDC00].

(** The UTF-8 encoder: the bytes of one code point. *)
Fixpoint continuationBytes (count : nat) (cp : Z) : list Z :=
  match count with
  | O => []
  | S count' =>
      Z.lor 0x80 (Z.land (Z.shiftr cp (6 * Z.of_nat count')) 0x3F)
        :: continuationBytes count' cp
  end.

Definition utf8Encode (cp : Z) : list Z :=
  if bool_decide (cp ≤ 0x7F) then [cp]
  else
    let '(count, offset) :=
      if bool_decide (cp ≤ 0x7FF) then (1%nat, 0xC0)
      else if bool_decide (cp ≤ 0xFFFF) then (2%nat, 0xE0)
      else (3%nat, 0xF0) in
    (Z.shiftr cp (6 * Z.of_nat count) + offset) :: continuationBytes count cp.

(** The UTF-8 decoder: its state, and its handler for one byte, which
    returns the code points it emits. *)
Record Utf8Decoder := {
  utf8CodePoint : Z;
  utf8BytesSeen : Z;
  utf8BytesNeeded : Z;
  utf8LowerBoundary : Z;
  utf8UpperBoundary : Z
}.

Definition newUtf8Decoder : Utf8Decoder :=
  {| utf8CodePoint := 0; utf8BytesSeen := 0; utf8BytesNeeded := 0;
     utf8LowerBoundary := 0x80; utf8UpperBoundary := 0xBF |}.

(** The handler when no byte is needed. *)
Definition utf8Lead (byte : Z) : list Z * Utf8Decoder :=
  if bool_decide (byte ≤ 0x7F) then ([byte], newUtf8Decoder)
  else if bool_decide (0xC2 ≤ byte ≤ 0xDF) then
    ([], {| utf8CodePoint := Z.land byte 0x1F; utf8BytesSeen := 0;
            utf8BytesNeeded := 1;
            utf8LowerBoundary := 0x80; utf8UpperBoundary := 0xBF |})
  else if bool_decide (0xE0 ≤ byte ≤ 0xEF) then
    ([], {| utf8CodePoint := Z.land byte 0xF; utf8BytesSeen := 0;
            utf8BytesNeeded := 2;
            utf8LowerBoundary := if bool_decide (byte = 0xE0) then 0xA0 else 0x80;
            utf8UpperBoundary := if bool_decide (byte = 0xED) then 0x9F else 0xBF |})
  else if bool_decide (0xF0 ≤ byte ≤ 0xF4) then
    ([], {| utf8CodePoint := Z.land byte 0x7; utf8BytesSeen := 0;
            utf8BytesNeeded := 3;
            utf8LowerBoundary := if bool_decide (byte = 0xF0) then 0x90 else 0x80;
            utf8UpperBoundary := if bool_decide (byte = 0xF4) then 0x8F else 0xBF |})
  else ([0xFFFD], newUtf8Decoder).

(** A byte outside the boundaries ends the sequence with an error and is
    read again with a fresh state. *)
Definition utf8Handle (d : Utf8Decoder) (byte : Z) : list Z * Utf8Decoder :=
  if bool_decide (utf8BytesNeeded d = 0) then utf8Lead byte
  else if negb (bool_decide (utf8LowerBoundary d ≤ byte ≤ utf8UpperBoundary d)) then
    let '(out, d') := utf8Lead byte in (0xFFFD :: out, d')
  else
    let cp := Z.lor (Z.shiftl (utf8CodePoint d) 6) (Z.land byte 0x3F) in
    if bool_decide (utf8BytesSeen d + 1 ≠ utf8BytesNeeded d) then
      ([], {| utf8CodePoint := cp; utf8BytesSeen := utf8BytesSeen d + 1;
              utf8BytesNeeded := utf8BytesNeeded d;
              utf8LowerBoundary := 0x80; utf8UpperBoundary := 0xBF |})
    else ([cp], newUtf8Decoder).

Fixpoint utf8Decode (d : Utf8Decoder) (input : list byte) : list Z :=
  match input with
  | [] => if bool_decide (utf8BytesNeeded d ≠ 0) then [0xFFFD] else []
  | b :: rest =>
      let '(out, d') := utf8Handle d (byte_to_Z b) in out ++ utf8Decode d' rest
  end.

(** The output of the decoder is serialised without a byte order mark at
    its start. *)
Definition withoutBOM (output : list Z) : list Z :=
  match output with
  | cp :: rest => if bool_decide (cp = 0xFEFF) then rest else output
  | [] => []
  end.

Definition hostText : TextCodec (list Z) := {|
  emptyString := [];
  textEncoder_encode := λ s, byte_of_Z <$> (toScalarValues s ≫= utf8Encode);
  textDecoder_decode := λ input,
    withoutBOM (utf8Decode newUtf8Decoder input) ≫= fromScalarValue
|}.

(** The notions below are not in the host: they are what the properties
    of its codec are proved with. A code point that is not a surrogate: *)
Definition scalarValue (cp : Z) : Prop :=
  0 ≤ cp ≤ 0x10FFFF ∧ ¬ (0xD800 ≤ cp ≤ 0xDFFF).

(** The decoder on bytes given as numbers: what it emits and its state. *)
Fixpoint utf8Run (d : Utf8Decoder) (input : list Z) : list Z * Utf8Decoder :=
  match input with
  | [] => ([], d)
  | b :: rest =>
      let '(out, d') := utf8Handle d b in
      let '(out', d'') := utf8Run d' rest in (out ++ out', d'')
  end.

(** The bytes of a code point are bytes, and the decoder, fresh before
    them, emits the code point and is fresh after them. *)
Definition utf8Returns (cp : Z) : bool :=
  (isLeadSurrogate cp || isTrailSurrogate cp)
  || (forallb (λ b, bool_decide (0 ≤ b < 256)) (utf8Encode cp)
      && match utf8Run newUtf8Decoder (utf8Encode cp) with
         | ([out], d) =>
             Z.eqb out cp && Z.eqb (utf8CodePoint d) 0 && Z.eqb (utf8BytesSeen d) 0
             && Z.eqb (utf8BytesNeeded d) 0 && Z.eqb (utf8LowerBoundary d) 0x80
             && Z.eqb (utf8UpperBoundary d) 0xBF
         | _ => false
         end).

(** A test on every number from [z] on, [fuel] of them. *)
Fixpoint allFrom (fuel : nat) (z : Z) (test : Z → bool) : bool :=
  match fuel with
  | O => true
  | S fuel => if test z then allFrom fuel (z + 1) test else false
  end.

(** A string [TextDecoder] gives back after [TextEncoder]: well formed,
    and not starting with a byte order mark. *)
Definition plainText (s : list Z) : Prop :=
  codeUnits s ∧ isWellFormed s = true ∧ head s ≠ Some 0xFEFF.

End Codec.

(** * Part II: properties *)

(** ** Properties of the cache reconciler *)

Section CacheProperties.
Import Cache.

Implicit Types (notes items : list Note) (note : Note) (delta : NoteDelta).

Ltac before_cases :=
  unfold before, precedes, compareNotes in *; repeat case_decide; try lia.

#[local] Instance before_total : Total before.
Proof. intros a b. before_cases. Qed.

#[local] Instance before_trans : Transitive before.
Proof. intros a b c. before_cases. Qed.

Lemma before_both_ways a b :
  before a b → before b a → id a = id b.
Proof. before_cases. Qed.

Lemma before_precedes a b : id a ≠ id b → before a b → precedes a b.
Proof. before_cases. Qed.

(** On notes with different ids the comparator is consistent: it asks for
    a swap in exactly one of the two directions. *)
Lemma compareNotes_consistent a b :
  id a ≠ id b → (compareNotes a b ≤ 0 ↔ ¬ compareNotes b a < 0).
Proof. before_cases. Qed.

Lemma sortNotes_perm items : sortNotes items ≡ₚ items.
Proof. apply merge_sort_Permutation. Qed.

Lemma sortNotes_sorted items : StronglySorted before (sortNotes items).
Proof. apply StronglySorted_merge_sort; apply _. Qed.

Lemma ids_injective notes a b :
  NoDup (id <$> notes) → a ∈ notes → b ∈ notes → id a = id b → a = b.
Proof.
  intros Hnd [i Hi]%list_elem_of_lookup [j Hj]%list_elem_of_lookup Hab.
  assert (i = j) as ->.
  { eapply NoDup_lookup; [exact Hnd| |].
    - rewrite list_lookup_fmap, Hi. reflexivity.
    - rewrite list_lookup_fmap, Hj. simpl. by rewrite Hab. }
  congruence.
Qed.

(** A collection with pairwise distinct ids has one sorted arrangement:
    whatever sorting algorithm the host uses, it returns the same array. *)
Lemma sorted_unique items1 items2 :
  NoDup (id <$> items1) → items1 ≡ₚ items2 →
  StronglySorted before items1 → StronglySorted before items2 →
  items1 = items2.
Proof.
  intros Hnd Hp H1 H2. apply (StronglySorted_unique_strong before); auto.
  intros a b Ha Hb Hab Hba. rewrite <- Hp in Hb.
  eauto using ids_injective, before_both_ways.
Qed.

Lemma sorted_precedes items :
  NoDup (id <$> items) → StronglySorted before items →
  StronglySorted precedes items.
Proof.
  induction 2 as [|a l Hl IH Hall]; [constructor|].
  rewrite fmap_cons in H. apply NoDup_cons in H as [Hnotin Hnd].
  constructor; [auto|].
  rewrite Forall_forall in Hall |- *. intros b Hb.
  apply before_precedes; [|auto].
  intros Heq. apply Hnotin. rewrite Heq. by apply list_elem_of_fmap_2.
Qed.

Lemma elem_of_removeNote notes noteId x :
  x ∈ removeNote notes noteId ↔ x ∈ notes ∧ id x ≠ noteId.
Proof. unfold removeNote. rewrite list_elem_of_filter. tauto. Qed.

Lemma removeNote_absent notes noteId :
  noteId ∉ id <$> notes → removeNote notes noteId = notes.
Proof.
  intros Hno. unfold removeNote. induction notes as [|a l IH]; [done|].
  rewrite fmap_cons, not_elem_of_cons in Hno. destruct Hno as [Hne Hl].
  rewrite filter_cons_True by congruence. by rewrite IH.
Qed.

Lemma removeNote_ids notes noteId :
  id <$> removeNote notes noteId = filter (λ k, k ≠ noteId) (id <$> notes).
Proof.
  unfold removeNote. induction notes as [|a l IH]; [done|].
  rewrite fmap_cons. destruct (decide (id a = noteId)) as [He|Hne].
  - rewrite !filter_cons_False by (intros ?; congruence). exact IH.
  - rewrite !filter_cons_True by done. rewrite fmap_cons. by rewrite IH.
Qed.

Lemma removeNote_NoDup notes noteId :
  NoDup (id <$> notes) → NoDup (id <$> removeNote notes noteId).
Proof. rewrite removeNote_ids. apply NoDup_filter. Qed.

Lemma removeNote_gone notes noteId : noteId ∉ id <$> removeNote notes noteId.
Proof. rewrite removeNote_ids, list_elem_of_filter. tauto. Qed.

Lemma find_index_split notes noteId index existing :
  list_find (λ candidate, id candidate = noteId) notes = Some (index, existing) →
  id existing = noteId ∧ notes !! index = Some existing ∧
  notes = take index notes ++ existing :: drop (S index) notes ∧
  ∀ note, <[index := note]> notes = take index notes ++ note :: drop (S index) notes.
Proof.
  intros (Hi & Hid & _)%list_find_Some. split_and!; auto.
  - by rewrite take_drop_middle.
  - intros note. apply insert_take_drop. by eapply lookup_lt_Some.
Qed.

(** Up to order, an upsert drops the note of that id and adds the new one. *)
Lemma upsertNote_perm notes note :
  NoDup (id <$> notes) →
  upsertNote notes note ≡ₚ note :: removeNote notes (id note).
Proof.
  intros Hnd. unfold upsertNote.
  destruct (list_find _ notes) as [[index existing]|] eqn:Hfind.
  - apply find_index_split in Hfind as (Hid & Hi & Hsplit & Hins).
    rewrite sortNotes_perm, Hins.
    rewrite Hsplit in Hnd. rewrite Hsplit at 3.
    rewrite <- Permutation_middle. constructor.
    rewrite fmap_app, fmap_cons in Hnd.
    apply NoDup_app in Hnd as (_ & Hdisj & [Hx _]%NoDup_cons).
    unfold removeNote. rewrite filter_app, filter_cons_False by (intros ?; congruence).
    fold (removeNote (take index notes) (id note)).
    fold (removeNote (drop (S index) notes) (id note)).
    rewrite !removeNote_absent; [done| |].
    + by rewrite <- Hid.
    + rewrite <- Hid. intros Hin. eapply Hdisj; [exact Hin|]. left.
  - apply list_find_None in Hfind.
    rewrite sortNotes_perm, removeNote_absent.
    + by rewrite Permutation_app_comm.
    + intros (x & Hx & Hin)%list_elem_of_fmap.
      rewrite Forall_forall in Hfind. by apply (Hfind x).
Qed.

Lemma upsertNote_NoDup notes note :
  NoDup (id <$> notes) → NoDup (id <$> upsertNote notes note).
Proof.
  intros Hnd. rewrite (upsertNote_perm _ _ Hnd), fmap_cons.
  apply NoDup_cons. auto using removeNote_gone, removeNote_NoDup.
Qed.

Lemma elem_of_upsertNote notes note x :
  NoDup (id <$> notes) →
  x ∈ upsertNote notes note ↔ x = note ∨ (x ∈ notes ∧ id x ≠ id note).
Proof.
  intros Hnd. by rewrite (upsertNote_perm _ _ Hnd), elem_of_cons, elem_of_removeNote.
Qed.

Lemma upsertNote_sorted notes note : StronglySorted before (upsertNote notes note).
Proof. unfold upsertNote. destruct (list_find _ _) as [[??]|]; apply sortNotes_sorted. Qed.

Lemma findNote_Some notes noteId x :
  NoDup (id <$> notes) →
  findNote notes noteId = Some x ↔ x ∈ notes ∧ id x = noteId.
Proof.
  intros Hnd. unfold findNote. split.
  - destruct (list_find _ notes) as [[i y]|] eqn:Hf; [|done].
    simpl. intros [= ->]. apply list_find_Some in Hf as (Hi & Hid & _).
    split; [by eapply list_elem_of_lookup_2|done].
  - intros [Hin Hid].
    destruct (list_find_elem_of (λ c, id c = noteId) notes x Hin Hid) as [[i y] Hf].
    rewrite Hf. simpl. f_equal.
    apply list_find_Some in Hf as (Hi & Hy & _).
    eapply ids_injective; eauto using list_elem_of_lookup_2. congruence.
Qed.

Lemma findNote_None notes noteId :
  findNote notes noteId = None ↔ Forall (λ note, id note ≠ noteId) notes.
Proof.
  unfold findNote. rewrite fmap_None. apply list_find_None.
Qed.

Lemma findNote_upsertNote notes note :
  NoDup (id <$> notes) → findNote (upsertNote notes note) (id note) = Some note.
Proof.
  intros Hnd. apply findNote_Some; [by apply upsertNote_NoDup|].
  split; [|done]. apply elem_of_upsertNote; auto.
Qed.

Lemma applyDelta_unfold notes delta :
  applyDelta notes delta =
    match findNote notes (delta_id delta) with
    | None => notes
    | Some existing => upsertNote notes (mergeDelta existing delta)
    end.
Proof.
  unfold applyDelta, findNote. by destruct (list_find _ notes) as [[??]|].
Qed.

Lemma applyDelta_NoDup notes delta :
  NoDup (id <$> notes) → NoDup (id <$> applyDelta notes delta).
Proof.
  intros Hnd. rewrite applyDelta_unfold.
  destruct (findNote _ _); auto using upsertNote_NoDup.
Qed.

(** What a run of upserts leaves in the collection. *)
Lemma elem_of_foldl_upsertNote items notes x :
  NoDup (id <$> notes) → NoDup (id <$> items) →
  x ∈ foldl upsertNote notes items ↔
    x ∈ items ∨ (x ∈ notes ∧ id x ∉ id <$> items).
Proof.
  revert notes. induction items as [|a l IH]; intros notes Hn Hl; simpl.
  - split; [intros; right; split; [done|apply not_elem_of_nil]|].
    intros [[]%elem_of_nil|[? _]]; done.
  - rewrite fmap_cons in Hl. apply NoDup_cons in Hl as [Ha Hl].
    rewrite IH by auto using upsertNote_NoDup.
    rewrite elem_of_upsertNote by done.
    rewrite elem_of_cons, not_elem_of_cons. split.
    + intros [?|[[->|[??]] ?]]; auto.
    + intros [[->|?]|[? [??]]]; auto.
Qed.

Lemma foldl_upsertNote_NoDup items notes :
  NoDup (id <$> notes) → NoDup (id <$> foldl upsertNote notes items).
Proof.
  revert notes. induction items as [|a l IH]; intros notes Hn; simpl; auto using upsertNote_NoDup.
Qed.

Lemma foldl_upsertNote_sorted items notes :
  items ≠ [] → StronglySorted before (foldl upsertNote notes items).
Proof.
  destruct items as [|a l _] using rev_ind; [done|]. intros _.
  rewrite foldl_app. simpl. apply upsertNote_sorted.
Qed.

Lemma foldl_upsertNote_order items items' notes :
  NoDup (id <$> notes) → NoDup (id <$> items) → items' ≡ₚ items →
  foldl upsertNote notes items' = foldl upsertNote notes items.
Proof.
  intros Hn Hl Hp.
  assert (NoDup (id <$> items')) as Hl' by by rewrite Hp.
  destruct items as [|a l].
  { apply Permutation_nil_r in Hp. by subst. }
  apply sorted_unique.
  - by apply foldl_upsertNote_NoDup.
  - apply NoDup_Permutation.
    + eapply NoDup_fmap_1, foldl_upsertNote_NoDup, Hn.
    + eapply NoDup_fmap_1, foldl_upsertNote_NoDup, Hn.
    + intros x. rewrite !elem_of_foldl_upsertNote by done. by rewrite Hp.
  - apply foldl_upsertNote_sorted. intros ->. by apply Permutation_nil_l in Hp.
  - by apply foldl_upsertNote_sorted.
Qed.

Lemma foldl_upsertNote_empty items :
  NoDup (id <$> items) → foldl upsertNote [] items = sortNotes items.
Proof.
  intros Hl. destruct items as [|a l]; [done|].
  apply sorted_unique.
  - by apply foldl_upsertNote_NoDup, NoDup_nil.
  - rewrite sortNotes_perm. apply NoDup_Permutation.
    + eapply NoDup_fmap_1, foldl_upsertNote_NoDup. apply NoDup_nil. done.
    + by eapply NoDup_fmap_1.
    + intros x. rewrite elem_of_foldl_upsertNote; [|apply NoDup_nil; done|done].
      rewrite elem_of_nil. tauto.
  - by apply foldl_upsertNote_sorted.
  - apply sortNotes_sorted.
Qed.

Lemma removeNote_idempotent notes noteId :
  removeNote (removeNote notes noteId) noteId = removeNote notes noteId.
Proof. apply removeNote_absent, removeNote_gone. Qed.

Lemma filter_same_id_removeNote notes noteId :
  filter (λ n, id n = noteId) (removeNote notes noteId) = [].
Proof.
  unfold removeNote. induction notes as [|a l IH]; [done|].
  destruct (decide (id a = noteId)).
  - by rewrite filter_cons_False by tauto.
  - by rewrite filter_cons_True, filter_cons_False by done.
Qed.

(** C1 (as the code has it): the reconciler does not look at the cached
    version. For a collection with distinct ids and a delta whose id is
    present, the entity held for that id afterwards carries the delta's
    version and timestamp, and the delta's title and body where present,
    whether or not the delta's version is newer than the cached one. *)
Theorem applyDelta_overwrites_whatever_version notes delta held :
  NoDup (id <$> notes) →
  findNote notes (delta_id delta) = Some held →
  ∃ now,
    findNote (applyDelta notes delta) (delta_id delta) = Some now ∧
    version now = delta_version delta ∧
    updatedAtUnixMs now = delta_updatedAtUnixMs delta ∧
    title now = default (title held) (delta_title delta) ∧
    body now = default (body held) (delta_body delta) ∧
    id now = id held ∧ createdAtUnixMs now = createdAtUnixMs held.
Proof.
  intros Hnd Hheld. exists (mergeDelta held delta).
  rewrite applyDelta_unfold, Hheld.
  apply findNote_Some in Hheld as [_ Hid]; [|done].
  split_and!; try reflexivity.
  rewrite <- Hid. change (id held) with (id (mergeDelta held delta)).
  by apply findNote_upsertNote.
Qed.

Lemma applyDelta_overwrites_whatever_version_witness :
  ∃ now,
    findNote
      (applyDelta
         [{| id := 1; title := "A"; body := "B"; createdAtUnixMs := 0;
             updatedAtUnixMs := 9; version := 9 |}]
         {| delta_id := 1; delta_title := Some "old"%string; delta_body := None;
            delta_updatedAtUnixMs := 4; delta_version := 4 |}) 1 = Some now ∧
    version now = 4 ∧ updatedAtUnixMs now = 4 ∧
    title now = "old"%string ∧ body now = "B"%string ∧
    id now = 1 ∧ createdAtUnixMs now = 0.
Proof.
  apply (applyDelta_overwrites_whatever_version
    [{| id := 1; title := "A"; body := "B"; createdAtUnixMs := 0;
        updatedAtUnixMs := 9; version := 9 |}]
    {| delta_id := 1; delta_title := Some "old"%string; delta_body := None;
       delta_updatedAtUnixMs := 4; delta_version := 4 |}
    {| id := 1; title := "A"; body := "B"; createdAtUnixMs := 0;
       updatedAtUnixMs := 9; version := 9 |}).
  - apply NoDup_singleton.
  - reflexivity.
Defined.

(** C1 (as stated) fails: a delta of version 4 for a note cached at
    version 9 replaces the title and lowers the version. *)
Lemma applyDelta_stale_delta_changes_entity :
  findNote
    [{| id := 1; title := "A"; body := "B"; createdAtUnixMs := 0;
        updatedAtUnixMs := 9; version := 9 |}] 1
  = Some {| id := 1; title := "A"; body := "B"; createdAtUnixMs := 0;
            updatedAtUnixMs := 9; version := 9 |} ∧
  4 ≤ 9 ∧
  findNote
    (applyDelta
       [{| id := 1; title := "A"; body := "B"; createdAtUnixMs := 0;
           updatedAtUnixMs := 9; version := 9 |}]
       {| delta_id := 1; delta_title := Some "old"%string; delta_body := None;
          delta_updatedAtUnixMs := 4; delta_version := 4 |}) 1
  = Some {| id := 1; title := "old"; body := "B"; createdAtUnixMs := 0;
            updatedAtUnixMs := 4; version := 4 |} ∧
  ¬ (∀ notes delta held,
       findNote notes (delta_id delta) = Some held →
       delta_version delta ≤ version held →
       findNote (applyDelta notes delta) (delta_id delta) = Some held).
Proof.
  split_and!; [reflexivity|lia|reflexivity|].
  intros Hclaim.
  specialize (Hclaim
    [{| id := 1; title := "A"; body := "B"; createdAtUnixMs := 0;
        updatedAtUnixMs := 9; version := 9 |}]
    {| delta_id := 1; delta_title := Some "old"%string; delta_body := None;
       delta_updatedAtUnixMs := 4; delta_version := 4 |}
    _ eq_refl).
  simpl in Hclaim. specialize (Hclaim ltac:(lia)). discriminate Hclaim.
Qed.

(** C3: [applyDelta] returns the collection itself when no note has the
    delta's id; otherwise it upserts the first note of that id with title
    and body taken from the delta where present and kept where absent, and
    with the delta's timestamp and version; the page component's copy
    leaves the same collection in its state. The two examples of the
    specification follow. *)
Theorem applyDelta_spec notes delta :
  (Forall (λ note, id note ≠ delta_id delta) notes →
     applyDelta notes delta = notes) ∧
  (∀ existing, findNote notes (delta_id delta) = Some existing →
     ∃ merged,
       applyDelta notes delta = upsertNote notes merged ∧
       id merged = id existing ∧
       createdAtUnixMs merged = createdAtUnixMs existing ∧
       title merged = match delta_title delta with
                      | Some t => t | None => title existing end ∧
       body merged = match delta_body delta with
                     | Some b => b | None => body existing end ∧
       updatedAtUnixMs merged = delta_updatedAtUnixMs delta ∧
       version merged = delta_version delta) ∧
  fst (pageApplyDelta notes delta) = applyDelta notes delta ∧
  (∀ created updated ver,
     applyDelta
       [{| id := 1; title := "A"; body := "B"; createdAtUnixMs := created;
           updatedAtUnixMs := updated; version := ver |}]
       {| delta_id := 1; delta_title := None; delta_body := Some "C"%string;
          delta_updatedAtUnixMs := 2; delta_version := 2 |}
     = [{| id := 1; title := "A"; body := "C"; createdAtUnixMs := created;
           updatedAtUnixMs := 2; version := 2 |}]) ∧
  applyDelta [] delta = [].
Proof.
  split_and!.
  - intros Hno%findNote_None. by rewrite applyDelta_unfold, Hno.
  - intros existing Hfind. exists (mergeDelta existing delta).
    rewrite applyDelta_unfold, Hfind. split_and!; reflexivity.
  - unfold pageApplyDelta, applyDelta. by destruct (list_find _ notes) as [[??]|].
  - reflexivity.
  - reflexivity.
Qed.

Lemma applyDelta_spec_witness :
  applyDelta
    [{| id := 7; title := "T"; body := "B"; createdAtUnixMs := 1;
        updatedAtUnixMs := 1; version := 1 |}]
    {| delta_id := 999; delta_title := Some "x"%string; delta_body := None;
       delta_updatedAtUnixMs := 1; delta_version := 1 |}
  = [{| id := 7; title := "T"; body := "B"; createdAtUnixMs := 1;
        updatedAtUnixMs := 1; version := 1 |}].
Proof.
  apply (proj1 (applyDelta_spec
    [{| id := 7; title := "T"; body := "B"; createdAtUnixMs := 1;
        updatedAtUnixMs := 1; version := 1 |}]
    {| delta_id := 999; delta_title := Some "x"%string; delta_body := None;
       delta_updatedAtUnixMs := 1; delta_version := 1 |})).
  constructor; [simpl; lia|constructor].
Defined.

(** C4: notes with pairwise distinct ids, upserted one by one into the
    empty collection, give the same array in every insertion order: the
    sorted copy of the set, newest [updatedAtUnixMs] first and, among
    equal timestamps, larger id first. The order of insertion does not
    matter either when the collection already holds notes of distinct
    ids. For timestamps 5, 5, 3 and ids 10, 20, 30 the array is id 20,
    id 10, id 30. *)
Theorem upsertNote_any_order items items' :
  NoDup (id <$> items) → items' ≡ₚ items →
  foldl upsertNote [] items' = foldl upsertNote [] items ∧
  foldl upsertNote [] items' ≡ₚ items ∧
  StronglySorted precedes (foldl upsertNote [] items') ∧
  (∀ notes, NoDup (id <$> notes) →
     foldl upsertNote notes items' = foldl upsertNote notes items) ∧
  (∀ n10 n20 n30,
     items = [n10; n20; n30] →
     id n10 = 10 → updatedAtUnixMs n10 = 5 →
     id n20 = 20 → updatedAtUnixMs n20 = 5 →
     id n30 = 30 → updatedAtUnixMs n30 = 3 →
     foldl upsertNote [] items' = [n20; n10; n30]).
Proof.
  intros Hnd Hp.
  assert (foldl upsertNote [] items' = sortNotes items) as Hsort.
  { rewrite (foldl_upsertNote_order items items') by (done || apply NoDup_nil; done).
    by apply foldl_upsertNote_empty. }
  split_and!.
  - rewrite Hsort. symmetry. by apply foldl_upsertNote_empty.
  - rewrite Hsort. apply sortNotes_perm.
  - rewrite Hsort. apply sorted_precedes; [by rewrite sortNotes_perm|apply sortNotes_sorted].
  - intros notes Hnotes. by apply foldl_upsertNote_order.
  - intros n10 n20 n30 -> ? ? ? ? ? ?. rewrite Hsort.
    apply sorted_unique.
    + by rewrite sortNotes_perm.
    + rewrite sortNotes_perm. apply perm_swap.
    + apply sortNotes_sorted.
    + repeat (constructor; [|repeat (constructor; [before_cases|]); constructor]).
      constructor.
Qed.

Lemma upsertNote_any_order_witness :
  foldl upsertNote []
    [{| id := 30; title := "c"; body := ""; createdAtUnixMs := 1;
        updatedAtUnixMs := 3; version := 1 |};
     {| id := 10; title := "a"; body := ""; createdAtUnixMs := 1;
        updatedAtUnixMs := 5; version := 1 |};
     {| id := 20; title := "b"; body := ""; createdAtUnixMs := 1;
        updatedAtUnixMs := 5; version := 1 |}]
  = [{| id := 20; title := "b"; body := ""; createdAtUnixMs := 1;
        updatedAtUnixMs := 5; version := 1 |};
     {| id := 10; title := "a"; body := ""; createdAtUnixMs := 1;
        updatedAtUnixMs := 5; version := 1 |};
     {| id := 30; title := "c"; body := ""; createdAtUnixMs := 1;
        updatedAtUnixMs := 3; version := 1 |}].
Proof.
  refine (proj2 (proj2 (proj2 (proj2 (upsertNote_any_order
    [{| id := 10; title := "a"; body := ""; createdAtUnixMs := 1;
        updatedAtUnixMs := 5; version := 1 |};
     {| id := 20; title := "b"; body := ""; createdAtUnixMs := 1;
        updatedAtUnixMs := 5; version := 1 |};
     {| id := 30; title := "c"; body := ""; createdAtUnixMs := 1;
        updatedAtUnixMs := 3; version := 1 |}] _ _ _)))) _ _ _
    eq_refl eq_refl eq_refl eq_refl eq_refl eq_refl eq_refl).
  - simpl. repeat (apply NoDup_cons; split; [rewrite ?elem_of_cons, ?elem_of_nil; lia|]).
    apply NoDup_nil. done.
  - etrans; [apply Permutation_cons_append|]. reflexivity.
Defined.

(** C8: [removeNote] keeps, in their order, exactly the notes whose id
    differs from the given one; it returns the collection unchanged when
    the id is absent, and removing the same id again changes nothing. *)
Theorem removeNote_spec notes noteId :
  (∀ x, x ∈ removeNote notes noteId ↔ x ∈ notes ∧ id x ≠ noteId) ∧
  removeNote notes noteId `sublist_of` notes ∧
  (Forall (λ note, id note ≠ noteId) notes → removeNote notes noteId = notes) ∧
  removeNote (removeNote notes noteId) noteId = removeNote notes noteId ∧
  findNote (removeNote notes noteId) noteId = None.
Proof.
  split_and!.
  - intros x. apply elem_of_removeNote.
  - apply sublist_filter.
  - intros Hall. apply removeNote_absent.
    intros (x & Hx & Hin)%list_elem_of_fmap.
    rewrite Forall_forall in Hall. by apply (Hall x).
  - apply removeNote_idempotent.
  - apply findNote_None, Forall_forall. intros x Hx%elem_of_removeNote. tauto.
Qed.

Lemma removeNote_spec_witness :
  removeNote
    [{| id := 2; title := "t"; body := "b"; createdAtUnixMs := 1;
        updatedAtUnixMs := 1; version := 1 |}] 1
  = [{| id := 2; title := "t"; body := "b"; createdAtUnixMs := 1;
        updatedAtUnixMs := 1; version := 1 |}].
Proof.
  apply (proj1 (proj2 (proj2 (removeNote_spec
    [{| id := 2; title := "t"; body := "b"; createdAtUnixMs := 1;
        updatedAtUnixMs := 1; version := 1 |}] 1)))).
  constructor; [simpl; lia|constructor].
Defined.

(** C9: the three operations keep ids pairwise distinct, and after an
    upsert exactly one note carries the upserted id. *)
Theorem reconciler_keeps_ids_distinct notes note delta noteId :
  NoDup (id <$> notes) →
  NoDup (id <$> upsertNote notes note) ∧
  NoDup (id <$> applyDelta notes delta) ∧
  NoDup (id <$> removeNote notes noteId) ∧
  length (filter (λ n, id n = id note) (upsertNote notes note)) = 1%nat.
Proof.
  intros Hnd. split_and!;
    auto using upsertNote_NoDup, applyDelta_NoDup, removeNote_NoDup.
  rewrite (upsertNote_perm _ _ Hnd), filter_cons_True by done.
  by rewrite filter_same_id_removeNote.
Qed.

Lemma reconciler_keeps_ids_distinct_witness :
  NoDup (id <$> upsertNote
    [{| id := 1; title := "t"; body := "b"; createdAtUnixMs := 1;
        updatedAtUnixMs := 1; version := 1 |}]
    {| id := 1; title := "u"; body := "b"; createdAtUnixMs := 1;
       updatedAtUnixMs := 2; version := 2 |}).
Proof.
  apply (reconciler_keeps_ids_distinct
    [{| id := 1; title := "t"; body := "b"; createdAtUnixMs := 1;
        updatedAtUnixMs := 1; version := 1 |}]
    {| id := 1; title := "u"; body := "b"; createdAtUnixMs := 1;
       updatedAtUnixMs := 2; version := 2 |}
    {| delta_id := 1; delta_title := None; delta_body := None;
       delta_updatedAtUnixMs := 3; delta_version := 3 |} 1).
  apply NoDup_singleton.
Defined.

(** *** Further laws of the reconciler *)

Lemma precedes_before a b : precedes a b → before a b.
Proof. before_cases. Qed.

Lemma sorted_before items :
  StronglySorted precedes items → StronglySorted before items.
Proof.
  induction 1 as [|a l Hl IH Hall]; constructor; [done|].
  eapply Forall_impl; [exact Hall|]. intros b. apply precedes_before.
Qed.

Lemma removeNote_sorted notes noteId :
  StronglySorted before notes → StronglySorted before (removeNote notes noteId).
Proof.
  unfold removeNote. induction 1 as [|a l Hl IH Hall]; [constructor|].
  destruct (decide (id a ≠ noteId)).
  - rewrite filter_cons_True by done. constructor; [done|].
    rewrite Forall_forall in Hall |- *.
    intros b [_ Hb]%list_elem_of_filter. by apply Hall.
  - by rewrite filter_cons_False by done.
Qed.

Lemma removeNote_perm notes notes' noteId :
  notes ≡ₚ notes' → removeNote notes noteId ≡ₚ removeNote notes' noteId.
Proof. intros Hp. unfold removeNote. by rewrite Hp. Qed.

Lemma removeNote_comm notes k1 k2 :
  removeNote (removeNote notes k1) k2 = removeNote (removeNote notes k2) k1.
Proof.
  unfold removeNote. rewrite !list_filter_filter.
  apply list_filter_iff. tauto.
Qed.

Lemma findNote_ext notes notes' noteId :
  NoDup (id <$> notes) → NoDup (id <$> notes') →
  (∀ x, id x = noteId → x ∈ notes ↔ x ∈ notes') →
  findNote notes noteId = findNote notes' noteId.
Proof.
  intros Hnd Hnd' Hiff.
  destruct (findNote notes' noteId) as [x|] eqn:Hf'.
  - apply findNote_Some in Hf' as [Hin Hid]; [|done].
    apply findNote_Some; [done|]. split; [|done]. by apply Hiff.
  - rewrite findNote_None, Forall_forall in Hf'.
    apply findNote_None, Forall_forall. intros x Hx Hid.
    apply (Hf' x); [|done]. by apply Hiff.
Qed.

Lemma findNote_upsertNote_ne notes note noteId :
  NoDup (id <$> notes) → noteId ≠ id note →
  findNote (upsertNote notes note) noteId = findNote notes noteId.
Proof.
  intros Hnd Hne. apply findNote_ext; auto using upsertNote_NoDup.
  intros x Hx. rewrite elem_of_upsertNote by done. split.
  - intros [->|[? _]]; [done|done].
  - intros Hin. right. split; [done|congruence].
Qed.

Lemma findNote_removeNote_ne notes k noteId :
  NoDup (id <$> notes) → noteId ≠ k →
  findNote (removeNote notes k) noteId = findNote notes noteId.
Proof.
  intros Hnd Hne. apply findNote_ext; auto using removeNote_NoDup.
  intros x Hx. rewrite elem_of_removeNote. split; [tauto|].
  intros Hin. split; [done|congruence].
Qed.

Lemma findNote_removeNote notes noteId :
  findNote (removeNote notes noteId) noteId = None.
Proof.
  apply findNote_None, Forall_forall. intros x Hx%elem_of_removeNote. tauto.
Qed.

Lemma findNote_id notes noteId x :
  findNote notes noteId = Some x → x ∈ notes ∧ id x = noteId.
Proof.
  unfold findNote. destruct (list_find _ notes) as [[i y]|] eqn:Hf; [|done].
  simpl. intros [= ->]. apply list_find_Some in Hf as (Hi & Hid & _).
  split; [by eapply list_elem_of_lookup_2|done].
Qed.

Lemma findNote_applyDelta_ne notes delta noteId :
  NoDup (id <$> notes) → noteId ≠ delta_id delta →
  findNote (applyDelta notes delta) noteId = findNote notes noteId.
Proof.
  intros Hnd Hne. rewrite applyDelta_unfold.
  destruct (findNote notes (delta_id delta)) as [existing|] eqn:Hf; [|done].
  apply findNote_upsertNote_ne; [done|].
  apply findNote_id in Hf as [_ Hid]. simpl. congruence.
Qed.

Lemma upsertNote_upsertNote notes a b :
  NoDup (id <$> notes) → id a = id b →
  upsertNote (upsertNote notes a) b = upsertNote notes b.
Proof.
  intros Hnd Hab. apply sorted_unique; auto using upsertNote_sorted.
  - auto using upsertNote_NoDup.
  - rewrite (upsertNote_perm (upsertNote notes a)) by auto using upsertNote_NoDup.
    rewrite (upsertNote_perm notes b) by done. constructor.
    rewrite (removeNote_perm _ _ _ (upsertNote_perm notes a Hnd)).
    unfold removeNote at 1. rewrite filter_cons_False by (intros ?; congruence).
    fold (removeNote (removeNote notes (id a)) (id b)).
    rewrite Hab. by rewrite removeNote_idempotent.
Qed.

Lemma upsertNote_comm notes a b :
  NoDup (id <$> notes) → id a ≠ id b →
  upsertNote (upsertNote notes a) b = upsertNote (upsertNote notes b) a.
Proof.
  intros Hnd Hab.
  apply (foldl_upsertNote_order [b; a] [a; b] notes); [done| |].
  - simpl. apply NoDup_cons. split; [|apply NoDup_singleton].
    rewrite list_elem_of_singleton. congruence.
  - apply perm_swap.
Qed.

Lemma removeNote_upsertNote_ne notes note noteId :
  NoDup (id <$> notes) → id note ≠ noteId →
  removeNote (upsertNote notes note) noteId
  = upsertNote (removeNote notes noteId) note.
Proof.
  intros Hnd Hne. apply sorted_unique.
  - auto using removeNote_NoDup, upsertNote_NoDup.
  - rewrite (removeNote_perm _ _ _ (upsertNote_perm notes note Hnd)).
    rewrite (upsertNote_perm (removeNote notes noteId)) by auto using removeNote_NoDup.
    unfold removeNote at 1. rewrite filter_cons_True by done.
    fold (removeNote (removeNote notes (id note)) noteId).
    by rewrite removeNote_comm.
  - apply removeNote_sorted, upsertNote_sorted.
  - apply upsertNote_sorted.
Qed.

Lemma removeNote_upsertNote notes note :
  NoDup (id <$> notes) → StronglySorted before notes →
  removeNote (upsertNote notes note) (id note) = removeNote notes (id note).
Proof.
  intros Hnd Hs. apply sorted_unique.
  - auto using removeNote_NoDup, upsertNote_NoDup.
  - rewrite (removeNote_perm _ _ _ (upsertNote_perm notes note Hnd)).
    unfold removeNote at 1. rewrite filter_cons_False by tauto.
    fold (removeNote (removeNote notes (id note)) (id note)).
    by rewrite removeNote_idempotent.
  - apply removeNote_sorted, upsertNote_sorted.
  - by apply removeNote_sorted.
Qed.

Lemma applyDelta_removeNote notes delta :
  applyDelta (removeNote notes (delta_id delta)) delta
  = removeNote notes (delta_id delta).
Proof. by rewrite applyDelta_unfold, findNote_removeNote. Qed.

Lemma applyDelta_sorted notes delta :
  StronglySorted before notes → StronglySorted before (applyDelta notes delta).
Proof.
  intros Hs. rewrite applyDelta_unfold.
  destruct (findNote _ _); auto using upsertNote_sorted.
Qed.

Lemma mergeDelta_id existing delta : id (mergeDelta existing delta) = id existing.
Proof. done. Qed.

Lemma applyDelta_upsertNote_ne notes note delta :
  NoDup (id <$> notes) → id note ≠ delta_id delta →
  applyDelta (upsertNote notes note) delta
  = upsertNote (applyDelta notes delta) note.
Proof.
  intros Hnd Hne. rewrite !applyDelta_unfold.
  rewrite findNote_upsertNote_ne by (done || congruence).
  destruct (findNote notes (delta_id delta)) as [existing|] eqn:Hf; [|done].
  apply findNote_id in Hf as [_ Hid].
  apply upsertNote_comm; [done|]. rewrite mergeDelta_id. congruence.
Qed.

Lemma applyDelta_removeNote_ne notes noteId delta :
  NoDup (id <$> notes) → noteId ≠ delta_id delta →
  applyDelta (removeNote notes noteId) delta
  = removeNote (applyDelta notes delta) noteId.
Proof.
  intros Hnd Hne. rewrite !applyDelta_unfold.
  rewrite findNote_removeNote_ne by (done || congruence).
  destruct (findNote notes (delta_id delta)) as [existing|] eqn:Hf; [|done].
  apply findNote_id in Hf as [_ Hid].
  symmetry. apply removeNote_upsertNote_ne; [done|].
  rewrite mergeDelta_id. congruence.
Qed.

Lemma applyDelta_comm notes delta1 delta2 :
  NoDup (id <$> notes) → delta_id delta1 ≠ delta_id delta2 →
  applyDelta (applyDelta notes delta1) delta2
  = applyDelta (applyDelta notes delta2) delta1.
Proof.
  intros Hnd Hne.
  rewrite (applyDelta_unfold (applyDelta notes delta1)).
  rewrite (applyDelta_unfold (applyDelta notes delta2)).
  rewrite !findNote_applyDelta_ne by (done || congruence).
  rewrite !(applyDelta_unfold notes).
  destruct (findNote notes (delta_id delta1)) as [e1|] eqn:H1;
    destruct (findNote notes (delta_id delta2)) as [e2|] eqn:H2; try done.
  apply findNote_id in H1 as [_ H1]. apply findNote_id in H2 as [_ H2].
  apply upsertNote_comm; [done|]. rewrite !mergeDelta_id. congruence.
Qed.

(** What the updater of an event computes from the collection. *)
Lemma applyNoteEventToCache_Some cached event :
  applyNoteEventToCache cached event
  = match event with
    | NoCase => cached
    | _ => applyNoteEventToCache (Some (default [] cached)) event
    end.
Proof. by destruct event. Qed.

Lemma applyNoteEventToCache_NoDup cached event :
  NoDup (id <$> default [] cached) →
  NoDup (id <$> default [] (applyNoteEventToCache cached event)).
Proof.
  destruct event; simpl;
    auto using upsertNote_NoDup, applyDelta_NoDup, removeNote_NoDup.
Qed.

Lemma applyNoteEventToCache_sorted cached event :
  StronglySorted before (default [] cached) →
  StronglySorted before (default [] (applyNoteEventToCache cached event)).
Proof.
  destruct event; simpl;
    auto using upsertNote_sorted, applyDelta_sorted, removeNote_sorted.
Qed.

(** X1: for one id the last write wins: on a collection with distinct
    ids, upserting a note and then another note of the same id gives the
    collection that upserting only the second gives. Upserting the same
    note twice is the same as upserting it once. *)
Theorem upsertNote_last_write_wins notes a b :
  NoDup (id <$> notes) → id a = id b →
  upsertNote (upsertNote notes a) b = upsertNote notes b ∧
  upsertNote (upsertNote notes b) b = upsertNote notes b.
Proof. intros Hnd Hab. split; by apply upsertNote_upsertNote. Qed.

Lemma upsertNote_last_write_wins_witness :
  upsertNote
    (upsertNote []
       {| id := 1; title := "a"; body := ""; createdAtUnixMs := 1;
          updatedAtUnixMs := 1; version := 1 |})
    {| id := 1; title := "b"; body := ""; createdAtUnixMs := 1;
       updatedAtUnixMs := 2; version := 2 |}
  = upsertNote []
      {| id := 1; title := "b"; body := ""; createdAtUnixMs := 1;
         updatedAtUnixMs := 2; version := 2 |}.
Proof.
  refine (proj1 (upsertNote_last_write_wins [] _ _ _ _)).
  - apply NoDup_nil_2.
  - reflexivity.
Defined.

(** X2: the events of a stream keep the cache entry reconciled: when the
    cached collection (the empty one while the entry is undefined) has
    pairwise distinct ids and is in the order of the list, newest first
    and larger id first among equal timestamps, it still is after any
    sequence of events has been applied to the cache. *)
Theorem applyNoteEventToCache_keeps_order events cached :
  NoDup (id <$> default [] cached) →
  StronglySorted precedes (default [] cached) →
  NoDup (id <$> default [] (foldl applyNoteEventToCache cached events)) ∧
  StronglySorted precedes (default [] (foldl applyNoteEventToCache cached events)).
Proof.
  intros Hnd Hs%sorted_before.
  cut (NoDup (id <$> default [] (foldl applyNoteEventToCache cached events)) ∧
       StronglySorted before (default [] (foldl applyNoteEventToCache cached events))).
  { intros [? ?]. auto using sorted_precedes. }
  revert cached Hnd Hs. induction events as [|event events IH]; intros cached Hnd Hs; [done|].
  simpl. apply IH; auto using applyNoteEventToCache_NoDup, applyNoteEventToCache_sorted.
Qed.

Lemma applyNoteEventToCache_keeps_order_witness :
  StronglySorted precedes
    (default []
       (foldl applyNoteEventToCache None
          [Created {| id := 1; title := "a"; body := ""; createdAtUnixMs := 1;
                      updatedAtUnixMs := 1; version := 1 |};
           Created {| id := 2; title := "b"; body := ""; createdAtUnixMs := 2;
                      updatedAtUnixMs := 2; version := 1 |};
           Updated {| delta_id := 1; delta_title := None; delta_body := Some "c";
                      delta_updatedAtUnixMs := 3; delta_version := 2 |};
           Deleted 2])).
Proof.
  refine (proj2 (applyNoteEventToCache_keeps_order _ None _ _)).
  - apply NoDup_nil_2.
  - constructor.
Defined.

(** X3: a deleted note is not brought back by a delta: once the note of
    an id has been removed, a delta for that id leaves the collection as
    the removal left it, and in the cache a Deleted event followed by an
    Updated event for the same id leaves what the Deleted event alone
    leaves. *)
Theorem applyDelta_after_removeNote notes cached delta :
  applyDelta (removeNote notes (delta_id delta)) delta
  = removeNote notes (delta_id delta) ∧
  applyNoteEventToCache
    (applyNoteEventToCache cached (Deleted (delta_id delta))) (Updated delta)
  = applyNoteEventToCache cached (Deleted (delta_id delta)).
Proof.
  split; [apply applyDelta_removeNote|].
  simpl. f_equal. apply applyDelta_removeNote.
Qed.

(** X4: removing a note that was just upserted undoes the upsert: on a
    collection with distinct ids that is in list order, an upsert
    followed by the removal of the same id gives what the removal alone
    gives. *)
Theorem removeNote_after_upsertNote notes note :
  NoDup (id <$> notes) → StronglySorted precedes notes →
  removeNote (upsertNote notes note) (id note) = removeNote notes (id note).
Proof. intros Hnd Hs%sorted_before. by apply removeNote_upsertNote. Qed.

Lemma removeNote_after_upsertNote_witness :
  removeNote
    (upsertNote
       [{| id := 2; title := "t"; body := "b"; createdAtUnixMs := 1;
           updatedAtUnixMs := 1; version := 1 |}]
       {| id := 1; title := "u"; body := "b"; createdAtUnixMs := 1;
          updatedAtUnixMs := 2; version := 2 |}) 1
  = removeNote
      [{| id := 2; title := "t"; body := "b"; createdAtUnixMs := 1;
          updatedAtUnixMs := 1; version := 1 |}] 1.
Proof.
  refine (removeNote_after_upsertNote
    [{| id := 2; title := "t"; body := "b"; createdAtUnixMs := 1;
        updatedAtUnixMs := 1; version := 1 |}]
    {| id := 1; title := "u"; body := "b"; createdAtUnixMs := 1;
       updatedAtUnixMs := 2; version := 2 |} _ _).
  - apply NoDup_singleton.
  - repeat constructor.
Defined.

(** X5: an operation on one id leaves the notes of all other ids as they
    are: in a collection with distinct ids, the note held for an id is
    the same before and after an upsert, a delta or a removal that is
    about a different id. *)
Theorem reconciler_leaves_other_notes notes note delta removed noteId :
  NoDup (id <$> notes) →
  (noteId ≠ id note →
     findNote (upsertNote notes note) noteId = findNote notes noteId) ∧
  (noteId ≠ delta_id delta →
     findNote (applyDelta notes delta) noteId = findNote notes noteId) ∧
  (noteId ≠ removed →
     findNote (removeNote notes removed) noteId = findNote notes noteId).
Proof.
  intros Hnd. split_and!; intros Hne;
    auto using findNote_upsertNote_ne, findNote_applyDelta_ne, findNote_removeNote_ne.
Qed.

Lemma reconciler_leaves_other_notes_witness :
  findNote
    (applyDelta
       [{| id := 2; title := "t"; body := "b"; createdAtUnixMs := 1;
           updatedAtUnixMs := 1; version := 1 |};
        {| id := 1; title := "u"; body := "b"; createdAtUnixMs := 1;
           updatedAtUnixMs := 1; version := 1 |}]
       {| delta_id := 1; delta_title := Some "v"; delta_body := None;
          delta_updatedAtUnixMs := 3; delta_version := 3 |}) 2
  = findNote
      [{| id := 2; title := "t"; body := "b"; createdAtUnixMs := 1;
          updatedAtUnixMs := 1; version := 1 |};
       {| id := 1; title := "u"; body := "b"; createdAtUnixMs := 1;
          updatedAtUnixMs := 1; version := 1 |}] 2.
Proof.
  refine (proj1 (proj2 (reconciler_leaves_other_notes
    [{| id := 2; title := "t"; body := "b"; createdAtUnixMs := 1;
        updatedAtUnixMs := 1; version := 1 |};
     {| id := 1; title := "u"; body := "b"; createdAtUnixMs := 1;
        updatedAtUnixMs := 1; version := 1 |}]
    {| id := 1; title := "u"; body := "b"; createdAtUnixMs := 1;
       updatedAtUnixMs := 2; version := 2 |}
    {| delta_id := 1; delta_title := Some "v"; delta_body := None;
       delta_updatedAtUnixMs := 3; delta_version := 3 |} 1 2 _)) _).
  - simpl. apply NoDup_cons. split; [|apply NoDup_singleton].
    rewrite list_elem_of_singleton. lia.
  - simpl. lia.
Defined.

(** X6: events about different notes commute: on a cache entry whose
    collection has distinct ids, two events that are about different ids
    (or of which one has no case) leave the same entry in either order
    of arrival. *)
Theorem applyNoteEventToCache_commutes cached event1 event2 :
  NoDup (id <$> default [] cached) →
  (∀ k, eventId event1 = Some k → eventId event2 ≠ Some k) →
  applyNoteEventToCache (applyNoteEventToCache cached event1) event2
  = applyNoteEventToCache (applyNoteEventToCache cached event2) event1.
Proof.
  intros Hnd Hne.
  destruct event1 as [a|d1|k1|], event2 as [b|d2|k2|]; simpl in *;
    try done; f_equal;
    (assert (∀ k k' : Z, (∀ x, Some k = Some x → Some k' ≠ Some x) → k ≠ k')
       as Hk by (intros k k' H ->; by apply (H k')));
    apply Hk in Hne.
  - by apply upsertNote_comm.
  - by apply applyDelta_upsertNote_ne.
  - by apply removeNote_upsertNote_ne.
  - symmetry. apply applyDelta_upsertNote_ne; [done|congruence].
  - by apply applyDelta_comm.
  - symmetry. apply applyDelta_removeNote_ne; [done|congruence].
  - symmetry. apply removeNote_upsertNote_ne; [done|congruence].
  - by apply applyDelta_removeNote_ne.
  - apply removeNote_comm.
Qed.

Lemma applyNoteEventToCache_commutes_witness :
  applyNoteEventToCache
    (applyNoteEventToCache None
       (Created {| id := 1; title := "a"; body := ""; createdAtUnixMs := 1;
                   updatedAtUnixMs := 1; version := 1 |}))
    (Deleted 2)
  = applyNoteEventToCache
      (applyNoteEventToCache None (Deleted 2))
      (Created {| id := 1; title := "a"; body := ""; createdAtUnixMs := 1;
                  updatedAtUnixMs := 1; version := 1 |}).
Proof.
  refine (applyNoteEventToCache_commutes None _ _ _ _).
  - apply NoDup_nil_2.
  - simpl. intros k [= <-] [=].
Defined.

End CacheProperties.

(** ** Properties of the page with its own collection *)

Section LocalPageProperties.
Import Cache.

Lemma pageApplyDelta_unfold notes delta :
  pageApplyDelta notes delta =
    match findNote notes (delta_id delta) with
    | None => (notes, None)
    | Some existing =>
        (upsertNote notes (mergeDelta existing delta), Some (mergeDelta existing delta))
    end.
Proof.
  unfold pageApplyDelta, findNote. by destruct (list_find _ notes) as [[??]|].
Qed.

Lemma findNote_head notes first :
  head notes = Some first → findNote notes (id first) = Some first.
Proof.
  destruct notes as [|a l]; [done|]. intros [= ->].
  unfold findNote. simpl. by rewrite decide_True.
Qed.

Lemma LocalPage_clean page :
  LocalPage.hasUnsavedChanges page = false ↔
  ∀ note, LocalPage.selectedNote page = Some note →
    LocalPage.draftTitle page = title note ∧ LocalPage.draftBody page = body note.
Proof.
  unfold LocalPage.hasUnsavedChanges.
  destruct (LocalPage.selectedNote page) as [selected|]; [|by split].
  rewrite bool_decide_eq_false. split.
  - intros Hno note [= <-].
    destruct (decide (LocalPage.draftTitle page = title selected));
      destruct (decide (LocalPage.draftBody page = body selected)); tauto.
  - intros Hall [Hne|Hne]; destruct (Hall selected eq_refl); done.
Qed.

Lemma LocalPage_synced delta page existing :
  NoDup (id <$> LocalPage.notes page) →
  LocalPage.hasUnsavedChanges page = false →
  LocalPage.selectedNoteId page = Some (delta_id delta) →
  findNote (LocalPage.notes page) (delta_id delta) = Some existing →
  LocalPage.selectedNote (LocalPage.handleRealtimeEvent (Updated delta) page)
  = Some (mergeDelta existing delta) ∧
  LocalPage.draftTitle (LocalPage.handleRealtimeEvent (Updated delta) page)
  = default (title existing) (delta_title delta) ∧
  LocalPage.draftBody (LocalPage.handleRealtimeEvent (Updated delta) page)
  = default (body existing) (delta_body delta) ∧
  LocalPage.hasUnsavedChanges (LocalPage.handleRealtimeEvent (Updated delta) page)
  = false.
Proof.
  intros Hnd Hclean Hsel Hfind. simpl. unfold LocalPage.applyDelta.
  rewrite pageApplyDelta_unfold, Hfind, Hclean, bool_decide_eq_true_2 by done.
  simpl.
  assert (LocalPage.selectedNote
    {| LocalPage.notes := upsertNote (LocalPage.notes page) (mergeDelta existing delta);
       LocalPage.selectedNoteId := LocalPage.selectedNoteId page;
       LocalPage.draftTitle := default (title existing) (delta_title delta);
       LocalPage.draftBody := default (body existing) (delta_body delta) |}
    = Some (mergeDelta existing delta)) as Hnow.
  { unfold LocalPage.selectedNote. simpl. rewrite Hsel.
    apply findNote_id in Hfind as [_ Hid].
    rewrite <- Hid, <- (mergeDelta_id existing delta).
    by apply findNote_upsertNote. }
  split_and!; try done.
  apply LocalPage_clean. rewrite Hnow. by intros note [= <-].
Qed.

(** X7: the page's own copy of the helpers computes what the cache
    helpers compute: after the realtime handler has run, the page holds
    the collection that [applyNoteEventToCache] leaves in a cache entry
    that held the page's collection. *)
Theorem LocalPage_follows_the_cache event page :
  Some (LocalPage.notes (LocalPage.handleRealtimeEvent event page))
  = applyNoteEventToCache (Some (LocalPage.notes page)) event.
Proof.
  destruct event as [note|delta|noteId|]; simpl; try done.
  - unfold LocalPage.applyDelta. rewrite pageApplyDelta_unfold, applyDelta_unfold.
    destruct (findNote _ _); [|done].
    by destruct (negb _ && _).
  - unfold LocalPage.removeNote. simpl. by case_decide.
Qed.

(** X8: events spare the editor of the page: the selection and the two
    draft fields are left as they are by every Created event, by every
    Updated event that is about another note than the selected one or
    that arrives while the draft has unsaved changes, and by every
    Deleted event for another note than the selected one. *)
Theorem LocalPage_events_spare_the_editor event page :
  match event with
  | Updated delta =>
      LocalPage.hasUnsavedChanges page = true ∨
      LocalPage.selectedNoteId page ≠ Some (delta_id delta)
  | Deleted noteId => LocalPage.selectedNoteId page ≠ Some noteId
  | _ => True
  end →
  LocalPage.selectedNoteId (LocalPage.handleRealtimeEvent event page)
  = LocalPage.selectedNoteId page ∧
  LocalPage.draftTitle (LocalPage.handleRealtimeEvent event page)
  = LocalPage.draftTitle page ∧
  LocalPage.draftBody (LocalPage.handleRealtimeEvent event page)
  = LocalPage.draftBody page.
Proof.
  destruct event as [note|delta|noteId|]; simpl; try done.
  - intros Hkeep. unfold LocalPage.applyDelta.
    destruct (pageApplyDelta _ _) as [items [updated|]]; [|done].
    destruct Hkeep as [->|Hne]; [done|].
    by rewrite bool_decide_eq_false_2, andb_false_r by done.
  - intros Hne. unfold LocalPage.removeNote. simpl. by rewrite decide_True.
Qed.

Lemma LocalPage_events_spare_the_editor_witness :
  LocalPage.draftTitle
    (LocalPage.handleRealtimeEvent
       (Updated {| delta_id := 1; delta_title := Some "theirs"; delta_body := None;
                   delta_updatedAtUnixMs := 3; delta_version := 3 |})
       {| LocalPage.notes :=
            [{| id := 1; title := "t"; body := "b"; createdAtUnixMs := 1;
                updatedAtUnixMs := 1; version := 1 |}];
          LocalPage.selectedNoteId := Some 1;
          LocalPage.draftTitle := "mine";
          LocalPage.draftBody := "b" |})
  = "mine".
Proof.
  refine (proj1 (proj2 (LocalPage_events_spare_the_editor
    (Updated {| delta_id := 1; delta_title := Some "theirs"; delta_body := None;
                delta_updatedAtUnixMs := 3; delta_version := 3 |})
    {| LocalPage.notes :=
         [{| id := 1; title := "t"; body := "b"; createdAtUnixMs := 1;
             updatedAtUnixMs := 1; version := 1 |}];
       LocalPage.selectedNoteId := Some 1;
       LocalPage.draftTitle := "mine";
       LocalPage.draftBody := "b" |} _))).
  left. reflexivity.
Defined.

(** X9: a delta for the selected note reaches a clean editor: when the
    collection has distinct ids, the draft has no unsaved changes and the
    selected note is the one the delta is about, the handler leaves the
    merged note selected and its title and body in the draft, so the
    editor is clean again. *)
Theorem LocalPage_delta_syncs_clean_editor delta page existing :
  NoDup (id <$> LocalPage.notes page) →
  LocalPage.hasUnsavedChanges page = false →
  LocalPage.selectedNoteId page = Some (delta_id delta) →
  findNote (LocalPage.notes page) (delta_id delta) = Some existing →
  LocalPage.selectedNote (LocalPage.handleRealtimeEvent (Updated delta) page)
  = Some (mergeDelta existing delta) ∧
  LocalPage.draftTitle (LocalPage.handleRealtimeEvent (Updated delta) page)
  = default (title existing) (delta_title delta) ∧
  LocalPage.draftBody (LocalPage.handleRealtimeEvent (Updated delta) page)
  = default (body existing) (delta_body delta) ∧
  LocalPage.hasUnsavedChanges (LocalPage.handleRealtimeEvent (Updated delta) page)
  = false.
Proof. apply LocalPage_synced. Qed.

Lemma LocalPage_delta_syncs_clean_editor_witness :
  LocalPage.draftTitle
    (LocalPage.handleRealtimeEvent
       (Updated {| delta_id := 1; delta_title := Some "theirs"; delta_body := None;
                   delta_updatedAtUnixMs := 3; delta_version := 3 |})
       {| LocalPage.notes :=
            [{| id := 1; title := "t"; body := "b"; createdAtUnixMs := 1;
                updatedAtUnixMs := 1; version := 1 |}];
          LocalPage.selectedNoteId := Some 1;
          LocalPage.draftTitle := "t";
          LocalPage.draftBody := "b" |})
  = "theirs".
Proof.
  refine (proj1 (proj2 (LocalPage_delta_syncs_clean_editor
    {| delta_id := 1; delta_title := Some "theirs"; delta_body := None;
       delta_updatedAtUnixMs := 3; delta_version := 3 |}
    {| LocalPage.notes :=
         [{| id := 1; title := "t"; body := "b"; createdAtUnixMs := 1;
             updatedAtUnixMs := 1; version := 1 |}];
       LocalPage.selectedNoteId := Some 1;
       LocalPage.draftTitle := "t";
       LocalPage.draftBody := "b" |}
    {| id := 1; title := "t"; body := "b"; createdAtUnixMs := 1;
       updatedAtUnixMs := 1; version := 1 |} _ _ _ _))).
  - apply NoDup_singleton.
  - reflexivity.
  - reflexivity.
  - reflexivity.
Defined.

(** X10: events never make a clean editor look edited: when the
    collection has distinct ids and the draft has no unsaved changes, it
    has none after the handler has run, whatever the event, except a
    Created event that carries the id of the selected note. *)
Theorem LocalPage_clean_editor_stays_clean event page :
  NoDup (id <$> LocalPage.notes page) →
  LocalPage.hasUnsavedChanges page = false →
  (∀ note, event = Created note → LocalPage.selectedNoteId page ≠ Some (id note)) →
  LocalPage.hasUnsavedChanges (LocalPage.handleRealtimeEvent event page) = false.
Proof.
  intros Hnd Hclean Hcreated.
  destruct event as [note|delta|noteId|]; [| | |done].
  - specialize (Hcreated note eq_refl).
    rewrite LocalPage_clean in Hclean |- *. simpl.
    intros selected Hsel. apply Hclean. revert Hsel.
    unfold LocalPage.selectedNote. simpl.
    destruct (LocalPage.selectedNoteId page) as [k|]; [|done].
    rewrite findNote_upsertNote_ne; [done|done|congruence].
  - destruct (findNote (LocalPage.notes page) (delta_id delta)) as [existing|] eqn:Hfind;
      destruct (decide (LocalPage.selectedNoteId page = Some (delta_id delta))) as [Hsel|Hsel].
    + by eapply LocalPage_synced.
    + rewrite LocalPage_clean in Hclean |- *.
      simpl. unfold LocalPage.applyDelta.
      rewrite pageApplyDelta_unfold, Hfind, bool_decide_eq_false_2, andb_false_r by done.
      simpl. intros selected Hnow. apply Hclean. revert Hnow.
      unfold LocalPage.selectedNote. simpl.
      destruct (LocalPage.selectedNoteId page) as [k|]; [|done].
      rewrite findNote_upsertNote_ne; [done|done|].
      apply findNote_id in Hfind as [_ Hid]. rewrite mergeDelta_id. congruence.
    + simpl. unfold LocalPage.applyDelta.
      by rewrite pageApplyDelta_unfold, Hfind.
    + simpl. unfold LocalPage.applyDelta.
      by rewrite pageApplyDelta_unfold, Hfind.
  - simpl. unfold LocalPage.removeNote. simpl. case_decide as Hsel.
    + rewrite LocalPage_clean in Hclean |- *. simpl.
      intros selected Hnow. apply Hclean. revert Hnow.
      unfold LocalPage.selectedNote. simpl.
      destruct (LocalPage.selectedNoteId page) as [k|]; [|done].
      rewrite findNote_removeNote_ne; [done|done|congruence].
    + apply LocalPage_clean. unfold LocalPage.selectedNote, LocalPage.selectNote. simpl.
      destruct (head (removeNote (LocalPage.notes page) noteId)) as [first|] eqn:Hhead;
        [|done].
      simpl. rewrite (findNote_head _ _ Hhead). simpl. by intros note [= <-].
Qed.

Lemma LocalPage_clean_editor_stays_clean_witness :
  LocalPage.hasUnsavedChanges
    (LocalPage.handleRealtimeEvent (Deleted 1)
       {| LocalPage.notes :=
            [{| id := 1; title := "t"; body := "b"; createdAtUnixMs := 1;
                updatedAtUnixMs := 1; version := 1 |}];
          LocalPage.selectedNoteId := Some 1;
          LocalPage.draftTitle := "t";
          LocalPage.draftBody := "b" |})
  = false.
Proof.
  refine (LocalPage_clean_editor_stays_clean (Deleted 1)
    {| LocalPage.notes :=
         [{| id := 1; title := "t"; body := "b"; createdAtUnixMs := 1;
             updatedAtUnixMs := 1; version := 1 |}];
       LocalPage.selectedNoteId := Some 1;
       LocalPage.draftTitle := "t";
       LocalPage.draftBody := "b" |} _ _ _).
  - apply NoDup_singleton.
  - reflexivity.
  - intros note [=].
Defined.

(** X11: when the selected note is deleted the page moves on: the note
    is removed, the first of the remaining notes becomes the selected
    note with its title and body in the draft, and when no note remains
    the selection is cleared and the draft is empty. *)
Theorem LocalPage_deleting_the_selected_note noteId page :
  LocalPage.selectedNoteId page = Some noteId →
  let page' := LocalPage.handleRealtimeEvent (Deleted noteId) page in
  LocalPage.notes page' = removeNote (LocalPage.notes page) noteId ∧
  LocalPage.selectedNoteId page' = id <$> head (LocalPage.notes page') ∧
  LocalPage.selectedNote page' = head (LocalPage.notes page') ∧
  LocalPage.draftTitle page' = from_option title EmptyString (head (LocalPage.notes page')) ∧
  LocalPage.draftBody page' = from_option body EmptyString (head (LocalPage.notes page')).
Proof.
  intros Hsel. simpl. unfold LocalPage.removeNote. simpl.
  rewrite decide_False by (intros Hne; by apply Hne).
  unfold LocalPage.selectedNote, LocalPage.selectNote. simpl.
  destruct (head (removeNote (LocalPage.notes page) noteId)) as [first|] eqn:Hhead;
    [|done].
  simpl. by rewrite (findNote_head _ _ Hhead).
Qed.

Lemma LocalPage_deleting_the_selected_note_witness :
  LocalPage.selectedNoteId
    (LocalPage.handleRealtimeEvent (Deleted 1)
       {| LocalPage.notes :=
            [{| id := 1; title := "t"; body := "b"; createdAtUnixMs := 1;
                updatedAtUnixMs := 2; version := 1 |};
             {| id := 2; title := "u"; body := "c"; createdAtUnixMs := 1;
                updatedAtUnixMs := 1; version := 1 |}];
          LocalPage.selectedNoteId := Some 1;
          LocalPage.draftTitle := "edited";
          LocalPage.draftBody := "b" |})
  = Some 2.
Proof.
  refine (proj1 (proj2 (LocalPage_deleting_the_selected_note 1
    {| LocalPage.notes :=
         [{| id := 1; title := "t"; body := "b"; createdAtUnixMs := 1;
             updatedAtUnixMs := 2; version := 1 |};
          {| id := 2; title := "u"; body := "c"; createdAtUnixMs := 1;
             updatedAtUnixMs := 1; version := 1 |}];
       LocalPage.selectedNoteId := Some 1;
       LocalPage.draftTitle := "edited";
       LocalPage.draftBody := "b" |} _))).
  reflexivity.
Defined.

End LocalPageProperties.

(** ** Properties of the page on the query cache *)

Section PageProperties.
Import Cache.

Lemma Page_clean page :
  Page.hasUnsavedChanges page = false ↔
  ∀ note, Page.selectedNote page = Some note →
    Page.draftTitle page = title note ∧ Page.draftBody page = body note.
Proof.
  unfold Page.hasUnsavedChanges.
  destruct (Page.selectedNote page) as [selected|]; [|by split].
  rewrite bool_decide_eq_false. split.
  - intros Hno note [= <-].
    destruct (decide (Page.draftTitle page = title selected));
      destruct (decide (Page.draftBody page = body selected)); tauto.
  - intros Hall [Hne|Hne]; destruct (Hall selected eq_refl); done.
Qed.

Lemma Page_selectionStillExists notes noteId :
  existsb (λ note, bool_decide (id note = noteId)) notes = true
  ↔ is_Some (findNote notes noteId).
Proof.
  unfold findNote. induction notes as [|a l IH]; simpl.
  - split; [done|]. by intros [? ?].
  - case_decide as Ha.
    + rewrite bool_decide_eq_true_2 by done. simpl. split; [by eexists|done].
    + rewrite bool_decide_eq_false_2 by done. simpl. rewrite IH.
      destruct (list_find _ l) as [[i x]|]; simpl; split; try done.
      all: by intros [? ?].
Qed.

Lemma Page_synced delta page existing :
  NoDup (id <$> Page.notes page) →
  Page.hasUnsavedChanges page = false →
  Page.selectedNoteId page = Some (delta_id delta) →
  findNote (Page.notes page) (delta_id delta) = Some existing →
  Page.selectedNote (Page.handleRealtimeEvent (Updated delta) page)
  = Some (mergeDelta existing delta) ∧
  Page.draftTitle (Page.handleRealtimeEvent (Updated delta) page)
  = default (title existing) (delta_title delta) ∧
  Page.draftBody (Page.handleRealtimeEvent (Updated delta) page)
  = default (body existing) (delta_body delta) ∧
  Page.hasUnsavedChanges (Page.handleRealtimeEvent (Updated delta) page) = false.
Proof.
  intros Hnd Hclean Hsel Hfind.
  assert (Page.draftTitle page = title existing ∧ Page.draftBody page = body existing)
    as [Ht Hb].
  { apply Page_clean; [done|]. unfold Page.selectedNote. by rewrite Hsel. }
  unfold Page.handleRealtimeEvent.
  rewrite Hclean, bool_decide_eq_true_2 by done. simpl. rewrite Ht, Hb.
  assert (Page.selectedNote
    {| Page.data := Some (applyDelta (default [] (Page.data page)) delta);
       Page.selectedNoteId := Page.selectedNoteId page;
       Page.draftTitle := default (title existing) (delta_title delta);
       Page.draftBody := default (body existing) (delta_body delta) |}
    = Some (mergeDelta existing delta)) as Hnow.
  { unfold Page.selectedNote, Page.notes. simpl. rewrite Hsel.
    fold (Page.notes page). rewrite applyDelta_unfold, Hfind.
    apply findNote_id in Hfind as [_ Hid].
    rewrite <- Hid, <- (mergeDelta_id existing delta).
    by apply findNote_upsertNote. }
  split_and!; try done.
  apply Page_clean. rewrite Hnow. by intros note [= <-].
Qed.

(** X12: on the query-backed page an event reaches the cache and nothing
    else: the handler leaves in the query entry what
    [applyNoteEventToCache] computes and never changes the selection, and
    it leaves the draft as it is unless the event is an Updated event for
    the selected note that arrives while the draft has no unsaved
    changes. *)
Theorem Page_events_spare_the_editor event page :
  Page.data (Page.handleRealtimeEvent event page)
  = applyNoteEventToCache (Page.data page) event ∧
  Page.selectedNoteId (Page.handleRealtimeEvent event page)
  = Page.selectedNoteId page ∧
  ((∀ delta, event = Updated delta →
      Page.hasUnsavedChanges page = true ∨
      Page.selectedNoteId page ≠ Some (delta_id delta)) →
   Page.draftTitle (Page.handleRealtimeEvent event page) = Page.draftTitle page ∧
   Page.draftBody (Page.handleRealtimeEvent event page) = Page.draftBody page).
Proof.
  destruct event as [note|delta|noteId|]; try done.
  unfold Page.handleRealtimeEvent.
  destruct (negb _ && bool_decide _) eqn:Hsync; [|done].
  split_and!; [done|done|]. intros Hkeep.
  apply andb_true_iff in Hsync as [Hclean%negb_true_iff Hsel%bool_decide_eq_true].
  destruct (Hkeep delta eq_refl) as [Hdirty|Hne]; [congruence|done].
Qed.

Lemma Page_events_spare_the_editor_witness :
  Page.draftTitle
    (Page.handleRealtimeEvent
       (Updated {| delta_id := 1; delta_title := Some "theirs"; delta_body := None;
                   delta_updatedAtUnixMs := 3; delta_version := 3 |})
       {| Page.data :=
            Some [{| id := 1; title := "t"; body := "b"; createdAtUnixMs := 1;
                     updatedAtUnixMs := 1; version := 1 |}];
          Page.selectedNoteId := Some 1;
          Page.draftTitle := "mine";
          Page.draftBody := "b" |})
  = "mine".
Proof.
  refine (proj1 (proj2 (proj2 (Page_events_spare_the_editor
    (Updated {| delta_id := 1; delta_title := Some "theirs"; delta_body := None;
                delta_updatedAtUnixMs := 3; delta_version := 3 |})
    {| Page.data :=
         Some [{| id := 1; title := "t"; body := "b"; createdAtUnixMs := 1;
                  updatedAtUnixMs := 1; version := 1 |}];
       Page.selectedNoteId := Some 1;
       Page.draftTitle := "mine";
       Page.draftBody := "b" |})) _)).
  intros delta _. left. reflexivity.
Defined.

(** X13: on the query-backed page a delta for the selected note reaches
    a clean editor: when the collection has distinct ids, the draft has
    no unsaved changes and the selected note is the one the delta is
    about, the handler leaves the merged note selected and its title and
    body in the draft, so the editor is clean again. *)
Theorem Page_delta_syncs_clean_editor delta page existing :
  NoDup (id <$> Page.notes page) →
  Page.hasUnsavedChanges page = false →
  Page.selectedNoteId page = Some (delta_id delta) →
  findNote (Page.notes page) (delta_id delta) = Some existing →
  Page.selectedNote (Page.handleRealtimeEvent (Updated delta) page)
  = Some (mergeDelta existing delta) ∧
  Page.draftTitle (Page.handleRealtimeEvent (Updated delta) page)
  = default (title existing) (delta_title delta) ∧
  Page.draftBody (Page.handleRealtimeEvent (Updated delta) page)
  = default (body existing) (delta_body delta) ∧
  Page.hasUnsavedChanges (Page.handleRealtimeEvent (Updated delta) page) = false.
Proof. apply Page_synced. Qed.

Lemma Page_delta_syncs_clean_editor_witness :
  Page.draftTitle
    (Page.handleRealtimeEvent
       (Updated {| delta_id := 1; delta_title := Some "theirs"; delta_body := None;
                   delta_updatedAtUnixMs := 3; delta_version := 3 |})
       {| Page.data :=
            Some [{| id := 1; title := "t"; body := "b"; createdAtUnixMs := 1;
                     updatedAtUnixMs := 1; version := 1 |}];
          Page.selectedNoteId := Some 1;
          Page.draftTitle := "t";
          Page.draftBody := "b" |})
  = "theirs".
Proof.
  refine (proj1 (proj2 (Page_delta_syncs_clean_editor
    {| delta_id := 1; delta_title := Some "theirs"; delta_body := None;
       delta_updatedAtUnixMs := 3; delta_version := 3 |}
    {| Page.data :=
         Some [{| id := 1; title := "t"; body := "b"; createdAtUnixMs := 1;
                  updatedAtUnixMs := 1; version := 1 |}];
       Page.selectedNoteId := Some 1;
       Page.draftTitle := "t";
       Page.draftBody := "b" |}
    {| id := 1; title := "t"; body := "b"; createdAtUnixMs := 1;
       updatedAtUnixMs := 1; version := 1 |} _ _ _ _))).
  - apply NoDup_singleton.
  - reflexivity.
  - reflexivity.
  - reflexivity.
Defined.

(** X14: on the query-backed page events never make a clean editor look
    edited: when the collection has distinct ids and the draft has no
    unsaved changes, it has none after the handler has run, whatever the
    event, except a Created event that carries the id of the selected
    note. *)
Theorem Page_clean_editor_stays_clean event page :
  NoDup (id <$> Page.notes page) →
  Page.hasUnsavedChanges page = false →
  (∀ note, event = Created note → Page.selectedNoteId page ≠ Some (id note)) →
  Page.hasUnsavedChanges (Page.handleRealtimeEvent event page) = false.
Proof.
  intros Hnd Hclean Hcreated.
  destruct event as [note|delta|noteId|]; [| | |by destruct page].
  - specialize (Hcreated note eq_refl).
    rewrite Page_clean in Hclean |- *.
    intros selected Hsel. apply Hclean. revert Hsel.
    unfold Page.selectedNote, Page.notes. simpl.
    destruct (Page.selectedNoteId page) as [k|]; [|done].
    rewrite findNote_upsertNote_ne; [done|done|congruence].
  - destruct (decide (Page.selectedNoteId page = Some (delta_id delta))) as [Hsel|Hsel].
    + destruct (findNote (Page.notes page) (delta_id delta)) as [existing|] eqn:Hfind.
      * by eapply Page_synced.
      * apply Page_clean. intros selected.
        unfold Page.handleRealtimeEvent, Page.selectedNote, Page.notes.
        rewrite Hclean, bool_decide_eq_true_2 by done. simpl. rewrite Hsel.
        fold (Page.notes page). rewrite applyDelta_unfold, Hfind.
        by rewrite Hfind.
    + rewrite Page_clean in Hclean |- *.
      unfold Page.handleRealtimeEvent.
      rewrite bool_decide_eq_false_2, andb_false_r by done. simpl.
      intros selected Hnow. apply Hclean. revert Hnow.
      unfold Page.selectedNote, Page.notes. simpl.
      destruct (Page.selectedNoteId page) as [k|]; [|done].
      rewrite findNote_applyDelta_ne; [done|done|congruence].
  - rewrite Page_clean in Hclean |- *.
    intros selected Hnow. simpl in Hnow |- *. revert Hnow.
    unfold Page.selectedNote, Page.notes. simpl.
    destruct (Page.selectedNoteId page) as [k|] eqn:Hsel; [|done].
    destruct (decide (k = noteId)) as [->|Hne].
    + by rewrite findNote_removeNote.
    + rewrite findNote_removeNote_ne by done. intros Hnow. apply Hclean.
      unfold Page.selectedNote, Page.notes. by rewrite Hsel.
Qed.

Lemma Page_clean_editor_stays_clean_witness :
  Page.hasUnsavedChanges
    (Page.handleRealtimeEvent (Deleted 1)
       {| Page.data :=
            Some [{| id := 1; title := "t"; body := "b"; createdAtUnixMs := 1;
                     updatedAtUnixMs := 1; version := 1 |}];
          Page.selectedNoteId := Some 1;
          Page.draftTitle := "t";
          Page.draftBody := "b" |})
  = false.
Proof.
  refine (Page_clean_editor_stays_clean (Deleted 1)
    {| Page.data :=
         Some [{| id := 1; title := "t"; body := "b"; createdAtUnixMs := 1;
                  updatedAtUnixMs := 1; version := 1 |}];
       Page.selectedNoteId := Some 1;
       Page.draftTitle := "t";
       Page.draftBody := "b" |} _ _ _).
  - apply NoDup_singleton.
  - reflexivity.
  - intros note [=].
Defined.

(** X15: the selection effect settles in one run and respects a live
    selection: it never changes the collection; after it has run, a note
    is selected exactly when the collection has one, and no unsaved
    changes are shown for a selection it made; running it again changes
    nothing; and when the selected note is still in the collection it
    changes nothing at all, so the draft survives. When the selection
    has gone it selects the first note of the list. *)
Theorem Page_selectionEffect_settles page :
  Page.data (Page.selectionEffect page) = Page.data page ∧
  (Page.selectedNote (Page.selectionEffect page) = None
     ↔ Page.notes page = []) ∧
  (Page.notes page = [] → Page.selectedNoteId (Page.selectionEffect page) = None) ∧
  Page.selectionEffect (Page.selectionEffect page) = Page.selectionEffect page ∧
  (is_Some (Page.selectedNote page) → Page.selectionEffect page = page) ∧
  (∀ first, head (Page.notes page) = Some first →
     Page.selectedNote page = None →
     Page.selectedNote (Page.selectionEffect page) = Some first ∧
     Page.hasUnsavedChanges (Page.selectionEffect page) = false).
Proof.
  assert (∀ first rest, Page.notes page = first :: rest →
    Page.selectedNote (Page.selectNote (Some (id first)) page) = Some first) as Hfirst.
  { intros first rest Hnotes. unfold Page.selectedNote, Page.selectNote. simpl.
    change (findNote (Page.notes page) (id first) = Some first).
    apply findNote_head. by rewrite Hnotes. }
  assert (is_Some (Page.selectedNote page) → Page.selectionEffect page = page) as Hlive.
  { unfold Page.selectionEffect, Page.selectedNote.
    destruct (Page.selectedNoteId page) as [k|]; [|by intros [? ?]].
    intros Hsome. pose proof Hsome as Hex%Page_selectionStillExists.
    destruct (Page.notes page) as [|first rest] eqn:Hnotes; [by destruct Hsome|].
    by rewrite Hex. }
  assert (∀ first rest, Page.notes page = first :: rest →
    Page.selectedNote page = None →
    Page.selectionEffect page = Page.selectNote (Some (id first)) page) as Hgone.
  { intros first rest Hnotes. unfold Page.selectionEffect, Page.selectedNote.
    rewrite Hnotes. destruct (Page.selectedNoteId page) as [k|]; [|done].
    rewrite <- Hnotes. intros Hnone.
    destruct (existsb _ _) eqn:Hex; [|done].
    apply Page_selectionStillExists in Hex as [x Hx]. congruence. }
  assert (Page.data (Page.selectionEffect page) = Page.data page) as Hdata.
  { unfold Page.selectionEffect.
    destruct (Page.notes page), (Page.selectedNoteId page); try done.
    by destruct (existsb _ _). }
  assert (Page.notes page = [] →
    Page.selectedNoteId (Page.selectionEffect page) = None) as Hempty.
  { unfold Page.selectionEffect. intros ->. by destruct (Page.selectedNoteId page) eqn:Hid. }
  assert (Page.notes page ≠ [] → is_Some (Page.selectedNote (Page.selectionEffect page)))
    as Hsel.
  { intros Hne. destruct (Page.selectedNote page) as [selected|] eqn:Hs.
    - rewrite Hlive by (by eexists). rewrite Hs. by eexists.
    - destruct (Page.notes page) as [|first rest] eqn:Hnotes; [done|].
      rewrite (Hgone first rest) by done. rewrite (Hfirst first rest) by done.
      by eexists. }
  split_and!; try done.
  - split.
    + intros Hnone. destruct (Page.notes page) as [|first rest] eqn:Hnotes; [done|].
      destruct Hsel as [x Hx]; [done|]. congruence.
    + intros Hnil. unfold Page.selectedNote. by rewrite Hempty.
  - destruct (Page.notes page) as [|first rest] eqn:Hnotes.
    + unfold Page.selectionEffect at 1. unfold Page.notes in *.
      rewrite Hdata, Hnotes. by rewrite Hempty by done.
    + unfold Page.selectionEffect at 1. unfold Page.notes in *.
      rewrite Hdata, Hnotes.
      destruct Hsel as [x Hx]; [done|].
      unfold Page.selectedNote, Page.notes in Hx. rewrite Hdata in Hx.
      destruct (Page.selectedNoteId (Page.selectionEffect page)) as [k|]; [|done].
      rewrite <- Hnotes.
      by rewrite (proj2 (Page_selectionStillExists _ _) (mk_is_Some _ _ Hx)).
  - intros first Hhead Hnone.
    destruct (Page.notes page) as [|first' rest] eqn:Hnotes; [done|].
    injection Hhead as ->.
    rewrite (Hgone first rest) by done. rewrite (Hfirst first rest) by done.
    split; [done|]. apply Page_clean. rewrite (Hfirst first rest) by done.
    intros note [= <-]. unfold Page.selectNote. simpl.
    by rewrite (findNote_head (Page.notes page) first) by (by rewrite Hnotes).
Qed.

Lemma Page_selectionEffect_settles_witness :
  Page.selectionEffect
    {| Page.data :=
         Some [{| id := 1; title := "t"; body := "b"; createdAtUnixMs := 1;
                  updatedAtUnixMs := 1; version := 1 |}];
       Page.selectedNoteId := Some 1;
       Page.draftTitle := "mine";
       Page.draftBody := "b" |}
  = {| Page.data :=
         Some [{| id := 1; title := "t"; body := "b"; createdAtUnixMs := 1;
                  updatedAtUnixMs := 1; version := 1 |}];
       Page.selectedNoteId := Some 1;
       Page.draftTitle := "mine";
       Page.draftBody := "b" |}.
Proof.
  refine (proj1 (proj2 (proj2 (proj2 (proj2 (Page_selectionEffect_settles _))))) _).
  eexists. reflexivity.
Defined.

End PageProperties.

(** ** Properties of the base URL helpers *)

Section UrlProperties.
Import Cache.

Lemma stripTrailingSlashes_split s :
  ∃ n, s = stripTrailingSlashes s ++ replicate n "/"%char.
Proof.
  induction s as [|c rest [n IH]]; [by exists 0%nat|]. simpl.
  destruct (stripTrailingSlashes rest) as [|x kept] eqn:Hrest.
  - unfold isSlash. case_bool_decide as Hc.
    + exists (S n). simpl in *. by rewrite Hc, <- IH.
    + exists n. simpl in *. by rewrite <- IH.
  - exists n. simpl in *. by rewrite <- IH.
Qed.

Lemma stripTrailingSlashes_last s :
  last (stripTrailingSlashes s) ≠ Some "/"%char.
Proof.
  induction s as [|c rest IH]; [done|]. simpl.
  destruct (stripTrailingSlashes rest) as [|x kept] eqn:Hrest.
  - unfold isSlash. case_bool_decide as Hc; [done|]. simpl. congruence.
  - exact IH.
Qed.

Lemma stripTrailingSlashes_slashes n :
  stripTrailingSlashes (replicate n "/"%char) = [].
Proof. induction n as [|n IH]; [done|]. simpl. by rewrite IH. Qed.

Lemma stripTrailingSlashes_app s n :
  stripTrailingSlashes (s ++ replicate n "/"%char) = stripTrailingSlashes s.
Proof.
  induction s as [|c rest IH]; simpl.
  - apply stripTrailingSlashes_slashes.
  - by rewrite IH.
Qed.

Lemma normalizedBaseUrl_last baseUrl :
  last (normalizedBaseUrl baseUrl) ≠ Some "/"%char.
Proof. destruct baseUrl; [apply stripTrailingSlashes_last|done]. Qed.

(** X16: the base URL is normalised by cutting off the slashes it ends
    with, and nothing else: the given URL is the normalised one followed
    by slashes only, the normalised one does not end with a slash, and
    normalising it again changes nothing. Base URLs that differ only in
    the number of slashes at the end are normalised to the same string,
    so they share the query key and give the same request URLs. *)
Theorem normalizedBaseUrl_cuts_trailing_slashes s n path :
  (∃ m, s = normalizedBaseUrl (Some s) ++ replicate m "/"%char) ∧
  last (normalizedBaseUrl (Some s)) ≠ Some "/"%char ∧
  normalizedBaseUrl (Some (normalizedBaseUrl (Some s))) = normalizedBaseUrl (Some s) ∧
  normalizedBaseUrl (Some (s ++ replicate n "/"%char)) = normalizedBaseUrl (Some s) ∧
  buildUrl (Some (s ++ replicate n "/"%char)) path = buildUrl (Some s) path.
Proof.
  unfold buildUrl. simpl. split_and!.
  - apply stripTrailingSlashes_split.
  - apply stripTrailingSlashes_last.
  - destruct (stripTrailingSlashes_split s) as [m Hm].
    rewrite Hm at 2. by rewrite stripTrailingSlashes_app.
  - apply stripTrailingSlashes_app.
  - by rewrite stripTrailingSlashes_app.
Qed.

(** X17: the base the websocket URL is resolved against ends with
    exactly one slash: on a normalised base URL the check for a slash at
    the end never succeeds, and one slash is added. *)
Theorem ensureTrailingSlash_of_normalized baseUrl :
  ensureTrailingSlash (normalizedBaseUrl baseUrl)
  = normalizedBaseUrl baseUrl ++ ["/"%char] ∧
  last (ensureTrailingSlash (normalizedBaseUrl baseUrl)) = Some "/"%char ∧
  last (normalizedBaseUrl baseUrl) ≠ Some "/"%char.
Proof.
  pose proof (normalizedBaseUrl_last baseUrl) as Hlast.
  assert (ensureTrailingSlash (normalizedBaseUrl baseUrl)
          = normalizedBaseUrl baseUrl ++ ["/"%char]) as ->.
  { unfold ensureTrailingSlash.
    destruct (last (normalizedBaseUrl baseUrl)) as [c|]; [|done].
    unfold isSlash. case_bool_decide; [congruence|done]. }
  split_and!; [done| |done]. apply last_snoc.
Qed.

End UrlProperties.

(** ** Properties of the wire codec *)

Section CodecBasics.
Import Codec.

(** *** Bytes *)

Lemma byte_to_Z_range b : 0 ≤ byte_to_Z b < 256.
Proof.
  unfold byte_to_Z. pose proof (Byte.to_N_bounded b). lia.
Qed.

Lemma byte_of_to_Z b : byte_of_Z (byte_to_Z b) = b.
Proof.
  unfold byte_of_Z, byte_to_Z. pose proof (Byte.to_N_bounded b).
  rewrite Z.mod_small by lia. rewrite N2Z.id, Byte.of_to_N. reflexivity.
Qed.

Lemma byte_to_of_Z z : 0 ≤ z < 256 → byte_to_Z (byte_of_Z z) = z.
Proof.
  intros Hz. unfold byte_of_Z, byte_to_Z. rewrite Z.mod_small by lia.
  destruct (Byte.of_N (Z.to_N z)) as [b|] eqn:Hb.
  - simpl. apply Byte.to_of_N in Hb. lia.
  - apply Byte.of_N_None_iff in Hb. lia.
Qed.

(** *** Bit lemmas for the 7-bit groups *)

Lemma land_127_range v : 0 ≤ Z.land v 127 < 128.
Proof.
  change 127 with (Z.ones 7). rewrite Z.land_ones by lia.
  apply Z.mod_pos_bound. lia.
Qed.

Lemma small_no_continuation v : 0 ≤ v < 128 → Z.land v 128 = 0.
Proof.
  intros Hv. apply Z.bits_inj'. intros n Hn. rewrite Z.land_spec, Z.bits_0.
  change 128 with (2 ^ 7). destruct (decide (n = 7)) as [->|].
  - rewrite (Z.bits_above_log2 v 7); [done|lia|].
    destruct (decide (v = 0)) as [->|]; [simpl; lia|].
    assert (Z.log2 v < 7); [|lia]. apply Z.log2_lt_pow2; lia.
  - rewrite Z.pow2_bits_false by lia. apply andb_false_r.
Qed.

Lemma group_byte_range v : 128 ≤ Z.lor (Z.land v 127) 128 < 256.
Proof.
  pose proof (land_127_range v) as Hr.
  pose proof (small_no_continuation _ Hr) as Hz.
  rewrite <- Z.lxor_lor, <- Z.add_nocarry_lxor by done. lia.
Qed.

Lemma group_byte_continues v : Z.land (Z.lor (Z.land v 127) 128) 128 ≠ 0.
Proof.
  intros H. apply (f_equal (λ x, Z.testbit x 7)) in H.
  rewrite Z.land_spec, Z.lor_spec in H. simpl in H.
  by rewrite orb_true_r in H.
Qed.

Lemma group_byte_low v : Z.land (Z.lor (Z.land v 127) 128) 127 = Z.land v 127.
Proof.
  apply Z.bits_inj'. intros n Hn.
  rewrite !Z.land_spec, Z.lor_spec, Z.land_spec.
  change 127 with (Z.ones 7). change 128 with (2 ^ 7).
  destruct (decide (n < 7)).
  - rewrite Z.ones_spec_low, (Z.pow2_bits_false 7 n) by lia.
    by rewrite andb_true_r, orb_false_r.
  - rewrite Z.ones_spec_high by lia. by rewrite !andb_false_r.
Qed.

Lemma small_low v : 0 ≤ v < 128 → Z.land v 127 = v.
Proof.
  intros Hv. change 127 with (Z.ones 7). rewrite Z.land_ones by lia.
  apply Z.mod_small. lia.
Qed.

Lemma split_group v shift :
  0 ≤ shift →
  Z.lor (Z.shiftl (Z.land v 127) shift) (Z.shiftl (Z.shiftr v 7) (shift + 7))
  = Z.shiftl v shift.
Proof.
  intros Hs. apply Z.bits_inj'. intros n Hn.
  rewrite Z.lor_spec, !Z.shiftl_spec by lia.
  change 127 with (Z.ones 7).
  destruct (decide (n - shift < 0)).
  - by rewrite !(Z.testbit_neg_r _ (n - shift)), Z.testbit_neg_r by lia.
  - destruct (decide (n - shift < 7)).
    + rewrite (Z.testbit_neg_r _ (n - (shift + 7))) by lia.
      rewrite Z.land_spec, Z.ones_spec_low by lia.
      by rewrite andb_true_r, orb_false_r.
    + rewrite Z.land_spec, Z.ones_spec_high by lia.
      rewrite Z.shiftr_spec by lia. rewrite andb_false_r. simpl.
      f_equal. lia.
Qed.

(** *** The writer *)

Lemma writeVarint_loop_eq current w :
  writeVarint_loop current w =
    if decide (128 ≤ current) then
      writeVarint_loop (Z.shiftr current 7)
        {| bytes := bytes w ++ [Z.lor (Z.land current 127) 128] |}
    else {| bytes := bytes w ++ [current] |}.
Proof.
  unfold writeVarint_loop at 1. Subterm.unfold_FixWf.
  - destruct (decide _); simpl; [apply H0|reflexivity].
  - by destruct (decide _).
Qed.

Lemma shiftr7_lt v : 128 ≤ v → 0 ≤ Z.shiftr v 7 < v.
Proof.
  intros Hv. rewrite Z.shiftr_div_pow2 by lia. split.
  - apply Z.div_pos; lia.
  - apply Z.div_lt; lia.
Qed.

Lemma writeVarint_loop_app current w :
  writeVarint_loop current w = {| bytes := bytes w ++ varintBytes current |}.
Proof.
  revert w. induction current as [v IH] using (well_founded_induction (Z.lt_wf 0)).
  intros w. unfold varintBytes.
  rewrite (writeVarint_loop_eq v w), (writeVarint_loop_eq v newWriter).
  destruct (decide (128 ≤ v)) as [Hge|Hlt]; [|done].
  rewrite !(IH (Z.shiftr v 7)) by (by apply shiftr7_lt). simpl.
  by rewrite <- app_assoc.
Qed.

Lemma varintBytes_eq v :
  varintBytes v =
    if decide (128 ≤ v) then Z.lor (Z.land v 127) 128 :: varintBytes (Z.shiftr v 7)
    else [v].
Proof.
  unfold varintBytes at 1. rewrite writeVarint_loop_eq.
  destruct (decide _); [|done]. by rewrite writeVarint_loop_app.
Qed.

Lemma varintBytes_length v : (1 ≤ length (varintBytes v))%nat.
Proof. rewrite varintBytes_eq. destruct (decide _); simpl; lia. Qed.

Lemma parseVarint_varintBytes v k acc tail :
  0 ≤ v < 2 ^ (7 * (10 - k)) → 0 ≤ k →
  parseVarint ((byte_of_Z <$> varintBytes v) ++ tail) (7 * k) acc
  = Ok (Z.lor acc (Z.shiftl v (7 * k)), length (varintBytes v)).
Proof.
  revert k acc. induction v as [v IH] using (well_founded_induction (Z.lt_wf 0)).
  intros k acc [Hv0 Hv] Hk. rewrite varintBytes_eq.
  destruct (decide (128 ≤ v)) as [Hge|Hlt]; simpl.
  - pose proof (group_byte_range v) as Hr.
    rewrite byte_to_of_Z by lia.
    rewrite decide_False by apply group_byte_continues.
    assert (k < 9) as Hk9.
    { destruct (decide (k < 9)); [done|].
      assert (2 ^ (7 * (10 - k)) ≤ 2 ^ 7) by (apply Z.pow_le_mono_r; lia).
      change (2 ^ 7) with 128 in *. lia. }
    rewrite decide_False by lia.
    replace (7 * k + 7) with (7 * (k + 1)) by lia.
    rewrite IH; [| by apply shiftr7_lt | | lia].
    + rewrite group_byte_low, <- Z.lor_assoc.
      replace (7 * (k + 1)) with (7 * k + 7) by lia.
      by rewrite split_group by lia.
    + split; [by apply shiftr7_lt|].
      rewrite Z.shiftr_div_pow2 by lia. apply Z.div_lt_upper_bound; [lia|].
      rewrite <- Z.pow_add_r by lia.
      replace (7 + 7 * (10 - (k + 1))) with (7 * (10 - k)) by lia. done.
  - rewrite byte_to_of_Z by lia.
    rewrite decide_True by (apply small_no_continuation; lia).
    by rewrite small_low by lia.
Qed.

(** *** The reader *)

Lemma readVarint_loop_eq p o shift value :
  readVarint_loop p o shift value =
    match p !! o with
    | None => Throw UnexpectedEnd
    | Some byte =>
        let value' := Z.lor value (Z.shiftl (Z.land (byte_to_Z byte) 127) shift) in
        if decide (Z.land (byte_to_Z byte) 128 = 0) then Ok (value', S o)
        else if decide (63 < shift + 7) then Throw VarintTooLarge
        else readVarint_loop p (S o) (shift + 7) value'
    end.
Proof.
  unfold readVarint_loop at 1. Subterm.unfold_FixWf.
  - destruct (_ !! _) as [b|]; simpl; [|reflexivity].
    destruct (decide (Z.land _ 128 = 0)); simpl; [reflexivity|].
    destruct (decide (63 < _)); simpl; [reflexivity|]. apply H0.
  - simpl. destruct (p !! o) as [b|]; simpl; [|reflexivity].
    destruct (decide (Z.land _ 128 = 0)); simpl; [reflexivity|].
    by destruct (decide (63 < _)).
Qed.

Lemma readVarint_loop_parse p o shift value :
  readVarint_loop p o shift value =
    match parseVarint (drop o p) shift value with
    | Ok (v, n) => Ok (v, (o + n)%nat)
    | Throw e => Throw e
    | OutOfFuel => OutOfFuel
    end.
Proof.
  remember (drop o p) as bs eqn:Hbs.
  revert o shift value Hbs. induction bs as [|b bs IH]; intros o shift value Hbs.
  - rewrite readVarint_loop_eq.
    assert (p !! o = None) as ->; [|done].
    apply lookup_ge_None. apply (f_equal length) in Hbs.
    rewrite length_drop in Hbs. simpl in Hbs. lia.
  - rewrite readVarint_loop_eq.
    assert (p !! o = Some b) as Hb.
    { rewrite <- (Nat.add_0_r o), <- lookup_drop, <- Hbs. done. }
    rewrite Hb. simpl.
    destruct (decide (Z.land _ 128 = 0)) as [Hz|Hz]; [by rewrite Nat.add_1_r|].
    destruct (decide (63 < _)) as [Hs|Hs]; [done|].
    rewrite (IH (S o)).
    + destruct (parseVarint bs _ _) as [[v n]| |]; [|done..].
      f_equal. f_equal. lia.
    + rewrite (drop_S _ _ _ Hb) in Hbs. by injection Hbs.
Qed.

Lemma view_readVarint bs : view readVarint bs = parseVarint bs 0 0.
Proof.
  unfold view, readVarint, newReader. cbn [payload offset].
  rewrite readVarint_loop_parse, drop_0.
  by destruct (parseVarint bs 0 0) as [[v n]| |].
Qed.

Lemma parseVarint_bound bs shift value v n :
  parseVarint bs shift value = Ok (v, n) → (1 ≤ n ≤ length bs)%nat.
Proof.
  revert shift value v n. induction bs as [|b bs IH]; intros shift value v n; simpl; [done|].
  destruct (decide (Z.land _ 128 = 0)) as [Hz|Hz]; [intros [= <- <-]; lia|].
  destruct (decide (63 < _)) as [Hs|Hs]; [done|].
  destruct (parseVarint bs _ _) as [[v' n']| |] eqn:Hp; [|done..].
  intros [= <- <-]. apply IH in Hp. lia.
Qed.

Lemma parseVarint_prefix bs shift value v n tail :
  parseVarint bs shift value = Ok (v, n) →
  parseVarint (take n bs ++ tail) shift value = Ok (v, n).
Proof.
  revert shift value v n. induction bs as [|b bs IH]; intros shift value v n; simpl; [done|].
  destruct (decide (Z.land _ 128 = 0)) as [Hz|Hz].
  { intros [= <- <-]. simpl. by rewrite decide_True. }
  destruct (decide (63 < _)) as [Hs|Hs]; [done|].
  destruct (parseVarint bs _ _) as [[v' n']| |] eqn:Hp; [|done..].
  intros [= <- <-]. simpl. rewrite decide_False, decide_False by done.
  by rewrite (IH _ _ _ _ Hp).
Qed.

Lemma parseVarint_nonneg bs shift value v n :
  0 ≤ shift → 0 ≤ value →
  parseVarint bs shift value = Ok (v, n) → 0 ≤ v.
Proof.
  revert shift value v n. induction bs as [|b bs IH]; intros shift value v n Hs0 Hv; simpl; [done|].
  assert (0 ≤ Z.lor value (Z.shiftl (Z.land (byte_to_Z b) 127) shift)).
  { apply Z.lor_nonneg. split; [done|]. apply Z.shiftl_nonneg.
    pose proof (land_127_range (byte_to_Z b)). lia. }
  destruct (decide (Z.land _ 128 = 0)) as [Hz|Hz]; [intros [= <- <-]; done|].
  destruct (decide (63 < _)) as [Hs|Hs]; [done|].
  destruct (parseVarint bs _ _) as [[v' n']| |] eqn:Hp; [|done..].
  intros [= <- <-]. eapply IH; [| |exact Hp]; lia.
Qed.

Lemma parseVarint_returns_or_throws bs shift value :
  parseVarint bs shift value ≠ OutOfFuel.
Proof.
  revert shift value. induction bs as [|b bs IH]; intros shift value; simpl; [done|].
  repeat case_decide; try done.
  destruct (parseVarint bs _ _) as [[??]| |] eqn:Hp; try done.
  by apply IH in Hp.
Qed.

Lemma remaining_newReader bs : remaining (newReader bs) = bs.
Proof. done. Qed.

Lemma remaining_seek r n :
  remaining (seek r (offset r + n)) = drop n (remaining r).
Proof. unfold remaining, seek. simpl. by rewrite drop_drop. Qed.

Lemma remaining_length r : length (remaining r) = (length (payload r) - offset r)%nat.
Proof. unfold remaining. by rewrite length_drop. Qed.

Lemma view_local {A} (m : Eff Reader A) `{!Streaming m} bs :
  m (newReader bs) = resume (newReader bs) (view m bs).
Proof.
  rewrite (streaming_local (newReader bs)) by (simpl; lia).
  by rewrite remaining_newReader.
Qed.

Lemma view_bind {A B} (m : Eff Reader A) (k : A → Eff Reader B) bs :
  Streaming m → (∀ bs a n, view m bs = Ok (a, n) → Streaming (k a)) →
  view (bind m k) bs =
    match view m bs with
    | Ok (a, n) =>
        match view (k a) (drop n bs) with
        | Ok (b, n2) => Ok (b, (n + n2)%nat)
        | Throw e => Throw e
        | OutOfFuel => OutOfFuel
        end
    | Throw e => Throw e
    | OutOfFuel => OutOfFuel
    end.
Proof.
  intros Hm Hk. unfold view at 1, bind. rewrite (view_local m).
  destruct (view m bs) as [[a n]| |] eqn:Hv; simpl; [|done..].
  pose proof (streaming_bound _ _ _ Hv) as Hn.
  pose proof (Hk _ _ _ Hv) as Hka.
  rewrite (streaming_local (seek (newReader bs) n)) by (simpl; lia).
  change (seek (newReader bs) n) with (seek (newReader bs) (offset (newReader bs) + n)).
  rewrite remaining_seek, remaining_newReader.
  by destruct (view (k a) (drop n bs)) as [[b n2]| |].
Qed.

Lemma Streaming_bind {A B} (m : Eff Reader A) (k : A → Eff Reader B) :
  Streaming m → (∀ bs a n, view m bs = Ok (a, n) → Streaming (k a)) →
  Streaming (bind m k).
Proof.
  intros Hm Hk. split.
  - intros r Hr. rewrite view_bind by done. unfold bind.
    rewrite (streaming_local r) by done.
    destruct (view m (remaining r)) as [[a n]| |] eqn:Hv; simpl; [|done..].
    pose proof (streaming_bound _ _ _ Hv) as Hn. rewrite remaining_length in Hn.
    pose proof (Hk _ _ _ Hv) as Hka.
    rewrite (streaming_local (seek r (offset r + n))) by (simpl; lia).
    rewrite remaining_seek.
    destruct (view (k a) (drop n (remaining r))) as [[b n2]| |]; simpl; [|done..].
    unfold seek. simpl. by rewrite Nat.add_assoc.
  - intros bs b n. rewrite view_bind by done.
    destruct (view m bs) as [[a n1]| |] eqn:Hv; [|done..].
    pose proof (streaming_bound _ _ _ Hv) as Hn. pose proof (Hk _ _ _ Hv) as Hka.
    destruct (view (k a) (drop n1 bs)) as [[b' n2]| |] eqn:Hv2; [|done..].
    intros [= <- <-]. apply streaming_bound in Hv2. rewrite length_drop in Hv2. lia.
  - intros bs b n tail. rewrite !view_bind by done.
    destruct (view m bs) as [[a n1]| |] eqn:Hv; [|done..].
    pose proof (streaming_bound _ _ _ Hv) as Hn. pose proof (Hk _ _ _ Hv) as Hka.
    destruct (view (k a) (drop n1 bs)) as [[b' n2]| |] eqn:Hv2; [|done..].
    intros [= <- <-].
    rewrite <- take_take_drop, <- app_assoc.
    rewrite (streaming_prefix _ _ _ _ Hv).
    rewrite drop_app_length' by (rewrite length_take; lia).
    by rewrite (streaming_prefix _ _ _ _ Hv2).
Qed.

#[local] Instance Streaming_ret {A} (a : A) : Streaming (ret a).
Proof.
  split.
  - intros r _. unfold ret, view, resume, seek. simpl.
    rewrite Nat.add_0_r. by destruct r.
  - intros bs a' n [= <- <-]. lia.
  - by intros bs a' n tail [= <- <-].
Qed.

#[local] Instance Streaming_throw {A} e : Streaming (throw (A := A) e).
Proof. split; done. Qed.

#[local] Instance Streaming_lift {A} (x : Result A) : Streaming (lift x).
Proof.
  split.
  - intros r _. unfold lift, view, resume, seek. destruct x; simpl; [|done..].
    rewrite Nat.add_0_r. by destruct r.
  - intros bs a n. unfold view, lift. destruct x; [|done..]. intros [= <- <-]. simpl. lia.
  - intros bs a n tail. unfold view, lift. by destruct x.
Qed.

#[local] Instance Streaming_readVarint : Streaming readVarint.
Proof.
  split.
  - intros r _. rewrite view_readVarint. unfold readVarint.
    rewrite readVarint_loop_parse. fold (remaining r).
    by destruct (parseVarint _ 0 0) as [[v n]| |].
  - intros bs v n. rewrite view_readVarint. intros H%parseVarint_bound. lia.
  - intros bs v n tail. rewrite !view_readVarint. apply parseVarint_prefix.
Qed.

Lemma view_readVarint_nonneg bs v n : view readVarint bs = Ok (v, n) → 0 ≤ v.
Proof. rewrite view_readVarint. by apply parseVarint_nonneg. Qed.

(** *** [Number(bigint)] *)

Lemma bigintToNumber_small v : Z.abs v < 2 ^ 53 → bigintToNumber v = v.
Proof. intros Hv. unfold bigintToNumber. by rewrite bool_decide_eq_true_2. Qed.

Lemma bigintToNumber_large v : 2 ^ 53 ≤ v → 2 ^ 53 ≤ bigintToNumber v.
Proof.
  intros Hv. unfold bigintToNumber.
  rewrite bool_decide_eq_false_2 by lia.
  rewrite Z.abs_eq, Z.sgn_pos, Z.mul_1_l by lia.
  assert (53 ≤ Z.log2 v) as Hlog by (apply Z.log2_le_pow2; lia).
  set (k := Z.log2 v - 52).
  assert (2 ^ 52 ≤ Z.shiftr v k) as Hq.
  { rewrite Z.shiftr_div_pow2 by lia. apply Z.div_le_lower_bound; [lia|].
    rewrite <- Z.pow_add_r by lia. replace (k + 52) with (Z.log2 v) by lia.
    apply Z.log2_spec. lia. }
  rewrite Z.shiftl_mul_pow2 by lia.
  assert (2 ^ 1 ≤ 2 ^ k) by (apply Z.pow_le_mono_r; lia).
  change (2 ^ 53) with (2 ^ 52 * 2 ^ 1).
  apply Z.mul_le_mono_nonneg; try lia.
  case_bool_decide; lia.
Qed.

Lemma bigintToNumber_nonneg v : 0 ≤ v → 0 ≤ bigintToNumber v.
Proof.
  intros Hv. destruct (decide (v < 2 ^ 53)).
  - rewrite bigintToNumber_small; lia.
  - pose proof (bigintToNumber_large v). lia.
Qed.

(** *** The methods of the reader are streaming *)

#[local] Instance Streaming_bind_uniform {A B} (m : Eff Reader A) (k : A → Eff Reader B) :
  Streaming m → (∀ a, Streaming (k a)) → Streaming (bind m k).
Proof. intros Hm Hk. apply Streaming_bind; auto. Qed.

#[local] Instance Streaming_if {A} (b : bool) (m1 m2 : Eff Reader A) :
  Streaming m1 → Streaming m2 → Streaming (if b then m1 else m2).
Proof. by destruct b. Qed.

(** The second half of [readBytes] and of [skipField]: the bounds test,
    the slice and the move of the offset. *)
Lemma view_slice {A} (f : list byte → A) (len : Z) e bs :
  view (λ r : Reader,
          let length_ := len in
          let end_ := Z.of_nat (offset r) + length_ in
          if bool_decide (Z.of_nat (length (payload r)) < end_) then Throw e
          else Ok (f (subarray (payload r) (offset r) (Z.to_nat end_)),
                   seek r (Z.to_nat end_))) bs
  = if bool_decide (Z.of_nat (length bs) < len) then Throw e
    else Ok (f (take (Z.to_nat len) bs), Z.to_nat len).
Proof.
  unfold view, newReader, subarray, seek. cbn [payload offset].
  rewrite Z.add_0_l. case_bool_decide; [done|].
  by rewrite drop_0, Nat.sub_0_r.
Qed.

Lemma Streaming_slice {A} (f : list byte → A) (len : Z) e :
  0 ≤ len →
  Streaming (λ r : Reader,
          let length_ := len in
          let end_ := Z.of_nat (offset r) + length_ in
          if bool_decide (Z.of_nat (length (payload r)) < end_) then Throw e
          else Ok (f (subarray (payload r) (offset r) (Z.to_nat end_)),
                   seek r (Z.to_nat end_))).
Proof.
  intros Hlen. split.
  - intros r Hr. rewrite view_slice. rewrite remaining_length.
    cbn zeta. unfold subarray, resume, seek.
    destruct (bool_decide (Z.of_nat (length (payload r)) < _)) eqn:Hb.
    + apply bool_decide_eq_true in Hb. rewrite bool_decide_eq_true_2 by lia. done.
    + apply bool_decide_eq_false in Hb. rewrite bool_decide_eq_false_2 by lia.
      fold (remaining r).
      replace (Z.to_nat (Z.of_nat (offset r) + len) - offset r)%nat with (Z.to_nat len) by lia.
      replace (Z.to_nat (Z.of_nat (offset r) + len)) with (offset r + Z.to_nat len)%nat by lia.
      done.
  - intros bs a n. rewrite view_slice. case_bool_decide; [done|].
    intros [= <- <-]. lia.
  - intros bs a n tail. rewrite !view_slice. case_bool_decide as Hb; [done|].
    intros [= <- <-].
    rewrite bool_decide_eq_false_2.
    + by rewrite take_app_length' by (rewrite length_take; lia).
    + rewrite length_app, length_take. lia.
Qed.

#[local] Instance Streaming_readTag : Streaming readTag.
Proof. unfold readTag. apply _. Qed.

#[local] Instance Streaming_readInt64 : Streaming readInt64.
Proof. unfold readInt64. apply _. Qed.

#[local] Instance Streaming_readBytes : Streaming readBytes.
Proof.
  unfold readBytes. apply Streaming_bind; [apply _|].
  intros bs v n Hv%view_readVarint_nonneg.
  apply (Streaming_slice (λ x, x)). by apply bigintToNumber_nonneg.
Qed.

#[local] Instance Streaming_skipField wireType : Streaming (skipField wireType).
Proof.
  unfold skipField. destruct wireType as [|[[]|[]|]|]; try apply _.
  apply Streaming_bind; [apply _|].
  intros bs v n Hv%view_readVarint_nonneg.
  apply (Streaming_slice (λ _, tt)). by apply bigintToNumber_nonneg.
Qed.

Lemma view_readTag bs :
  view readTag bs =
    match parseVarint bs 0 0 with
    | Ok (v, n) =>
        Ok ({| fieldNumber := Z.shiftr (ToUint32 (bigintToNumber v)) 3;
               wireType := Z.land (ToInt32 (bigintToNumber v)) 7 |}, n)
    | Throw e => Throw e
    | OutOfFuel => OutOfFuel
    end.
Proof.
  unfold readTag. rewrite view_bind by apply _. rewrite view_readVarint.
  destruct (parseVarint bs 0 0) as [[v n]| |]; [|done..].
  unfold view, ret. simpl. by rewrite Nat.add_0_r.
Qed.

Lemma view_readInt64 bs :
  view readInt64 bs =
    match parseVarint bs 0 0 with
    | Ok (v, n) =>
        if bool_decide (MAX_SAFE_INTEGER < v) then Throw (Int64ExceedsSafe v)
        else Ok (Integer (bigintToNumber v), n)
    | Throw e => Throw e
    | OutOfFuel => OutOfFuel
    end.
Proof.
  unfold readInt64. rewrite view_bind by apply _. rewrite view_readVarint.
  destruct (parseVarint bs 0 0) as [[v n]| |]; [|done..].
  case_bool_decide; [done|]. unfold view, ret. simpl. by rewrite Nat.add_0_r.
Qed.

Lemma view_readBytes bs :
  view readBytes bs =
    match parseVarint bs 0 0 with
    | Ok (v, n) =>
        if bool_decide (Z.of_nat (length bs - n) < bigintToNumber v)
        then Throw LengthExceedsBounds
        else Ok (take (Z.to_nat (bigintToNumber v)) (drop n bs),
                 (n + Z.to_nat (bigintToNumber v))%nat)
    | Throw e => Throw e
    | OutOfFuel => OutOfFuel
    end.
Proof.
  unfold readBytes. rewrite view_bind; [|apply _|].
  - rewrite view_readVarint.
    destruct (parseVarint bs 0 0) as [[v n]| |]; [|done..].
    rewrite (view_slice (λ x, x)), length_drop. by case_bool_decide.
  - intros bs' v n Hv%view_readVarint_nonneg.
    apply (Streaming_slice (λ x, x)). by apply bigintToNumber_nonneg.
Qed.

Lemma view_skipField_varint bs :
  view (skipField 0) bs =
    match parseVarint bs 0 0 with
    | Ok (v, n) => Ok (tt, n)
    | Throw e => Throw e
    | OutOfFuel => OutOfFuel
    end.
Proof.
  unfold skipField. rewrite view_bind by apply _. rewrite view_readVarint.
  destruct (parseVarint bs 0 0) as [[v n]| |]; [|done..].
  unfold view, ret. simpl. by rewrite Nat.add_0_r.
Qed.

Lemma view_skipField_length_delimited bs :
  view (skipField 2) bs =
    match parseVarint bs 0 0 with
    | Ok (v, n) =>
        if bool_decide (Z.of_nat (length bs - n) < bigintToNumber v)
        then Throw SkipBeyondBounds
        else Ok (tt, (n + Z.to_nat (bigintToNumber v))%nat)
    | Throw e => Throw e
    | OutOfFuel => OutOfFuel
    end.
Proof.
  unfold skipField. rewrite view_bind; [|apply _|].
  - rewrite view_readVarint.
    destruct (parseVarint bs 0 0) as [[v n]| |]; [|done..].
    rewrite (view_slice (λ _, tt)), length_drop. by case_bool_decide.
  - intros bs' v n Hv%view_readVarint_nonneg.
    apply (Streaming_slice (λ _, tt)). by apply bigintToNumber_nonneg.
Qed.

Lemma view_skipField_unsupported wireType bs :
  wireType ≠ 0 → wireType ≠ 2 →
  view (skipField wireType) bs = Throw (UnsupportedWireType wireType).
Proof. intros H0 H2. by destruct wireType as [|[[]|[]|]|]. Qed.

(** *** The decoding loop *)

Section Loop.
Context {T : Type} (field : Z → Z → T → Eff Reader T).
#[local] Arguments decodeFields : simpl never.
Context (field_streaming : ∀ fn wt message, Streaming (field fn wt message)).

#[local] Instance Streaming_readField message : Streaming (readField field message).
Proof. unfold readField. apply _. Qed.

Lemma view_readField message bs :
  view (readField field message) bs =
    match view readTag bs with
    | Ok (tag, n) =>
        match view (field (fieldNumber tag) (wireType tag) message) (drop n bs) with
        | Ok (message', n2) => Ok (message', (n + n2)%nat)
        | Throw e => Throw e
        | OutOfFuel => OutOfFuel
        end
    | Throw e => Throw e
    | OutOfFuel => OutOfFuel
    end.
Proof. unfold readField. by rewrite view_bind by apply _. Qed.

Lemma readField_progress message bs message' n :
  view (readField field message) bs = Ok (message', n) → (1 ≤ n ≤ length bs)%nat.
Proof.
  intros Hv. split; [|by eapply streaming_bound].
  rewrite view_readField, view_readTag in Hv.
  destruct (parseVarint bs 0 0) as [[v n1]| |] eqn:Hp; [|done..].
  apply parseVarint_bound in Hp.
  destruct (view _ (drop n1 bs)) as [[m' n2]| |]; [|done..].
  injection Hv as <- <-. lia.
Qed.

Lemma decodeFields_unfold fuel message r :
  decodeFields field (S fuel) message r =
    if eof r then Ok message
    else match readField field message r with
         | Ok (message', r') => decodeFields field fuel message' r'
         | Throw e => Throw e
         | OutOfFuel => OutOfFuel
         end.
Proof. done. Qed.

(** The loop only looks at the bytes ahead, and spare fuel is not used. *)
Lemma decodeFields_local k : ∀ fuel p o message,
  (length p - o = k)%nat → (k < fuel)%nat →
  decodeFields field fuel message {| payload := p; offset := o |} =
  decodeFields field (S k) message (newReader (drop o p)).
Proof.
  induction k as [k IH] using lt_wf_ind. intros fuel p o message Hk Hfuel.
  destruct fuel as [|fuel]; [lia|]. rewrite !decodeFields_unfold.
  unfold eof, newReader. cbn [payload offset]. rewrite length_drop.
  destruct (decide (length p ≤ o)%nat) as [Hend|Hmore].
  { by rewrite !bool_decide_eq_true_2 by lia. }
  rewrite !bool_decide_eq_false_2 by lia.
  rewrite (streaming_local {| payload := p; offset := o |}) by (simpl; lia).
  rewrite (streaming_local {| payload := drop o p; offset := 0 |}) by (simpl; lia).
  unfold remaining. cbn [payload offset]. rewrite drop_0.
  destruct (view (readField field message) (drop o p)) as [[message' n]| |] eqn:Hv;
    simpl; [|done..].
  apply readField_progress in Hv. rewrite length_drop in Hv.
  unfold seek. cbn [payload offset].
  rewrite (IH (k - n)%nat ltac:(lia) fuel p (o + n)%nat) by lia.
  rewrite (IH (k - n)%nat ltac:(lia) k (drop o p) n) by (rewrite ?length_drop; lia).
  by rewrite drop_drop.
Qed.

(** One turn of the loop, on the bytes ahead. *)
Lemma decodeFrom_eq message bs :
  decodeFrom field message bs =
    match bs with
    | [] => Ok message
    | _ =>
        match view (readField field message) bs with
        | Ok (message', n) => decodeFrom field message' (drop n bs)
        | Throw e => Throw e
        | OutOfFuel => OutOfFuel
        end
    end.
Proof.
  unfold decodeFrom, whileNotEof. destruct bs as [|b bs]; [done|].
  rewrite decodeFields_unfold. unfold eof at 1.
  rewrite bool_decide_eq_false_2 by (simpl; lia).
  rewrite (view_local (readField field message)).
  destruct (view _ (b :: bs)) as [[message' n]| |] eqn:Hv; simpl; [|done..].
  apply readField_progress in Hv.
  unfold seek, newReader. cbn [payload offset]. rewrite Nat.sub_0_r.
  rewrite (decodeFields_local (length (b :: bs) - n)) by (simpl in *; lia).
  by rewrite length_drop.
Qed.

Lemma decodeFrom_nil message : decodeFrom field message [] = Ok message.
Proof. by rewrite decodeFrom_eq. Qed.

(** A field at the head of the buffer is read and the loop goes on. *)
Lemma decodeFrom_field message fbytes message' tail :
  fbytes ≠ [] →
  view (readField field message) (fbytes ++ tail) = Ok (message', length fbytes) →
  decodeFrom field message (fbytes ++ tail) = decodeFrom field message' tail.
Proof.
  intros Hne Hv. rewrite decodeFrom_eq, Hv.
  rewrite drop_app_length. destruct fbytes; [done|]. done.
Qed.

(** A buffer that decodes on its own is a run of whole fields: decoding
    goes through it in the same way when more bytes follow. *)
Lemma decodeFrom_app pre : ∀ message message1 post,
  decodeFrom field message pre = Ok message1 →
  decodeFrom field message (pre ++ post) = decodeFrom field message1 post.
Proof.
  induction pre as [pre IH] using (induction_ltof1 _ length). unfold ltof in IH.
  intros message message1 post Hpre.
  rewrite decodeFrom_eq in Hpre. destruct pre as [|b pre']; [by injection Hpre as ->|].
  destruct (view _ (b :: pre')) as [[message' n]| |] eqn:Hv; [|done..].
  pose proof (readField_progress _ _ _ _ Hv) as Hn.
  rewrite (decodeFrom_eq message ((b :: pre') ++ post)). simpl app.
  change (b :: pre' ++ post) with ((b :: pre') ++ post).
  rewrite <- (take_drop n (b :: pre')), <- app_assoc.
  rewrite (streaming_prefix _ _ _ (drop n (b :: pre') ++ post) Hv).
  rewrite drop_app_length' by (rewrite length_take; lia).
  rewrite (IH (drop n (b :: pre'))) with (message1 := message1);
    [|rewrite length_drop; simpl in *; lia|done].
  destruct (take n (b :: pre') ++ _) eqn:Hnil; [|done].
  apply (f_equal length) in Hnil. rewrite length_app, length_take in Hnil.
  simpl in *. lia.
Qed.

End Loop.

(** *** What the writer emits *)

Lemma writes_ret : writes (ret tt) [].
Proof. intros [w]. unfold ret. simpl. by rewrite app_nil_r. Qed.

Lemma writes_bind m k out1 out2 :
  writes m out1 → writes k out2 → writes (m;; k) (out1 ++ out2).
Proof.
  intros Hm Hk w. unfold bind. rewrite Hm, Hk. simpl. by rewrite app_assoc.
Qed.

Lemma writes_writeVarint v : writes (writeVarint v) (varintBytes v).
Proof. intros w. unfold writeVarint. by rewrite writeVarint_loop_app. Qed.

Lemma writes_pushAll bs : writes (pushAll bs) (byte_to_Z <$> bs).
Proof.
  induction bs as [|b bs IH]; [apply writes_ret|].
  simpl. apply (writes_bind _ _ [byte_to_Z b]); [|done]. by intros w.
Qed.

Lemma emits_ret : emits (ret tt) [].
Proof. exists []. split; [apply writes_ret|done]. Qed.

Lemma emits_bind m k out1 out2 :
  emits m out1 → emits k out2 → emits (m;; k) (out1 ++ out2).
Proof.
  intros (raw1 & H1 & <-) (raw2 & H2 & <-). exists (raw1 ++ raw2).
  split; [by apply writes_bind|apply fmap_app].
Qed.

Lemma emits_lift {A} (x : Result A) a k out :
  x = Ok a → emits (k a) out → emits (bind (lift x) k) out.
Proof.
  intros -> (raw & H & <-). exists raw. split; [|done].
  intros w. unfold bind, lift. apply H.
Qed.

Lemma emits_written m out : emits m out → written m = Ok out.
Proof. intros (raw & H & <-). unfold written. by rewrite H. Qed.

Lemma emits_bytesOf m out : emits m out → bytesOf m = out.
Proof. intros (raw & H & <-). unfold bytesOf. by rewrite H. Qed.

Lemma emits_tag fn wt : emits (writeTag fn wt) (tagBytes fn wt).
Proof.
  exists (varintBytes (Z.lor (Z.shiftl fn 3) wt)).
  split; [apply writes_writeVarint|].
  unfold tagBytes, bytesOf, writeTag. by rewrite writes_writeVarint.
Qed.

Lemma tagBytes_eq fn wt :
  tagBytes fn wt = byte_of_Z <$> varintBytes (Z.lor (Z.shiftl fn 3) wt).
Proof. unfold tagBytes, bytesOf, writeTag. by rewrite writes_writeVarint. Qed.

Lemma emits_varint v : emits (writeVarint v) (byte_of_Z <$> varintBytes v).
Proof. eexists. split; [apply writes_writeVarint|done]. Qed.

Lemma emits_pushAll bs : emits (pushAll bs) bs.
Proof.
  eexists. split; [apply writes_pushAll|].
  rewrite <- list_fmap_compose. rewrite <- (list_fmap_id bs) at 2.
  apply list_fmap_ext. intros i b _. apply byte_of_to_Z.
Qed.

Lemma emits_writeMessage fn content :
  emits (writeMessage fn content)
    (tagBytes fn 2 ++ (byte_of_Z <$> varintBytes (Z.of_nat (length content))) ++ content).
Proof.
  unfold writeMessage.
  repeat apply emits_bind; auto using emits_tag, emits_varint, emits_pushAll.
Qed.

Lemma bytesField_eq fn content :
  bytesField fn content =
    tagBytes fn 2 ++ (byte_of_Z <$> varintBytes (Z.of_nat (length content))) ++ content.
Proof. apply emits_bytesOf, emits_writeMessage. Qed.

Lemma varintField_eq fn v :
  varintField fn v = tagBytes fn 0 ++ (byte_of_Z <$> varintBytes v).
Proof.
  apply emits_bytesOf. apply emits_bind; auto using emits_tag, emits_varint.
Qed.

Lemma emits_bytesField fn content : emits (writeMessage fn content) (bytesField fn content).
Proof. rewrite bytesField_eq. apply emits_writeMessage. Qed.

Lemma numberToVarint_safe v :
  safeNumber v → ∃ z, v = Integer z ∧ 0 ≤ z ≤ MAX_SAFE_INTEGER ∧ numberToVarint v = Ok z.
Proof.
  destruct v as [| |z|]; try done. intros Hz. exists z. unfold safeNumber in Hz.
  split_and!; [done|lia..|].
  unfold numberToVarint, isFinite, isNegative, isSafeInteger, BigInt.
  unfold MAX_SAFE_INTEGER in *. cbn [negb orb].
  rewrite bool_decide_eq_false_2 by lia.
  by rewrite bool_decide_eq_true_2 by lia.
Qed.

Lemma emits_writeInt64 fn z :
  0 ≤ z ≤ MAX_SAFE_INTEGER →
  emits (writeInt64 fn (Integer z)) (varintField fn z).
Proof.
  intros Hz. rewrite varintField_eq. unfold writeInt64.
  apply emits_bind; [apply emits_tag|].
  destruct (numberToVarint_safe (Integer z) Hz) as (z' & [= <-] & _ & Hn).
  eapply emits_lift; [exact Hn|]. apply emits_varint.
Qed.

Lemma tagBytes_nonempty fn wt : tagBytes fn wt ≠ [].
Proof.
  rewrite tagBytes_eq. intros H%(f_equal length).
  rewrite length_fmap in H. pose proof (varintBytes_length (Z.lor (Z.shiftl fn 3) wt)).
  simpl in H. lia.
Qed.

(** *** Tags *)

Lemma wire_bits_high wt n : 0 ≤ wt < 8 → 3 ≤ n → Z.testbit wt n = false.
Proof.
  intros Hwt Hn. destruct (decide (wt = 0)) as [->|]; [apply Z.bits_0|].
  apply Z.bits_above_log2; [lia|].
  assert (Z.log2 wt < 3); [|lia]. apply Z.log2_lt_pow2; lia.
Qed.

Lemma tag_value fn wt :
  0 ≤ wt < 8 → Z.lor (Z.shiftl fn 3) wt = 8 * fn + wt.
Proof.
  intros Hwt. rewrite <- Z.lxor_lor, <- Z.add_nocarry_lxor.
  - rewrite Z.shiftl_mul_pow2 by lia. lia.
  - apply Z.bits_inj'. intros n Hn. rewrite Z.land_spec, Z.bits_0.
    destruct (decide (n < 3)).
    + rewrite Z.shiftl_spec_low by lia. done.
    + rewrite (wire_bits_high wt n) by lia. apply andb_false_r.
  - apply Z.bits_inj'. intros n Hn. rewrite Z.land_spec, Z.bits_0.
    destruct (decide (n < 3)).
    + rewrite Z.shiftl_spec_low by lia. done.
    + rewrite (wire_bits_high wt n) by lia. apply andb_false_r.
Qed.

Lemma parseVarint_written z tail :
  0 ≤ z < 2 ^ 70 →
  parseVarint ((byte_of_Z <$> varintBytes z) ++ tail) 0 0
  = Ok (z, length (varintBytes z)).
Proof.
  intros Hz. pose proof (parseVarint_varintBytes z 0 0 tail) as H.
  change (7 * 0) with 0 in H. change (7 * (10 - 0)) with 70 in H.
  rewrite H by lia. by rewrite Z.shiftl_0_r.
Qed.

Lemma view_readTag_written fn wt tail :
  validFieldNumber fn → 0 ≤ wt < 8 →
  view readTag (tagBytes fn wt ++ tail)
  = Ok ({| fieldNumber := fn; wireType := wt |}, length (tagBytes fn wt)).
Proof.
  unfold validFieldNumber. intros Hfn Hwt.
  rewrite view_readTag, tagBytes_eq, length_fmap, tag_value by done.
  rewrite parseVarint_written by lia.
  rewrite bigintToNumber_small by lia.
  f_equal. f_equal. f_equal.
  - unfold ToUint32. rewrite Z.mod_small by lia.
    rewrite Z.shiftr_div_pow2 by lia. change (2 ^ 3) with 8.
    rewrite Z.mul_comm, Z.div_add_l, Z.div_small by lia. lia.
  - change 7 with (Z.ones 3). rewrite Z.land_ones by lia. change (2 ^ 3) with 8.
    unfold ToInt32. rewrite (Z.mod_small _ (2 ^ 32)) by lia.
    case_bool_decide.
    + replace (8 * fn + wt - 2 ^ 32) with (wt + (fn - 2 ^ 29) * 8) by lia.
      rewrite Z_mod_plus_full. apply Z.mod_small. lia.
    + replace (8 * fn + wt) with (wt + fn * 8) by lia.
      rewrite Z_mod_plus_full. apply Z.mod_small. lia.
Qed.

Lemma VarintFault_parse bs e : VarintFault bs e → parseVarint bs 0 0 = Throw e.
Proof.
  assert (∀ (k : nat) bs shift value,
    Forall continues bs → (length bs < k)%nat → shift = 7 * (10 - Z.of_nat k) →
    (k ≤ 10)%nat →
    parseVarint bs shift value = Throw UnexpectedEnd) as Htrunc.
  { intros k bs'. revert k. induction bs' as [|b bs' IH]; intros k shift value Hc Hlen -> Hk; [done|].
    apply Forall_cons in Hc as [Hb Hc]. simpl in *.
    rewrite decide_False by done. rewrite decide_False by lia.
    rewrite (IH (k - 1)%nat); [done|done|lia|lia|lia]. }
  assert (∀ (k : nat) bs tail shift value,
    Forall continues bs → length bs = k → shift = 7 * (10 - Z.of_nat k) →
    (1 ≤ k ≤ 10)%nat →
    parseVarint (bs ++ tail) shift value = Throw VarintTooLarge) as Hlong.
  { intros k bs'. revert k. induction bs' as [|b bs' IH]; intros k tail shift value Hc Hlen -> Hk.
    { simpl in Hlen. lia. }
    apply Forall_cons in Hc as [Hb Hc]. simpl in *.
    rewrite decide_False by done.
    destruct (decide (k = 1%nat)) as [->|].
    { by rewrite decide_True by lia. }
    rewrite decide_False by lia.
    rewrite (IH (k - 1)%nat); [done|done|lia|lia|lia]. }
  destruct 1 as [bs Hc Hlen|bs tail Hc Hlen].
  - apply (Htrunc 10%nat); first [done|lia].
  - apply (Hlong 10%nat); first [done|lia].
Qed.

End CodecBasics.

(** *** Fields and messages *)

Section CodecMessages.
Import Codec.
Context {Str : Type} {text : TextCodec Str}.

#[local] Existing Instances Streaming_ret Streaming_throw Streaming_lift
  Streaming_readVarint Streaming_bind_uniform Streaming_if Streaming_readTag
  Streaming_readInt64 Streaming_readBytes Streaming_skipField.

#[local] Instance Streaming_readString : Streaming (readString (Str := Str)).
Proof. unfold readString. apply _. Qed.

Ltac field_cases fn := destruct fn as [|[[[]|[]|]|[[]|[]|]|]|].

Lemma fieldOf_streaming T fn wt message :
  Streaming (fieldOf (decoderOf T) fn wt message).
Proof.
  destruct T; simpl;
    [ unfold decodeNote_field | unfold decodeCreateNoteRequest_field
    | unfold decodeCreateNoteResponse_field | unfold decodeGetNoteResponse_field
    | unfold decodeListNotesResponse_field | unfold decodeUpdateNoteRequest_field
    | unfold decodeUpdateNoteResponse_field | unfold decodeDeleteNoteResponse_field
    | unfold decodeNoteDelta_field | unfold decodeNoteDeleted_field
    | unfold decodeNoteEvent_field ];
    field_cases fn; apply _.
Qed.

Lemma decode_eq T bs :
  decode T bs =
    mapResult (wrap (decoderOf T))
      (decodeFrom (fieldOf (decoderOf T)) (initial (decoderOf T)) bs).
Proof. by destruct T. Qed.

Lemma view_ret {A} (a : A) bs : view (ret a) bs = Ok (a, 0%nat).
Proof. done. Qed.

Lemma view_bind_ret {A B} (m : Eff Reader A) (f : A → B) bs :
  Streaming m →
  view (let! a := m in ret (f a)) bs =
    match view m bs with
    | Ok (a, n) => Ok (f a, n)
    | Throw e => Throw e
    | OutOfFuel => OutOfFuel
    end.
Proof.
  intros Hm. rewrite view_bind by apply _.
  destruct (view m bs) as [[a n]| |]; [|done..].
  by rewrite view_ret, Nat.add_0_r.
Qed.

Lemma view_bind_lift_ret {A B C} (m : Eff Reader A) (d : A → Result B) (f : B → C) bs :
  Streaming m →
  view (let! a := m in let! x := lift (d a) in ret (f x)) bs =
    match view m bs with
    | Ok (a, n) =>
        match d a with
        | Ok x => Ok (f x, n)
        | Throw e => Throw e
        | OutOfFuel => OutOfFuel
        end
    | Throw e => Throw e
    | OutOfFuel => OutOfFuel
    end.
Proof.
  intros Hm. rewrite view_bind by apply _.
  destruct (view m bs) as [[a n]| |]; [|done..].
  unfold view, bind, lift, ret. destruct (d a); [|done..].
  simpl. by rewrite Nat.add_0_r.
Qed.

Lemma view_readString bs :
  view (readString (Str := Str)) bs =
    match view readBytes bs with
    | Ok (content, n) => Ok (textDecoder_decode content, n)
    | Throw e => Throw e
    | OutOfFuel => OutOfFuel
    end.
Proof. unfold readString. by rewrite view_bind_ret by apply _. Qed.

(** Reading what the writer wrote. *)

Lemma view_readInt64_written z tail :
  0 ≤ z ≤ MAX_SAFE_INTEGER →
  view readInt64 ((byte_of_Z <$> varintBytes z) ++ tail)
  = Ok (Integer z, length (varintBytes z)).
Proof.
  unfold MAX_SAFE_INTEGER. intros Hz.
  rewrite view_readInt64, parseVarint_written by lia.
  rewrite bool_decide_eq_false_2 by (unfold MAX_SAFE_INTEGER; lia).
  by rewrite bigintToNumber_small by lia.
Qed.

Lemma view_readInt64_unsafe v tail :
  MAX_SAFE_INTEGER < v < 2 ^ 70 →
  view readInt64 ((byte_of_Z <$> varintBytes v) ++ tail)
  = Throw (Int64ExceedsSafe v).
Proof.
  unfold MAX_SAFE_INTEGER. intros Hv.
  rewrite view_readInt64, parseVarint_written by lia.
  by rewrite bool_decide_eq_true_2 by (unfold MAX_SAFE_INTEGER; lia).
Qed.

Lemma view_readBytes_written content tail :
  Z.of_nat (length content) ≤ MAX_SAFE_INTEGER →
  view readBytes
    ((byte_of_Z <$> varintBytes (Z.of_nat (length content))) ++ content ++ tail)
  = Ok (content,
        (length (varintBytes (Z.of_nat (length content))) + length content)%nat).
Proof.
  unfold MAX_SAFE_INTEGER. intros Hlen.
  rewrite view_readBytes, parseVarint_written by lia.
  rewrite bigintToNumber_small by lia.
  rewrite !length_app, length_fmap.
  rewrite bool_decide_eq_false_2 by lia.
  rewrite drop_app_length' by (by rewrite length_fmap).
  rewrite Nat2Z.id, take_app_length. done.
Qed.

Lemma view_readBytes_beyond declared content :
  Z.of_nat (length content) < declared < 2 ^ 70 →
  Z.of_nat (length content) ≤ MAX_SAFE_INTEGER →
  view readBytes ((byte_of_Z <$> varintBytes declared) ++ content)
  = Throw LengthExceedsBounds ∧
  view (skipField 2) ((byte_of_Z <$> varintBytes declared) ++ content)
  = Throw SkipBeyondBounds.
Proof.
  unfold MAX_SAFE_INTEGER. intros Hd Hlen.
  rewrite view_readBytes, view_skipField_length_delimited.
  rewrite parseVarint_written by lia.
  rewrite !length_app, length_fmap.
  assert (Z.of_nat (length content) < bigintToNumber declared).
  { destruct (decide (declared < 2 ^ 53)).
    - rewrite bigintToNumber_small; lia.
    - pose proof (bigintToNumber_large declared). lia. }
  by rewrite !bool_decide_eq_true_2 by lia.
Qed.

Lemma view_skipField_varint_written v tail :
  0 ≤ v < 2 ^ 70 →
  view (skipField 0) ((byte_of_Z <$> varintBytes v) ++ tail)
  = Ok (tt, length (varintBytes v)).
Proof.
  intros Hv. by rewrite view_skipField_varint, parseVarint_written by lia.
Qed.

Lemma view_skipField_bytes_written content tail :
  Z.of_nat (length content) ≤ MAX_SAFE_INTEGER →
  view (skipField 2)
    ((byte_of_Z <$> varintBytes (Z.of_nat (length content))) ++ content ++ tail)
  = Ok (tt, (length (varintBytes (Z.of_nat (length content))) + length content)%nat).
Proof.
  unfold MAX_SAFE_INTEGER. intros Hlen.
  rewrite view_skipField_length_delimited, parseVarint_written by lia.
  rewrite bigintToNumber_small by lia.
  rewrite !length_app, length_fmap.
  rewrite bool_decide_eq_false_2 by lia.
  by rewrite Nat2Z.id.
Qed.

(** One turn of the loop on a field that starts with a written tag. *)
Lemma view_readField_tag {T} (field : Z → Z → T → Eff Reader T) message fn wt rest :
  (∀ fn wt message, Streaming (field fn wt message)) →
  validFieldNumber fn → 0 ≤ wt < 8 →
  view (readField field message) (tagBytes fn wt ++ rest) =
    match view (field fn wt message) rest with
    | Ok (message', n) => Ok (message', (length (tagBytes fn wt) + n)%nat)
    | Throw e => Throw e
    | OutOfFuel => OutOfFuel
    end.
Proof.
  intros Hs Hfn Hwt. rewrite view_readField by done.
  rewrite view_readTag_written by done. cbn [fieldNumber wireType].
  by rewrite drop_app_length.
Qed.

Lemma decodeFrom_tagged {T} (field : Z → Z → T → Eff Reader T)
    message fn wt content tail message' :
  (∀ fn wt message, Streaming (field fn wt message)) →
  validFieldNumber fn → 0 ≤ wt < 8 →
  view (field fn wt message) (content ++ tail) = Ok (message', length content) →
  decodeFrom field message (tagBytes fn wt ++ content ++ tail)
  = decodeFrom field message' tail.
Proof.
  intros Hs Hfn Hwt Hv.
  rewrite app_assoc. apply decodeFrom_field; [done| |].
  - intros [H _]%app_eq_nil. by apply tagBytes_nonempty in H.
  - rewrite <- app_assoc, view_readField_tag, Hv by done.
    by rewrite length_app.
Qed.

Lemma decodeFrom_throws {T} (field : Z → Z → T → Eff Reader T)
    message fn wt rest e :
  (∀ fn wt message, Streaming (field fn wt message)) →
  validFieldNumber fn → 0 ≤ wt < 8 →
  view (field fn wt message) rest = Throw e →
  decodeFrom field message (tagBytes fn wt ++ rest) = Throw e.
Proof.
  intros Hs Hfn Hwt Hv. rewrite decodeFrom_eq by done.
  rewrite view_readField_tag, Hv by done.
  destruct (tagBytes fn wt ++ rest) eqn:Hnil; [|done].
  apply app_eq_nil in Hnil as [H _]. by apply tagBytes_nonempty in H.
Qed.

(** *** What the [switch] of each decoder does with a field number *)

Ltac unfold_fields :=
  unfold decodeNote_field, decodeCreateNoteRequest_field,
    decodeCreateNoteResponse_field, decodeGetNoteResponse_field,
    decodeListNotesResponse_field, decodeUpdateNoteRequest_field,
    decodeUpdateNoteResponse_field, decodeDeleteNoteResponse_field,
    decodeNoteDelta_field, decodeNoteDeleted_field, decodeNoteEvent_field.

Lemma fieldOf_unknown T fn wt message :
  schema T fn = None →
  fieldOf (decoderOf T) fn wt message = (skipField wt;; ret message).
Proof. destruct T; field_cases fn; intros H; try discriminate H; try reflexivity. Qed.

Lemma fieldOf_int64_throws T fn wt message bs e :
  schema T fn = Some Int64Field →
  view readInt64 bs = Throw e →
  view (fieldOf (decoderOf T) fn wt message) bs = Throw e.
Proof.
  intros Hs Hv.
  destruct T; field_cases fn; try done; cbn [fieldOf decoderOf]; unfold_fields;
    rewrite view_bind_ret by apply _; by rewrite Hv.
Qed.

Lemma fieldOf_bytes_throws T fn wt message bs e :
  schema T fn = Some BytesField →
  view readBytes bs = Throw e →
  view (fieldOf (decoderOf T) fn wt message) bs = Throw e.
Proof.
  intros Hs Hv.
  destruct T; field_cases fn; try done; cbn [fieldOf decoderOf]; unfold_fields;
    rewrite ?view_bind_ret, ?view_readString, ?view_bind_lift_ret by apply _;
    by rewrite Hv.
Qed.

Lemma decode_throws T bs e :
  decode T bs = Throw e →
  decodeFrom (fieldOf (decoderOf T)) (initial (decoderOf T)) bs = Throw e.
Proof.
  rewrite decode_eq. destruct (decodeFrom _ _ bs); simpl; congruence.
Qed.

Lemma decode_ok T bs m :
  decode T bs = Ok m →
  ∃ message, decodeFrom (fieldOf (decoderOf T)) (initial (decoderOf T)) bs = Ok message
             ∧ m = wrap (decoderOf T) message.
Proof.
  rewrite decode_eq. destruct (decodeFrom _ _ bs) as [message| |]; simpl; [|done..].
  intros [= <-]. by exists message.
Qed.

Lemma fieldOf_nested_throws T T' fn wt message bs content n e :
  nested T fn = Some T' →
  view readBytes bs = Ok (content, n) →
  decode T' content = Throw e →
  view (fieldOf (decoderOf T) fn wt message) bs = Throw e.
Proof.
  intros Hs Hv Hd.
  destruct T; field_cases fn; try done; injection Hs as <-;
    apply decode_throws in Hd; cbn [fieldOf decoderOf]; unfold_fields;
    rewrite view_bind_lift_ret, Hv by apply _;
    unfold decodeNote, decodeNoteDelta, decodeNoteDeleted, decodeMessage;
    unfold decodeFrom in Hd; cbn [fieldOf decoderOf initial Partial] in Hd;
    by rewrite Hd.
Qed.

Lemma view_skip_ret {T} wt (message : T) bs :
  view (skipField wt;; ret message) bs =
    match view (skipField wt) bs with
    | Ok (_, n) => Ok (message, n)
    | Throw e => Throw e
    | OutOfFuel => OutOfFuel
    end.
Proof.
  rewrite (view_bind_ret (skipField wt) (λ _, message)) by apply _.
  by destruct (view (skipField wt) bs) as [[[] n]| |].
Qed.

(** A field of an unknown number is stepped over. *)
Lemma decodeFrom_unknown T message unknown tail :
  UnknownField T unknown →
  decodeFrom (fieldOf (decoderOf T)) message (unknown ++ tail)
  = decodeFrom (fieldOf (decoderOf T)) message tail.
Proof.
  destruct 1 as [fn v Hfn Hs Hv|fn content Hfn Hs Hlen].
  - rewrite varintField_eq, <- app_assoc.
    apply decodeFrom_tagged; [apply fieldOf_streaming|done|done|].
    rewrite fieldOf_unknown, view_skip_ret by done.
    rewrite view_skipField_varint_written by lia. by rewrite length_fmap.
  - rewrite bytesField_eq, <- !app_assoc.
    rewrite (app_assoc _ content tail).
    apply decodeFrom_tagged; [apply fieldOf_streaming|done|done|].
    rewrite fieldOf_unknown, view_skip_ret, <- app_assoc by done.
    rewrite view_skipField_bytes_written by done.
    by rewrite length_app, length_fmap.
Qed.

(** C7: a field of an unknown number, written as a varint or as
    length-delimited bytes and put at a field boundary of a buffer, does
    not change what the buffer decodes to: decoding succeeds as before and
    every known field has the same value. *)
Theorem unknown_fields_are_skipped T pre unknown post aligned :
  decode T pre = Ok aligned →
  UnknownField T unknown →
  decode T (pre ++ unknown ++ post) = decode T (pre ++ post) ∧
  ∀ m, decode T (pre ++ post) = Ok m → decode T (pre ++ unknown ++ post) = Ok m.
Proof.
  intros Hpre Hunknown.
  assert (decode T (pre ++ unknown ++ post) = decode T (pre ++ post)) as Heq.
  { apply decode_ok in Hpre as (message & Hpre & _).
    rewrite !decode_eq.
    rewrite !(decodeFrom_app _ (fieldOf_streaming T) pre _ message) by done.
    by rewrite decodeFrom_unknown. }
  split; [done|]. intros m. by rewrite Heq.
Qed.

(** C5: whatever was decoded so far, a fault at the next field boundary
    (a varint that runs past the end of the buffer or does not end within
    ten groups, a length-delimited field that declares more bytes than
    are left, a nested message that does not decode, or a wire type other
    than varint and length-delimited on an unknown field) makes the
    decoder throw: the caller gets the error and no message. *)
Theorem faults_fail_the_decode T pre aligned bad e :
  decode T pre = Ok aligned →
  Fault T bad e →
  decode T (pre ++ bad) = Throw e.
Proof.
  intros (message & Hpre & _)%decode_ok Hbad.
  rewrite decode_eq, (decodeFrom_app _ (fieldOf_streaming T) pre _ message) by done.
  assert (decodeFrom (fieldOf (decoderOf T)) message bad = Throw e) as ->; [|done].
  destruct Hbad as [bs e Hne Hv|fn wt bs e Hfn Hwt Hfault].
  - rewrite decodeFrom_eq by apply fieldOf_streaming.
    rewrite view_readField, view_readTag by apply fieldOf_streaming.
    rewrite (VarintFault_parse _ _ Hv). by destruct bs.
  - apply decodeFrom_throws; [apply fieldOf_streaming|done..|].
    destruct Hfault as [bs e Hs Hv|bs e Hs Hv|declared content Hs Hd Hlen
      |T' content tail e Hn Hlen Hd
      |bs e Hs -> Hv|bs e Hs -> Hv|declared content Hs -> Hd Hlen|bs Hs H0 H2].
    + apply fieldOf_int64_throws; [done|].
      by rewrite view_readInt64, (VarintFault_parse _ _ Hv).
    + apply fieldOf_bytes_throws; [done|].
      by rewrite view_readBytes, (VarintFault_parse _ _ Hv).
    + apply fieldOf_bytes_throws; [done|]. by apply view_readBytes_beyond.
    + eapply fieldOf_nested_throws; [done| |done].
      by apply view_readBytes_written.
    + rewrite fieldOf_unknown, view_skip_ret, view_skipField_varint by done.
      by rewrite (VarintFault_parse _ _ Hv).
    + rewrite fieldOf_unknown, view_skip_ret, view_skipField_length_delimited by done.
      by rewrite (VarintFault_parse _ _ Hv).
    + rewrite fieldOf_unknown, view_skip_ret by done.
      by rewrite (proj2 (view_readBytes_beyond _ _ Hd Hlen)).
    + rewrite fieldOf_unknown, view_skip_ret by done.
      by rewrite view_skipField_unsupported.
Qed.

(** *** Known fields, as the writer lays them out *)

Lemma bytesField_length fn content :
  (length content ≤ length (bytesField fn content))%nat.
Proof. rewrite bytesField_eq, !length_app. lia. Qed.

Lemma decodeFrom_varintField {T} (field : Z → Z → T → Eff Reader T)
    message fn z tail (f : number → T) :
  (∀ fn wt message, Streaming (field fn wt message)) →
  validFieldNumber fn → 0 ≤ z ≤ MAX_SAFE_INTEGER →
  field fn 0 message = (let! v := readInt64 in ret (f v)) →
  decodeFrom field message (varintField fn z ++ tail)
  = decodeFrom field (f (Integer z)) tail.
Proof.
  intros Hs Hfn Hz Hf. rewrite varintField_eq, <- app_assoc.
  apply decodeFrom_tagged; [done|done|done|].
  rewrite Hf, view_bind_ret by apply _.
  rewrite view_readInt64_written by done. by rewrite length_fmap.
Qed.

Lemma decodeFrom_stringField {T} (field : Z → Z → T → Eff Reader T)
    message fn (s : Str) tail (f : Str → T) :
  (∀ fn wt message, Streaming (field fn wt message)) →
  validFieldNumber fn →
  Z.of_nat (length (textEncoder_encode s)) ≤ MAX_SAFE_INTEGER →
  field fn 2 message = (let! v := readString in ret (f v)) →
  decodeFrom field message (bytesField fn (textEncoder_encode s) ++ tail)
  = decodeFrom field (f (textDecoder_decode (textEncoder_encode s))) tail.
Proof.
  intros Hs Hfn Hlen Hf. rewrite bytesField_eq, <- !app_assoc.
  rewrite (app_assoc _ (textEncoder_encode s) tail).
  apply decodeFrom_tagged; [done|done|done|].
  rewrite Hf, view_bind_ret, view_readString, <- app_assoc by apply _.
  rewrite view_readBytes_written by done.
  by rewrite length_app, length_fmap.
Qed.

Lemma decodeFrom_messageField {T A} (field : Z → Z → T → Eff Reader T)
    message fn content tail (d : list byte → Result A) (x : A) (f : A → T) :
  (∀ fn wt message, Streaming (field fn wt message)) →
  validFieldNumber fn →
  Z.of_nat (length content) ≤ MAX_SAFE_INTEGER →
  field fn 2 message
    = (let! bytes := readBytes in let! x := lift (d bytes) in ret (f x)) →
  d content = Ok x →
  decodeFrom field message (bytesField fn content ++ tail)
  = decodeFrom field (f x) tail.
Proof.
  intros Hs Hfn Hlen Hf Hd. rewrite bytesField_eq, <- !app_assoc.
  rewrite (app_assoc _ content tail).
  apply decodeFrom_tagged; [done|done|done|].
  rewrite Hf, view_bind_lift_ret, <- app_assoc by apply _.
  rewrite view_readBytes_written, Hd by done.
  by rewrite length_app, length_fmap.
Qed.

Lemma validFieldNumber_small fn : 0 ≤ fn ≤ 6 → validFieldNumber fn.
Proof. unfold validFieldNumber. lia. Qed.

(** A buffer made of event fields decodes to the member whose field
    comes last in it. *)
Lemma decodeNoteEvent_EventFields bs last :
  EventFields bs last → decodeNoteEvent bs = Ok last.
Proof.
  change (decodeNoteEvent bs) with (decodeFrom decodeNoteEvent_field EventUndefined bs).
  pose proof (fieldOf_streaming TNoteEvent) as Hs. cbn [fieldOf decoderOf] in Hs.
  induction 1 as [|bs earlier content note _ IH Hlen Hd
                  |bs earlier content delta _ IH Hlen Hd
                  |bs earlier content deleted _ IH Hlen Hd
                  |bs final unknown _ IH Hunknown].
  - by apply decodeFrom_nil.
  - rewrite (decodeFrom_app _ Hs bs _ _ _ IH).
    rewrite <- (app_nil_r (bytesField 1 content)).
    erewrite decodeFrom_messageField;
      [by apply decodeFrom_nil|done|by apply validFieldNumber_small|done|reflexivity|done].
  - rewrite (decodeFrom_app _ Hs bs _ _ _ IH).
    rewrite <- (app_nil_r (bytesField 2 content)).
    erewrite decodeFrom_messageField;
      [by apply decodeFrom_nil|done|by apply validFieldNumber_small|done|reflexivity|done].
  - rewrite (decodeFrom_app _ Hs bs _ _ _ IH).
    rewrite <- (app_nil_r (bytesField 3 content)).
    erewrite decodeFrom_messageField;
      [by apply decodeFrom_nil|done|by apply validFieldNumber_small|done|reflexivity|done].
  - rewrite (decodeFrom_app _ Hs bs _ _ _ IH).
    rewrite <- (app_nil_r unknown).
    etrans; [exact (decodeFrom_unknown TNoteEvent final unknown [] Hunknown)|].
    by apply decodeFrom_nil.
Qed.

(** *** Round trips *)

Lemma emits_writeString fn (s : Str) :
  emits (writeString fn s) (bytesField fn (textEncoder_encode s)).
Proof. exact (emits_bytesField fn (textEncoder_encode s)). Qed.

Lemma emits_writeOptionalString fn (s : option Str) :
  emits (writeOptionalString fn s)
    (from_option (λ s, bytesField fn (textEncoder_encode s)) [] s).
Proof. destruct s; [apply emits_writeString|apply emits_ret]. Qed.

Ltac solve_emits :=
  repeat lazymatch goal with
  | |- emits (bind _ _) _ => apply emits_bind
  | |- emits (writeInt64 _ _) _ => apply emits_writeInt64; assumption
  | |- emits (writeString _ _) _ => apply emits_writeString
  | |- emits (writeOptionalString _ _) _ => apply emits_writeOptionalString
  | |- emits (writeMessage _ _) _ => apply emits_bytesField
  | |- emits (ret tt) _ => apply emits_ret
  end.

Ltac solve_length Hlen :=
  match goal with
  | |- Z.of_nat (length ?c) ≤ _ =>
      match type of Hlen with
      | context [bytesField ?fn c] =>
          pose proof (bytesField_length fn c); lia
      end
  end.

(** Read the field at the head of the buffer and go on with the rest. *)
Ltac read_field Hs Hlen :=
  lazymatch goal with
  | |- decodeFrom _ _ (varintField _ _ ++ _) = _ =>
      etrans;
      [ eapply decodeFrom_varintField;
        [exact Hs|by apply validFieldNumber_small|assumption|reflexivity]
      | cbv beta ]
  | |- decodeFrom _ _ (bytesField _ (textEncoder_encode _) ++ _) = _ =>
      etrans;
      [ eapply decodeFrom_stringField;
        [exact Hs|by apply validFieldNumber_small|solve_length Hlen|reflexivity]
      | cbv beta ]
  end.

Ltac integers_of m :=
  repeat match goal with
  | H : safeNumber ?v |- _ =>
      destruct v as [| |?z|]; try (by destruct H); unfold safeNumber in H
  end.

Lemma roundtrip_Note (m : Note) :
  wellFormedNote m →
  ∃ bs, encodeNote m = Ok bs ∧
        (Z.of_nat (length bs) ≤ MAX_SAFE_INTEGER → decodeNote bs = Ok m).
Proof.
  destruct m as [i t b c u v]. intros (Hi & Ht & Hb & Hc & Hu & Hv).
  cbn [id title body created_at_unix_ms updated_at_unix_ms version] in *.
  integers_of m. eexists. split.
  - apply emits_written. solve_emits.
  - intros Hlen. rewrite !length_app in Hlen.
    pose proof (fieldOf_streaming TNote) as Hs. cbn [fieldOf decoderOf] in Hs.
    change (decodeNote ?x) with (decodeFrom decodeNote_field
      (initial (decoderOf TNote)) x). cbn [initial decoderOf].
    rewrite <- (app_nil_r (varintField 6 _)).
    do 6 read_field Hs Hlen.
    rewrite decodeFrom_nil by done.
    cbn [id title body created_at_unix_ms updated_at_unix_ms version].
    unfold textSurvives in *. by rewrite Ht, Hb.
Qed.

Lemma roundtrip_CreateNoteRequest (m : CreateNoteRequest) :
  textSurvives (create_title m) → textSurvives (create_body m) →
  ∃ bs, encodeCreateNoteRequest m = Ok bs ∧
        (Z.of_nat (length bs) ≤ MAX_SAFE_INTEGER →
         decodeCreateNoteRequest bs = Ok m).
Proof.
  destruct m as [t b]. cbn [create_title create_body]. intros Ht Hb.
  eexists. split.
  - apply emits_written. solve_emits.
  - intros Hlen. rewrite !length_app in Hlen.
    pose proof (fieldOf_streaming TCreateNoteRequest) as Hs. cbn [fieldOf decoderOf] in Hs.
    change (decodeCreateNoteRequest ?x) with (decodeFrom decodeCreateNoteRequest_field
      (initial (decoderOf TCreateNoteRequest)) x). cbn [initial decoderOf].
    rewrite <- (app_nil_r (bytesField 2 _)).
    do 2 read_field Hs Hlen.
    rewrite decodeFrom_nil by done. cbn [create_title create_body].
    unfold textSurvives in *. by rewrite Ht, Hb.
Qed.

Lemma roundtrip_UpdateNoteRequest (m : UpdateNoteRequest) :
  optionalTextSurvives (update_title m) → optionalTextSurvives (update_body m) →
  ∃ bs, encodeUpdateNoteRequest m = Ok bs ∧
        (Z.of_nat (length bs) ≤ MAX_SAFE_INTEGER →
         decodeUpdateNoteRequest bs = Ok m).
Proof.
  destruct m as [t b]. cbn [update_title update_body]. intros Ht Hb.
  eexists. split.
  - apply emits_written. solve_emits.
  - intros Hlen.
    pose proof (fieldOf_streaming TUpdateNoteRequest) as Hs. cbn [fieldOf decoderOf] in Hs.
    change (decodeUpdateNoteRequest ?x) with (decodeFrom decodeUpdateNoteRequest_field
      (initial (decoderOf TUpdateNoteRequest)) x). cbn [initial decoderOf].
    cbn [update_title update_body] in *.
    rewrite <- (app_nil_r (from_option _ _ b)).
    destruct t as [t|], b as [b|]; cbn [from_option app] in *;
      rewrite ?length_app in Hlen; repeat read_field Hs Hlen;
      rewrite decodeFrom_nil by done; cbn [update_title update_body];
      unfold optionalTextSurvives, textSurvives in *; by rewrite ?Ht, ?Hb.
Qed.

Lemma roundtrip_NoteDelta (m : NoteDelta) :
  wellFormedNoteDelta m →
  ∃ bs, encodeNoteDelta m = Ok bs ∧
        (Z.of_nat (length bs) ≤ MAX_SAFE_INTEGER → decodeNoteDelta bs = Ok m).
Proof.
  destruct m as [i t b u v]. intros (Hi & Ht & Hb & Hu & Hv).
  cbn [delta_id delta_title delta_body delta_updated_at_unix_ms delta_version] in *.
  integers_of m. eexists. split.
  - apply emits_written. solve_emits.
  - intros Hlen.
    pose proof (fieldOf_streaming TNoteDelta) as Hs. cbn [fieldOf decoderOf] in Hs.
    change (decodeNoteDelta ?x) with (decodeFrom decodeNoteDelta_field
      (initial (decoderOf TNoteDelta)) x). cbn [initial decoderOf].
    cbn [delta_id delta_title delta_body delta_updated_at_unix_ms delta_version] in *.
    rewrite <- (app_nil_r (varintField 5 _)).
    destruct t as [t|], b as [b|]; cbn [from_option app] in *;
      rewrite ?length_app in Hlen; repeat read_field Hs Hlen;
      rewrite decodeFrom_nil by done;
      cbn [delta_id delta_title delta_body delta_updated_at_unix_ms delta_version];
      unfold optionalTextSurvives, textSurvives in *; by rewrite ?Ht, ?Hb.
Qed.

Lemma roundtrip_NoteDeleted (m : NoteDeleted) :
  safeNumber (deleted_id m) →
  ∃ bs, encodeNoteDeleted m = Ok bs ∧
        (Z.of_nat (length bs) ≤ MAX_SAFE_INTEGER → decodeNoteDeleted bs = Ok m).
Proof.
  destruct m as [i]. cbn [deleted_id]. intros Hi. integers_of m.
  eexists. split.
  - apply emits_written. solve_emits.
  - intros Hlen.
    pose proof (fieldOf_streaming TNoteDeleted) as Hs. cbn [fieldOf decoderOf] in Hs.
    change (decodeNoteDeleted ?x) with (decodeFrom decodeNoteDeleted_field
      (initial (decoderOf TNoteDeleted)) x). cbn [initial decoderOf].
    rewrite <- (app_nil_r (varintField 1 _)).
    read_field Hs Hlen. by rewrite decodeFrom_nil by done.
Qed.

Lemma roundtrip_DeleteNoteResponse (m : DeleteNoteResponse) :
  safeNumber (deleted_response_id m) →
  ∃ bs, encodeDeleteNoteResponse m = Ok bs ∧
        (Z.of_nat (length bs) ≤ MAX_SAFE_INTEGER →
         decodeDeleteNoteResponse bs = Ok m).
Proof.
  destruct m as [i]. cbn [deleted_response_id]. intros Hi. integers_of m.
  eexists. split.
  - apply emits_written. solve_emits.
  - intros Hlen.
    pose proof (fieldOf_streaming TDeleteNoteResponse) as Hs. cbn [fieldOf decoderOf] in Hs.
    change (decodeDeleteNoteResponse ?x) with (decodeFrom decodeDeleteNoteResponse_field
      (initial (decoderOf TDeleteNoteResponse)) x). cbn [initial decoderOf].
    rewrite <- (app_nil_r (varintField 1 _)).
    read_field Hs Hlen. by rewrite decodeFrom_nil by done.
Qed.

Lemma emits_nested {A} (enc : A → Result (list byte)) (x : A) fn bs :
  enc x = Ok bs →
  emits (let! payload := lift (enc x) in writeMessage fn payload) (bytesField fn bs).
Proof. intros H. eapply emits_lift; [exact H|apply emits_bytesField]. Qed.

(** Read a nested message at the head of the buffer. *)
Ltac read_nested Hs Hlen Hd :=
  etrans;
  [ eapply decodeFrom_messageField;
    [ exact Hs | by apply validFieldNumber_small | solve_length Hlen
    | reflexivity | apply Hd; solve_length Hlen ]
  | cbv beta ].

Lemma roundtrip_CreateNoteResponse (m : CreateNoteResponse) :
  wellFormedOptionalNote (created_note m) →
  ∃ bs, encodeCreateNoteResponse m = Ok bs ∧
        (Z.of_nat (length bs) ≤ MAX_SAFE_INTEGER →
         decodeCreateNoteResponse bs = Ok m).
Proof.
  destruct m as [[n|]]; cbn [created_note wellFormedOptionalNote]; intros Hwf.
  - destruct (roundtrip_Note n Hwf) as (bn & Hen & Hdn).
    exists (bytesField 1 bn). split.
    + apply emits_written. by apply (emits_nested encodeNote).
    + intros Hlen.
      pose proof (fieldOf_streaming TCreateNoteResponse) as Hs. cbn [fieldOf decoderOf] in Hs.
      change (decodeCreateNoteResponse ?x) with (decodeFrom decodeCreateNoteResponse_field
        (initial (decoderOf TCreateNoteResponse)) x). cbn [initial decoderOf].
      rewrite <- (app_nil_r (bytesField 1 _)).
      read_nested Hs Hlen Hdn. by rewrite decodeFrom_nil.
  - by exists [].
Qed.

Lemma roundtrip_GetNoteResponse (m : GetNoteResponse) :
  wellFormedOptionalNote (got_note m) →
  ∃ bs, encodeGetNoteResponse m = Ok bs ∧
        (Z.of_nat (length bs) ≤ MAX_SAFE_INTEGER →
         decodeGetNoteResponse bs = Ok m).
Proof.
  destruct m as [[n|]]; cbn [got_note wellFormedOptionalNote]; intros Hwf.
  - destruct (roundtrip_Note n Hwf) as (bn & Hen & Hdn).
    exists (bytesField 1 bn). split.
    + apply emits_written. by apply (emits_nested encodeNote).
    + intros Hlen.
      pose proof (fieldOf_streaming TGetNoteResponse) as Hs. cbn [fieldOf decoderOf] in Hs.
      change (decodeGetNoteResponse ?x) with (decodeFrom decodeGetNoteResponse_field
        (initial (decoderOf TGetNoteResponse)) x). cbn [initial decoderOf].
      rewrite <- (app_nil_r (bytesField 1 _)).
      read_nested Hs Hlen Hdn. by rewrite decodeFrom_nil.
  - by exists [].
Qed.

Lemma roundtrip_UpdateNoteResponse (m : UpdateNoteResponse) :
  wellFormedOptionalNote (updated_note m) →
  ∃ bs, encodeUpdateNoteResponse m = Ok bs ∧
        (Z.of_nat (length bs) ≤ MAX_SAFE_INTEGER →
         decodeUpdateNoteResponse bs = Ok m).
Proof.
  destruct m as [[n|]]; cbn [updated_note wellFormedOptionalNote]; intros Hwf.
  - destruct (roundtrip_Note n Hwf) as (bn & Hen & Hdn).
    exists (bytesField 1 bn). split.
    + apply emits_written. by apply (emits_nested encodeNote).
    + intros Hlen.
      pose proof (fieldOf_streaming TUpdateNoteResponse) as Hs. cbn [fieldOf decoderOf] in Hs.
      change (decodeUpdateNoteResponse ?x) with (decodeFrom decodeUpdateNoteResponse_field
        (initial (decoderOf TUpdateNoteResponse)) x). cbn [initial decoderOf].
      rewrite <- (app_nil_r (bytesField 1 _)).
      read_nested Hs Hlen Hdn. by rewrite decodeFrom_nil.
  - by exists [].
Qed.

Lemma roundtrip_notes (items : list Note) :
  Forall wellFormedNote items →
  ∃ out, emits (writeNotes items) out ∧
    (Z.of_nat (length out) ≤ MAX_SAFE_INTEGER →
     ∀ earlier,
       decodeFrom decodeListNotesResponse_field {| notes := earlier |} out
       = Ok {| notes := earlier ++ items |}).
Proof.
  pose proof (fieldOf_streaming TListNotesResponse) as Hs. cbn [fieldOf decoderOf] in Hs.
  induction 1 as [|n rest Hn _ (out & Hemits & Hdecode)].
  - exists []. split; [apply emits_ret|]. intros _ earlier.
    by rewrite decodeFrom_nil, app_nil_r.
  - destruct (roundtrip_Note n Hn) as (bn & Hen & Hdn).
    exists (bytesField 1 bn ++ out). split.
    + cbn [writeNotes]. eapply emits_lift; [exact Hen|].
      apply emits_bind; [apply emits_bytesField|done].
    + intros Hlen earlier. rewrite length_app in Hlen.
      read_nested Hs Hlen Hdn. cbn [notes].
      rewrite Hdecode by lia. by rewrite <- app_assoc.
Qed.

Lemma roundtrip_ListNotesResponse (m : ListNotesResponse) :
  Forall wellFormedNote (notes m) →
  ∃ bs, encodeListNotesResponse m = Ok bs ∧
        (Z.of_nat (length bs) ≤ MAX_SAFE_INTEGER →
         decodeListNotesResponse bs = Ok m).
Proof.
  destruct m as [items]. cbn [notes]. intros Hwf.
  destruct (roundtrip_notes items Hwf) as (out & Hemits & Hdecode).
  exists out. split; [by apply emits_written|].
  intros Hlen. exact (Hdecode Hlen []).
Qed.

Lemma roundtrip_NoteEvent (m : NoteEvent) :
  wellFormedNoteEvent m →
  ∃ bs, encodeNoteEvent m = Ok bs ∧
        (Z.of_nat (length bs) ≤ MAX_SAFE_INTEGER → decodeNoteEvent bs = Ok m).
Proof.
  pose proof (fieldOf_streaming TNoteEvent) as Hs. cbn [fieldOf decoderOf] in Hs.
  destruct m as [note|delta|deleted|]; cbn [wellFormedNoteEvent]; intros Hwf.
  - destruct (roundtrip_Note note Hwf) as (bn & Hen & Hdn).
    exists (bytesField 1 bn). split.
    + apply emits_written. by apply (emits_nested encodeNote).
    + intros Hlen.
      change (decodeNoteEvent ?x) with (decodeFrom decodeNoteEvent_field EventUndefined x).
      rewrite <- (app_nil_r (bytesField 1 _)).
      read_nested Hs Hlen Hdn. by rewrite decodeFrom_nil.
  - destruct (roundtrip_NoteDelta delta Hwf) as (bn & Hen & Hdn).
    exists (bytesField 2 bn). split.
    + apply emits_written. by apply (emits_nested encodeNoteDelta).
    + intros Hlen.
      change (decodeNoteEvent ?x) with (decodeFrom decodeNoteEvent_field EventUndefined x).
      rewrite <- (app_nil_r (bytesField 2 _)).
      read_nested Hs Hlen Hdn. by rewrite decodeFrom_nil.
  - destruct (roundtrip_NoteDeleted deleted Hwf) as (bn & Hen & Hdn).
    exists (bytesField 3 bn). split.
    + apply emits_written. by apply (emits_nested encodeNoteDeleted).
    + intros Hlen.
      change (decodeNoteEvent ?x) with (decodeFrom decodeNoteEvent_field EventUndefined x).
      rewrite <- (app_nil_r (bytesField 3 _)).
      read_nested Hs Hlen Hdn. by rewrite decodeFrom_nil.
  - by exists [].
Qed.

(** Whatever the host's text codec is: a message whose integer fields are
    non-negative safe integers and whose strings that codec gives back
    unchanged encodes without error, and the bytes, held in a typed
    array, decode to the message itself. *)
Lemma roundtrip_Message (m : Message) :
  wellFormed m →
  ∃ bs, encode m = Ok bs ∧
        (Z.of_nat (length bs) ≤ MAX_SAFE_INTEGER →
         decode (messageType m) bs = Ok m).
Proof.
  destruct m as [m|m|m|m|m|m|m|m|m|m|m]; cbn [wellFormed encode decode messageType];
    intros Hwf.
  - destruct (roundtrip_Note m Hwf) as (bs & He & Hd).
    exists bs. split; [done|]. intros Hlen. by rewrite Hd.
  - destruct Hwf as [Ht Hb].
    destruct (roundtrip_CreateNoteRequest m Ht Hb) as (bs & He & Hd).
    exists bs. split; [done|]. intros Hlen. by rewrite Hd.
  - destruct (roundtrip_CreateNoteResponse m Hwf) as (bs & He & Hd).
    exists bs. split; [done|]. intros Hlen. by rewrite Hd.
  - destruct (roundtrip_GetNoteResponse m Hwf) as (bs & He & Hd).
    exists bs. split; [done|]. intros Hlen. by rewrite Hd.
  - destruct (roundtrip_ListNotesResponse m Hwf) as (bs & He & Hd).
    exists bs. split; [done|]. intros Hlen. by rewrite Hd.
  - destruct Hwf as [Ht Hb].
    destruct (roundtrip_UpdateNoteRequest m Ht Hb) as (bs & He & Hd).
    exists bs. split; [done|]. intros Hlen. by rewrite Hd.
  - destruct (roundtrip_UpdateNoteResponse m Hwf) as (bs & He & Hd).
    exists bs. split; [done|]. intros Hlen. by rewrite Hd.
  - destruct (roundtrip_DeleteNoteResponse m Hwf) as (bs & He & Hd).
    exists bs. split; [done|]. intros Hlen. by rewrite Hd.
  - destruct (roundtrip_NoteDelta m Hwf) as (bs & He & Hd).
    exists bs. split; [done|]. intros Hlen. by rewrite Hd.
  - destruct (roundtrip_NoteDeleted m Hwf) as (bs & He & Hd).
    exists bs. split; [done|]. intros Hlen. by rewrite Hd.
  - destruct (roundtrip_NoteEvent m Hwf) as (bs & He & Hd).
    exists bs. split; [done|]. intros Hlen. by rewrite Hd.
Qed.

(** *** Integer fields *)

Lemma numberToVarint_rejects v :
  isNegative v = true ∨ isFinite v = false →
  numberToVarint v = Throw (NotFiniteNonNegative v).
Proof.
  intros [H|H]; unfold numberToVarint; rewrite H; [|done].
  by rewrite orb_true_r.
Qed.

Lemma numberToVarint_settled v :
  (∃ z, v = Integer z ∧ 0 ≤ z ≤ MAX_SAFE_INTEGER ∧ numberToVarint v = Ok z) ∨
  (∃ e, numberToVarint v = Throw e).
Proof.
  unfold numberToVarint.
  destruct (negb (isFinite v) || isNegative v) eqn:Hbad; [right; eauto|].
  destruct (negb (isSafeInteger v)) eqn:Hsafe; [right; eauto|].
  destruct v as [| |z|]; try done. left. exists z.
  apply orb_false_elim in Hbad as [_ Hneg]. apply negb_false_iff in Hsafe.
  unfold isNegative, isSafeInteger in *.
  apply bool_decide_eq_false in Hneg. apply bool_decide_eq_true in Hsafe.
  split_and!; [done|lia|lia|done].
Qed.

Lemma throws_writeInt64 fn v :
  isNegative v = true ∨ isFinite v = false →
  ∀ w, writeInt64 fn v w = Throw (NotFiniteNonNegative v).
Proof.
  intros Hbad w. unfold writeInt64, bind, writeTag, writeVarint, lift.
  by rewrite (numberToVarint_rejects v Hbad).
Qed.

Lemma settled_writeInt64 fn v : settled (writeInt64 fn v).
Proof.
  destruct (numberToVarint_settled v) as [(z & -> & Hz & _)|[e He]].
  - left. eexists. by apply emits_writeInt64.
  - right. intros w. exists e.
    unfold writeInt64, bind, writeTag, writeVarint, lift. by rewrite He.
Qed.

Lemma throws_bind_l m k : throws m → throws (m;; k).
Proof. intros Hm w. destruct (Hm w) as [e He]. exists e. unfold bind. by rewrite He. Qed.

Lemma throws_after m k : settled m → throws k → throws (m;; k).
Proof.
  intros [(out & raw & Hm & _)|Hm] Hk; [|by apply throws_bind_l].
  intros w. unfold bind. rewrite Hm. apply Hk.
Qed.

Lemma settled_bind m k : settled m → settled k → settled (m;; k).
Proof.
  intros Hm [(out2 & Hk)|Hk]; [|right; by apply throws_after].
  destruct Hm as [(out1 & Hm)|Hm]; [|right; by apply throws_bind_l].
  left. eexists. by apply emits_bind.
Qed.

Lemma settled_emits m out : emits m out → settled m.
Proof. left. eauto. Qed.

Lemma throws_nested {A} (enc : A → Result (list byte)) (x : A) k e :
  enc x = Throw e → throws (let! payload := lift (enc x) in k payload).
Proof. intros He w. exists e. unfold bind, lift. by rewrite He. Qed.

Lemma written_throws m : throws m → ∃ e, written m = Throw e.
Proof. intros Hm. destruct (Hm newWriter) as [e He]. exists e. unfold written. by rewrite He. Qed.

Lemma written_settled m :
  settled m → (∃ bs, written m = Ok bs) ∨ (∃ e, written m = Throw e).
Proof.
  intros [(out & Hm)|Hm]; [left|right; by apply written_throws].
  exists out. by apply emits_written.
Qed.

Ltac solve_settled :=
  repeat lazymatch goal with
  | |- settled (bind _ _) => apply settled_bind
  | |- settled (writeInt64 _ _) => apply settled_writeInt64
  | |- settled (writeString _ _) => eapply settled_emits, emits_writeString
  | |- settled (writeOptionalString _ _) =>
      eapply settled_emits, emits_writeOptionalString
  | |- settled (writeMessage _ _) => eapply settled_emits, emits_bytesField
  end.

Ltac solve_throws Hbad :=
  repeat lazymatch goal with
  | |- throws (writeInt64 _ _) =>
      intros w; eexists; by apply throws_writeInt64
  | |- throws (bind _ _) =>
      first [ apply throws_bind_l; solve [solve_throws Hbad]
            | apply throws_after; [solve [solve_settled]|] ]
  end.

Lemma encodeNote_rejects (m : Note) v :
  v ∈ int64sOfNote m → isNegative v = true ∨ isFinite v = false →
  ∃ e, encodeNote m = Throw e.
Proof.
  unfold int64sOfNote. rewrite !elem_of_cons, elem_of_nil.
  intros Hv Hbad. apply written_throws.
  destruct Hv as [->|[->|[->|[->|[]]]]]; solve_throws Hbad.
Qed.

Lemma encodeNote_settled (m : Note) :
  (∃ bs, encodeNote m = Ok bs) ∨ (∃ e, encodeNote m = Throw e).
Proof. apply written_settled. solve_settled. Qed.

Lemma encodeNoteDelta_rejects (m : NoteDelta) v :
  v ∈ int64sOfNoteDelta m → isNegative v = true ∨ isFinite v = false →
  ∃ e, encodeNoteDelta m = Throw e.
Proof.
  unfold int64sOfNoteDelta. rewrite !elem_of_cons, elem_of_nil.
  intros Hv Hbad. apply written_throws.
  destruct Hv as [->|[->|[->|[]]]]; solve_throws Hbad.
Qed.

Lemma encodeNoteDeleted_rejects (m : NoteDeleted) v :
  v ∈ [deleted_id m] → isNegative v = true ∨ isFinite v = false →
  ∃ e, encodeNoteDeleted m = Throw e.
Proof.
  rewrite !elem_of_cons, elem_of_nil.
  intros [->|[]] Hbad. apply written_throws. solve_throws Hbad.
Qed.

Lemma writeOptionalNote_rejects (m : option Note) v :
  v ∈ from_option int64sOfNote [] m → isNegative v = true ∨ isFinite v = false →
  ∃ e, written (writeOptionalNote m) = Throw e.
Proof.
  destruct m as [n|]; cbn [from_option]; [|by intros ?%elem_of_nil].
  intros Hv Hbad. destruct (encodeNote_rejects n v Hv Hbad) as [e He].
  apply written_throws. by apply (throws_nested encodeNote n _ e).
Qed.

Lemma writeNotes_rejects (items : list Note) v :
  v ∈ items ≫= int64sOfNote → isNegative v = true ∨ isFinite v = false →
  throws (writeNotes items).
Proof.
  intros Hv Hbad. induction items as [|n rest IH].
  - by apply elem_of_nil in Hv.
  - rewrite bind_cons, elem_of_app in Hv. cbn [writeNotes].
    destruct (encodeNote_settled n) as [[bn Hn]|[e Hn]].
    + destruct Hv as [Hv|Hv].
      { destruct (encodeNote_rejects n v Hv Hbad) as [e He]. congruence. }
      intros w. unfold bind at 1, lift. rewrite Hn.
      apply throws_after; [solve_settled|auto].
    + by apply (throws_nested encodeNote n _ e).
Qed.

Lemma encode_rejects (m : Message) v :
  v ∈ int64sOf m → isNegative v = true ∨ isFinite v = false →
  ∃ e, encode m = Throw e.
Proof.
  intros Hv Hbad.
  destruct m as [m|m|m|m|m|m|m|m|m|m|m]; cbn [int64sOf encode] in *;
    try (by apply elem_of_nil in Hv).
  - by apply (encodeNote_rejects m v).
  - by apply (writeOptionalNote_rejects _ v).
  - by apply (writeOptionalNote_rejects _ v).
  - apply written_throws. by apply (writeNotes_rejects _ v).
  - by apply (writeOptionalNote_rejects _ v).
  - apply list_elem_of_singleton in Hv as ->.
    apply written_throws. solve_throws Hbad.
  - by apply (encodeNoteDelta_rejects m v).
  - by apply (encodeNoteDeleted_rejects m v).
  - destruct m as [note|delta|deleted|]; [| | |by apply elem_of_nil in Hv].
    + destruct (encodeNote_rejects note v Hv Hbad) as [e He].
      apply written_throws. by apply (throws_nested encodeNote note _ e).
    + destruct (encodeNoteDelta_rejects delta v Hv Hbad) as [e He].
      apply written_throws. by apply (throws_nested encodeNoteDelta delta _ e).
    + destruct (encodeNoteDeleted_rejects deleted v Hv Hbad) as [e He].
      apply written_throws. by apply (throws_nested encodeNoteDeleted deleted _ e).
Qed.

Lemma readVarint_nonneg r v r' : readVarint r = Ok (v, r') → 0 ≤ v.
Proof.
  unfold readVarint. rewrite readVarint_loop_parse.
  destruct (parseVarint _ 0 0) as [[v' n]| |] eqn:Hp; [|done..].
  intros [= <- _]. by eapply parseVarint_nonneg; [| |exact Hp].
Qed.

(** C6: an integer field is taken exactly or refused. Writing a number
    that is negative or not finite throws, in [writeInt64] and so in
    every encoder that reaches it; reading a varint above the largest
    safe integer throws, in [readInt64] and so in every decoder that
    reads such a field; a varint up to the largest safe integer is
    returned as it is. *)
Theorem int64_exact_or_rejected :
  (∀ fn v w, isNegative v = true ∨ isFinite v = false →
     writeInt64 fn v w = Throw (NotFiniteNonNegative v)) ∧
  (∀ (m : Message) v, v ∈ int64sOf m →
     isNegative v = true ∨ isFinite v = false →
     ∃ e, encode m = Throw e) ∧
  (∀ r v r', readVarint r = Ok (v, r') →
     readInt64 r = if bool_decide (MAX_SAFE_INTEGER < v)
                   then Throw (Int64ExceedsSafe v)
                   else Ok (Integer v, r')) ∧
  (∀ T pre aligned fn wt v tail,
     decode T pre = Ok aligned →
     schema T fn = Some Int64Field → validFieldNumber fn → 0 ≤ wt < 8 →
     MAX_SAFE_INTEGER < v < 2 ^ 70 →
     decode T (pre ++ tagBytes fn wt ++ (byte_of_Z <$> varintBytes v) ++ tail)
     = Throw (Int64ExceedsSafe v)).
Proof.
  split_and!.
  - intros fn v w Hbad. by apply throws_writeInt64.
  - apply encode_rejects.
  - intros r v r' Hr. pose proof (readVarint_nonneg _ _ _ Hr) as Hv.
    unfold readInt64, bind. rewrite Hr. case_bool_decide as Hmax; [done|].
    unfold ret. rewrite bigintToNumber_small; [done|].
    unfold MAX_SAFE_INTEGER in Hmax. lia.
  - intros T pre aligned fn wt v tail (message & Hpre & _)%decode_ok Hs Hfn Hwt Hv.
    rewrite decode_eq, (decodeFrom_app _ (fieldOf_streaming T) pre _ message) by done.
    rewrite decodeFrom_throws with (e := Int64ExceedsSafe v);
      [done|apply fieldOf_streaming|done|done|].
    apply fieldOf_int64_throws; [done|]. by apply view_readInt64_unsafe.
Qed.

(** The fuel the loops are given is never used up: every decoder returns
    a message or throws. *)
Lemma decodeFrom_terminates {T} (field : Z → Z → T → Eff Reader T) :
  (∀ fn wt message, Streaming (field fn wt message)) →
  (∀ fn wt message bs, view (field fn wt message) bs ≠ OutOfFuel) →
  ∀ bs message, decodeFrom field message bs ≠ OutOfFuel.
Proof.
  intros Hs Hfield bs.
  induction bs as [bs IH] using (induction_ltof1 _ length). unfold ltof in IH.
  intros message. rewrite decodeFrom_eq by done. destruct bs as [|b bs]; [done|].
  destruct (view _ (b :: bs)) as [[message' n]| |] eqn:Hv; [|done|].
  - apply readField_progress in Hv; [|done]. apply IH.
    rewrite length_drop. simpl in *. lia.
  - rewrite view_readField, view_readTag in Hv by done.
    destruct (parseVarint _ 0 0) as [[v n]| |] eqn:Hp; [|done|].
    + destruct (view _ (drop n (b :: bs))) as [[m' n2]| |] eqn:Hf; [done..|].
      by apply Hfield in Hf.
    + by apply parseVarint_returns_or_throws in Hp.
Qed.

Lemma view_readInt64_returns_or_throws bs : view readInt64 bs ≠ OutOfFuel.
Proof.
  rewrite view_readInt64.
  destruct (parseVarint bs 0 0) as [[v n]| |] eqn:Hp; [by case_bool_decide|done|].
  by apply parseVarint_returns_or_throws in Hp.
Qed.

Lemma view_readBytes_returns_or_throws bs : view readBytes bs ≠ OutOfFuel.
Proof.
  rewrite view_readBytes.
  destruct (parseVarint bs 0 0) as [[v n]| |] eqn:Hp; [by case_bool_decide|done|].
  by apply parseVarint_returns_or_throws in Hp.
Qed.

Lemma view_skipField_returns_or_throws wt bs : view (skipField wt) bs ≠ OutOfFuel.
Proof.
  destruct (decide (wt = 0)) as [->|H0]; [|destruct (decide (wt = 2)) as [->|H2]].
  - rewrite view_skipField_varint.
    destruct (parseVarint bs 0 0) as [[v n]| |] eqn:Hp; [done..|].
    by apply parseVarint_returns_or_throws in Hp.
  - rewrite view_skipField_length_delimited.
    destruct (parseVarint bs 0 0) as [[v n]| |] eqn:Hp; [by case_bool_decide|done|].
    by apply parseVarint_returns_or_throws in Hp.
  - by rewrite view_skipField_unsupported.
Qed.

Lemma whileNotEof_decodeFrom {T} (field : Z → Z → T → Eff Reader T) message bs :
  decodeMessage bs (whileNotEof field message) = decodeFrom field message bs.
Proof. done. Qed.

Lemma fieldOf_returns_or_throws T fn wt message bs :
  (∀ T' content, nested T fn = Some T' → decode T' content ≠ OutOfFuel) →
  view (fieldOf (decoderOf T) fn wt message) bs ≠ OutOfFuel.
Proof.
  intros Hnested.
  pose proof (view_readInt64_returns_or_throws bs) as Hint.
  pose proof (view_readBytes_returns_or_throws bs) as Hbytes.
  pose proof (view_skipField_returns_or_throws wt bs) as Hskip.
  destruct T; field_cases fn; cbn [fieldOf decoderOf]; unfold_fields;
    rewrite ?view_skip_ret, ?view_bind_ret, ?view_readString,
      ?view_bind_lift_ret by apply _;
    try (destruct (view readInt64 bs) as [[??]| |]; done);
    try (destruct (view (skipField wt) bs) as [[??]| |]; done);
    destruct (view readBytes bs) as [[content ?]| |]; try done.
  all: first
    [ specialize (Hnested TNote content eq_refl)
    | specialize (Hnested TNoteDelta content eq_refl)
    | specialize (Hnested TNoteDeleted content eq_refl) ];
    cbn [decode] in Hnested.
  all: first
    [ by destruct (decodeNote content)
    | by destruct (decodeNoteDelta content)
    | by destruct (decodeNoteDeleted content) ].
Qed.

(** The fuel is an artefact of the model: no decoder runs out of it. *)
Lemma decode_returns_or_throws T bs : decode T bs ≠ OutOfFuel.
Proof.
  assert (∀ T, (∀ fn T' content, nested T fn = Some T' → decode T' content ≠ OutOfFuel) →
               ∀ bs, decode T bs ≠ OutOfFuel) as Hloop.
  { intros T0 Hnested bs0. rewrite decode_eq.
    pose proof (decodeFrom_terminates _ (fieldOf_streaming T0)
      (λ fn wt message bs, fieldOf_returns_or_throws T0 fn wt message bs (Hnested fn))
      bs0 (initial (decoderOf T0))) as Hterm.
    by destruct (decodeFrom _ _ bs0). }
  assert (∀ bs, decode TNote bs ≠ OutOfFuel) as HNote.
  { apply Hloop. intros fn T' content H. by field_cases fn. }
  assert (∀ bs, decode TNoteDelta bs ≠ OutOfFuel) as HDelta.
  { apply Hloop. intros fn T' content H. by field_cases fn. }
  assert (∀ bs, decode TNoteDeleted bs ≠ OutOfFuel) as HDeleted.
  { apply Hloop. intros fn T' content H. by field_cases fn. }
  apply Hloop. intros fn T' content H.
  destruct T; field_cases fn; try done; injection H as <-; done.
Qed.

(** *** Further properties of the wire format *)

Lemma varintBytes_shape (k : nat) : ∀ v,
  0 ≤ v < 2 ^ (7 * Z.of_nat (S k)) →
  ∃ groups last,
    varintBytes v = groups ++ [last] ∧
    Forall (λ g, ∃ x, g = Z.lor (Z.land x 127) 128) groups ∧
    0 ≤ last < 128 ∧ (v ≠ 0 → last ≠ 0) ∧ (length groups ≤ k)%nat.
Proof.
  induction k as [|k IH]; intros v Hv; rewrite varintBytes_eq; case_decide as Hbig.
  - change (2 ^ (7 * Z.of_nat 1)) with 128 in Hv. lia.
  - exists [], v. change (2 ^ (7 * Z.of_nat 1)) with 128 in Hv.
    split_and!; [done|apply Forall_nil_2|lia|lia|done|simpl; lia].
  - assert (2 ^ (7 * Z.of_nat (S (S k))) = 128 * 2 ^ (7 * Z.of_nat (S k))) as Hpow.
    { rewrite (Nat2Z.inj_succ (S k)).
      replace (7 * Z.succ (Z.of_nat (S k))) with (7 + 7 * Z.of_nat (S k)) by lia.
      by rewrite Z.pow_add_r by lia. }
    destruct (IH (Z.shiftr v 7)) as (groups & last & Heq & Hgroups & Hlast & Hnz & Hlen).
    { rewrite Z.shiftr_div_pow2 by lia. change (2 ^ 7) with 128. split.
      - apply Z.div_pos; lia.
      - apply Z.div_lt_upper_bound; lia. }
    exists (Z.lor (Z.land v 127) 128 :: groups), last. rewrite Heq.
    split_and!; [done| |lia|lia| |simpl; lia].
    + constructor; [by exists v|done].
    + intros _. apply Hnz. rewrite Z.shiftr_div_pow2 by lia. change (2 ^ 7) with 128.
      assert (1 ≤ v `div` 128) by (apply Z.div_le_lower_bound; lia). lia.
  - exists [], v. split_and!; [done|apply Forall_nil_2|lia|lia|done|simpl; lia].
Qed.

Lemma written_writeVarint v : written (writeVarint v) = Ok (byte_of_Z <$> varintBytes v).
Proof. apply emits_written, emits_varint. Qed.

Lemma Streaming_in_bounds {A} (m : Eff Reader A) `{!Streaming m} r a r' :
  (offset r ≤ length (payload r))%nat → m r = Ok (a, r') →
  payload r' = payload r ∧
  ∃ n, view m (remaining r) = Ok (a, n) ∧ offset r' = (offset r + n)%nat ∧
       (offset r' ≤ length (payload r))%nat.
Proof.
  intros Hin. rewrite (streaming_local r Hin).
  destruct (view m (remaining r)) as [[a' n]| |] eqn:Hv; [|done..].
  simpl. intros [= <- <-]. split; [done|]. exists n.
  apply streaming_bound in Hv. rewrite remaining_length in Hv.
  cbn [seek offset]. split_and!; [done|done|lia].
Qed.

Lemma readVarint_at before bs tail v :
  parseVarint (bs ++ tail) 0 0 = Ok (v, length bs) →
  readVarint {| payload := before ++ bs ++ tail; offset := length before |}
  = Ok (v, {| payload := before ++ bs ++ tail;
              offset := length before + length bs |}).
Proof.
  intros Hparse.
  rewrite (streaming_local (m := readVarint)) by (cbn; rewrite length_app; lia).
  unfold remaining. cbn [payload offset].
  by rewrite drop_app_length, view_readVarint, Hparse.
Qed.

(** X18: the varint format: a value below [2 ^ 70] is written as one to
    ten bytes, at most eight for a safe integer; every byte but the last
    has the continuation bit set, the last has not and is not zero
    unless the value is zero; and [readVarint], placed at the first of
    these bytes anywhere in a payload, returns the value and stops right
    behind the last of them. *)
Theorem varint_wire_format v :
  0 ≤ v < 2 ^ 70 →
  ∃ bs, written (writeVarint v) = Ok bs ∧
    (1 ≤ length bs ≤ 10)%nat ∧
    (v ≤ MAX_SAFE_INTEGER → (length bs ≤ 8)%nat) ∧
    (∃ groups last, bs = groups ++ [last] ∧
       Forall continues groups ∧ ¬ continues last ∧
       (v ≠ 0 → byte_to_Z last ≠ 0)) ∧
    ∀ before tail,
      readVarint {| payload := before ++ bs ++ tail; offset := length before |}
      = Ok (v, {| payload := before ++ bs ++ tail;
                  offset := length before + length bs |}).
Proof.
  intros Hv. exists (byte_of_Z <$> varintBytes v).
  split; [apply written_writeVarint|].
  destruct (varintBytes_shape 9 v) as (groups & last & Heq & Hgroups & Hlast & Hnz & Hlen);
    [done|].
  split_and!.
  - rewrite length_fmap, Heq, length_app. simpl. lia.
  - rewrite length_fmap, Heq, length_app. simpl. lia.
  - intros Hsafe. unfold MAX_SAFE_INTEGER in Hsafe.
    destruct (varintBytes_shape 7 v) as (groups' & last' & Heq' & _ & _ & _ & Hlen');
      [change (2 ^ (7 * Z.of_nat 8)) with (2 ^ 56); lia|].
    rewrite length_fmap, Heq', length_app. simpl. lia.
  - exists (byte_of_Z <$> groups), (byte_of_Z last).
    rewrite Heq, fmap_app. split_and!; [done| | |].
    + apply Forall_fmap. eapply Forall_impl; [exact Hgroups|].
      intros g [x ->]. unfold continues. simpl.
      rewrite byte_to_of_Z by (pose proof (group_byte_range x); lia).
      apply group_byte_continues.
    + unfold continues. rewrite byte_to_of_Z by lia.
      rewrite small_no_continuation by done. by intros H.
    + rewrite byte_to_of_Z by lia. done.
  - intros before tail. apply readVarint_at.
    rewrite length_fmap. by apply parseVarint_written.
Qed.

(** X19: the reader stays inside its payload: from a reader whose offset
    is within the payload, every method that returns leaves the payload
    as it is and the offset further on and still within the payload;
    [readBytes] returns the bytes of the payload that end at the new
    offset. *)
Theorem reader_stays_in_bounds r :
  (offset r ≤ length (payload r))%nat →
  (∀ v r', readVarint r = Ok (v, r') →
     payload r' = payload r ∧ (offset r < offset r' ≤ length (payload r))%nat) ∧
  (∀ tag r', readTag r = Ok (tag, r') →
     payload r' = payload r ∧ (offset r < offset r' ≤ length (payload r))%nat) ∧
  (∀ v r', readInt64 r = Ok (v, r') →
     payload r' = payload r ∧ (offset r < offset r' ≤ length (payload r))%nat) ∧
  (∀ content r', readBytes r = Ok (content, r') →
     payload r' = payload r ∧ (offset r < offset r' ≤ length (payload r))%nat ∧
     content = subarray (payload r) (offset r' - length content) (offset r')) ∧
  (∀ wireType r', skipField wireType r = Ok (tt, r') →
     payload r' = payload r ∧ (offset r < offset r' ≤ length (payload r))%nat).
Proof.
  intros Hin. split_and!.
  - intros v r' (Hp & n & Hv & Ho & Hle)%Streaming_in_bounds; [|apply _|done].
    rewrite view_readVarint in Hv. apply parseVarint_bound in Hv. split; [done|lia].
  - intros tag r' (Hp & n & Hv & Ho & Hle)%Streaming_in_bounds; [|apply _|done].
    rewrite view_readTag in Hv.
    destruct (parseVarint _ 0 0) as [[v k]| |] eqn:Hparse; [|done..].
    injection Hv as _ <-. apply parseVarint_bound in Hparse. split; [done|lia].
  - intros x r' (Hp & n & Hv & Ho & Hle)%Streaming_in_bounds; [|apply _|done].
    rewrite view_readInt64 in Hv.
    destruct (parseVarint _ 0 0) as [[v k]| |] eqn:Hparse; [|done..].
    case_bool_decide; [done|].
    injection Hv as _ <-. apply parseVarint_bound in Hparse. split; [done|lia].
  - intros content r' (Hp & n & Hv & Ho & Hle)%Streaming_in_bounds; [|apply _|done].
    rewrite view_readBytes in Hv.
    destruct (parseVarint _ 0 0) as [[v k]| |] eqn:Hparse; [|done..].
    case_bool_decide as Hfit; [done|].
    injection Hv as <- <-.
    pose proof (parseVarint_bound _ _ _ _ _ Hparse) as Hk.
    pose proof (parseVarint_nonneg _ _ _ _ _ (Z.le_refl 0) (Z.le_refl 0) Hparse) as Hv0.
    apply bigintToNumber_nonneg in Hv0.
    split_and!; [done|lia|lia|].
    rewrite remaining_length in *. unfold subarray, remaining.
    rewrite length_take, length_drop, length_drop, Ho, drop_drop.
    f_equal; [lia|f_equal; lia].
  - intros wireType r' (Hp & n & Hv & Ho & Hle)%Streaming_in_bounds; [|apply _|done].
    destruct (decide (wireType = 0)) as [->|H0].
    { rewrite view_skipField_varint in Hv.
      destruct (parseVarint _ 0 0) as [[v k]| |] eqn:Hparse; [|done..].
      injection Hv as <-. apply parseVarint_bound in Hparse. split; [done|lia]. }
    destruct (decide (wireType = 2)) as [->|H2].
    { rewrite view_skipField_length_delimited in Hv.
      destruct (parseVarint _ 0 0) as [[v k]| |] eqn:Hparse; [|done..].
      case_bool_decide; [done|].
      injection Hv as <-. apply parseVarint_bound in Hparse. split; [done|lia]. }
    by rewrite view_skipField_unsupported in Hv.
Qed.

(** *** Tags as the decoders see them *)

Lemma view_readTag_wide fn wt tail :
  0 ≤ fn < 2 ^ 50 → 0 ≤ wt < 8 →
  view readTag (tagBytes fn wt ++ tail)
  = Ok ({| fieldNumber := fn mod 2 ^ 29; wireType := wt |}, length (tagBytes fn wt)).
Proof.
  intros Hfn Hwt.
  rewrite view_readTag, tagBytes_eq, length_fmap, tag_value by done.
  rewrite parseVarint_written by lia.
  rewrite bigintToNumber_small by lia.
  pose proof (Z.div_mod fn (2 ^ 29) ltac:(lia)) as Hsplit.
  pose proof (Z.mod_pos_bound fn (2 ^ 29) ltac:(lia)) as Hlow.
  assert ((8 * fn + wt) mod 2 ^ 32 = 8 * (fn mod 2 ^ 29) + wt) as Hmod.
  { symmetry. apply (Z.mod_unique _ _ (fn `div` 2 ^ 29)); lia. }
  f_equal. f_equal. f_equal.
  - unfold ToUint32. rewrite Hmod.
    rewrite Z.shiftr_div_pow2 by lia. change (2 ^ 3) with 8.
    rewrite Z.mul_comm, Z.div_add_l, Z.div_small by lia. lia.
  - change 7 with (Z.ones 3). rewrite Z.land_ones by lia. change (2 ^ 3) with 8.
    unfold ToInt32. rewrite Hmod.
    case_bool_decide.
    + replace (8 * (fn mod 2 ^ 29) + wt - 2 ^ 32)
        with (wt + (fn mod 2 ^ 29 - 2 ^ 29) * 8) by lia.
      rewrite Z_mod_plus_full. apply Z.mod_small. lia.
    + replace (8 * (fn mod 2 ^ 29) + wt) with (wt + (fn mod 2 ^ 29) * 8) by lia.
      rewrite Z_mod_plus_full. apply Z.mod_small. lia.
Qed.

(** One turn of the loop on a buffer that starts with a tag. *)
Lemma decodeFrom_after_tag {T} (field : Z → Z → T → Eff Reader T)
    message tb tag rest :
  (∀ fn wt message, Streaming (field fn wt message)) →
  tb ≠ [] →
  view readTag (tb ++ rest) = Ok (tag, length tb) →
  decodeFrom field message (tb ++ rest) =
    match view (field (fieldNumber tag) (wireType tag) message) rest with
    | Ok (message', n) => decodeFrom field message' (drop n rest)
    | Throw e => Throw e
    | OutOfFuel => OutOfFuel
    end.
Proof.
  intros Hs Hne Htag. rewrite decodeFrom_eq by done.
  destruct (tb ++ rest) as [|b bs] eqn:Hbs.
  { apply app_eq_nil in Hbs as [-> _]. done. }
  rewrite <- Hbs in Htag |- *. rewrite view_readField, Htag by done.
  rewrite drop_app_length.
  destruct (view _ rest) as [[message' n]| |]; [|done..].
  by rewrite <- drop_drop, drop_app_length.
Qed.

Lemma schema_validFieldNumber T fn : is_Some (schema T fn) → validFieldNumber fn.
Proof.
  destruct T; field_cases fn; intros [k Hk]; try discriminate Hk;
    unfold validFieldNumber; lia.
Qed.

Lemma fieldOf_known T fn wt wt' message :
  is_Some (schema T fn) →
  fieldOf (decoderOf T) fn wt message = fieldOf (decoderOf T) fn wt' message.
Proof.
  destruct T; field_cases fn; intros [k Hk]; try discriminate Hk; reflexivity.
Qed.

(** X20: field numbers wrap at 29 bits: a tag written for a field number
    of more than 29 bits is read as the tag of the field number's low 29
    bits, so the decoders take the field for the one of that number:
    behind a buffer that decodes, a field tagged [fn + k * 2 ^ 29] is
    decoded as the same field tagged [fn]. *)
Theorem field_numbers_wrap_at_29_bits T pre aligned fn k wt rest :
  decode T pre = Ok aligned →
  validFieldNumber fn → 0 ≤ k < 2 ^ 21 → 0 ≤ wt < 8 →
  decode T (pre ++ tagBytes (fn + k * 2 ^ 29) wt ++ rest)
  = decode T (pre ++ tagBytes fn wt ++ rest).
Proof.
  intros Hpre Hfn Hk Hwt. unfold validFieldNumber in Hfn.
  rewrite !decode_eq. f_equal.
  apply decode_ok in Hpre as (message & Hpre & _).
  rewrite !(decodeFrom_app _ (fieldOf_streaming T) _ _ _ _ Hpre).
  rewrite (decodeFrom_after_tag _ _ (tagBytes (fn + k * 2 ^ 29) wt)
             {| fieldNumber := fn; wireType := wt |});
    [|apply fieldOf_streaming|apply tagBytes_nonempty|].
  - rewrite (decodeFrom_after_tag _ _ (tagBytes fn wt)
               {| fieldNumber := fn; wireType := wt |});
      [done|apply fieldOf_streaming|apply tagBytes_nonempty|].
    by apply view_readTag_written.
  - rewrite view_readTag_wide by lia.
    by rewrite Z_mod_plus_full, Z.mod_small by lia.
Qed.

(** X21: the decoders do not look at the wire type of a field they know:
    behind a buffer that decodes, a field of a known number is read in
    the way the decoder reads that field, whichever wire type its tag
    carries, so two buffers that differ in that wire type only decode
    alike. *)
Theorem known_fields_ignore_the_wire_type T pre aligned fn wt wt' rest :
  decode T pre = Ok aligned →
  is_Some (schema T fn) → 0 ≤ wt < 8 → 0 ≤ wt' < 8 →
  decode T (pre ++ tagBytes fn wt ++ rest)
  = decode T (pre ++ tagBytes fn wt' ++ rest).
Proof.
  intros Hpre Hknown Hwt Hwt'.
  pose proof (schema_validFieldNumber T fn Hknown) as Hfn.
  rewrite !decode_eq. f_equal.
  apply decode_ok in Hpre as (message & Hpre & _).
  rewrite !(decodeFrom_app _ (fieldOf_streaming T) _ _ _ _ Hpre).
  rewrite (decodeFrom_after_tag _ _ (tagBytes fn wt)
             {| fieldNumber := fn; wireType := wt |});
    [|apply fieldOf_streaming|apply tagBytes_nonempty|by apply view_readTag_written].
  rewrite (decodeFrom_after_tag _ _ (tagBytes fn wt')
             {| fieldNumber := fn; wireType := wt' |});
    [|apply fieldOf_streaming|apply tagBytes_nonempty|by apply view_readTag_written].
  cbn [fieldNumber wireType]. by rewrite (fieldOf_known T fn wt wt').
Qed.

(** *** Buffers laid end to end *)

Lemma decodeFrom_encodeNote (start m : Note) :
  wellFormedNote m →
  ∃ bs, encodeNote m = Ok bs ∧
        (Z.of_nat (length bs) ≤ MAX_SAFE_INTEGER →
         decodeFrom decodeNote_field start bs = Ok m).
Proof.
  destruct m as [i t b c u v]. intros (Hi & Ht & Hb & Hc & Hu & Hv).
  cbn [id title body created_at_unix_ms updated_at_unix_ms version] in *.
  integers_of m. eexists. split.
  - apply emits_written. solve_emits.
  - intros Hlen. rewrite !length_app in Hlen.
    pose proof (fieldOf_streaming TNote) as Hs. cbn [fieldOf decoderOf] in Hs.
    rewrite <- (app_nil_r (varintField 6 _)).
    do 6 read_field Hs Hlen.
    rewrite decodeFrom_nil by done.
    cbn [id title body created_at_unix_ms updated_at_unix_ms version].
    unfold textSurvives in *. by rewrite Ht, Hb.
Qed.

Lemma decodeNote_eq bs :
  decodeNote bs = decodeFrom decodeNote_field (initial (decoderOf TNote)) bs.
Proof. done. Qed.

Lemma decodeListNotesResponse_eq bs :
  decodeListNotesResponse bs
  = decodeFrom decodeListNotesResponse_field {| notes := [] |} bs.
Proof. done. Qed.

(** X22: buffers laid end to end merge as protobuf messages do. An
    encoded note behind any buffer that decodes as a note replaces every
    field: the two together decode to the later note. An encoded list
    behind any buffer that decodes as a list is appended: the two
    together decode to the notes of the first followed by the notes of
    the second. *)
Theorem concatenated_buffers_merge :
  (∀ bs1 (m1 m2 : Note) bs2,
     decodeNote bs1 = Ok m1 → wellFormedNote m2 → encodeNote m2 = Ok bs2 →
     Z.of_nat (length bs2) ≤ MAX_SAFE_INTEGER →
     decodeNote (bs1 ++ bs2) = Ok m2) ∧
  (∀ bs1 (l1 l2 : ListNotesResponse) bs2,
     decodeListNotesResponse bs1 = Ok l1 →
     Forall wellFormedNote (notes l2) → encodeListNotesResponse l2 = Ok bs2 →
     Z.of_nat (length bs2) ≤ MAX_SAFE_INTEGER →
     decodeListNotesResponse (bs1 ++ bs2) = Ok {| notes := notes l1 ++ notes l2 |}).
Proof.
  split.
  - intros bs1 m1 m2 bs2 H1 Hwf H2 Hlen.
    rewrite decodeNote_eq in H1 |- *.
    pose proof (fieldOf_streaming TNote) as Hs. cbn [fieldOf decoderOf] in Hs.
    rewrite (decodeFrom_app _ Hs _ _ _ _ H1).
    destruct (decodeFrom_encodeNote m1 m2 Hwf) as (bs & Hbs & Hdecode).
    rewrite H2 in Hbs. injection Hbs as <-. by apply Hdecode.
  - intros bs1 [items1] [items2] bs2 H1 Hwf H2 Hlen. cbn [notes] in *.
    rewrite decodeListNotesResponse_eq in H1 |- *.
    pose proof (fieldOf_streaming TListNotesResponse) as Hs.
    cbn [fieldOf decoderOf] in Hs.
    rewrite (decodeFrom_app _ Hs _ _ _ _ H1).
    destruct (roundtrip_notes items2 Hwf) as (out & Hemits & Hdecode).
    unfold encodeListNotesResponse in H2. cbn [notes] in H2.
    rewrite (emits_written _ _ Hemits) in H2. injection H2 as <-.
    by apply Hdecode.
Qed.

(** X23: decoding always comes to an end: on every buffer each decoder
    returns a message or throws; the loop cannot go on for ever, since
    every turn reads at least the first byte of a tag. *)
Theorem decode_always_settles T bs :
  (∃ m, decode T bs = Ok m) ∨ (∃ e, decode T bs = Throw e).
Proof.
  pose proof (decode_returns_or_throws T bs) as Hfuel.
  destruct (decode T bs) as [m|e|]; [left|right|done]; by eexists.
Qed.

(** *** The numbers the encoders accept *)

Lemma numberToVarint_unsafe v :
  ¬ safeNumber v → ∃ e, numberToVarint v = Throw e.
Proof.
  intros Hbad. destruct (numberToVarint_settled v) as [(z & -> & Hz & _)|He]; [|done].
  by destruct Hbad.
Qed.

Lemma numberToVarint_not_safe v :
  isFinite v = true → isNegative v = false → ¬ safeNumber v →
  numberToVarint v = Throw (NotSafeInteger v).
Proof.
  intros Hfin Hneg Hbad. unfold numberToVarint. rewrite Hfin, Hneg. cbn [negb orb].
  destruct v as [| |z|f]; try done.
  unfold isSafeInteger. case_bool_decide as Hsafe; [|done].
  destruct Hbad. unfold isNegative in Hneg. apply bool_decide_eq_false in Hneg.
  unfold safeNumber. lia.
Qed.

Lemma throws_writeInt64_unsafe fn v : ¬ safeNumber v → throws (writeInt64 fn v).
Proof.
  intros [e He]%numberToVarint_unsafe w. exists e.
  unfold writeInt64, bind, writeTag, writeVarint, lift. by rewrite He.
Qed.

Ltac solve_unsafe Hbad :=
  repeat lazymatch goal with
  | |- throws (writeInt64 _ _) => by apply throws_writeInt64_unsafe
  | |- throws (bind _ _) =>
      first [ apply throws_bind_l; solve [solve_unsafe Hbad]
            | apply throws_after; [solve [solve_settled]|] ]
  end.

Lemma encodeNote_unsafe (m : Note) v :
  v ∈ int64sOfNote m → ¬ safeNumber v → ∃ e, encodeNote m = Throw e.
Proof.
  unfold int64sOfNote. rewrite !elem_of_cons, elem_of_nil.
  intros Hv Hbad. apply written_throws.
  destruct Hv as [->|[->|[->|[->|[]]]]]; solve_unsafe Hbad.
Qed.

Lemma encodeNoteDelta_unsafe (m : NoteDelta) v :
  v ∈ int64sOfNoteDelta m → ¬ safeNumber v → ∃ e, encodeNoteDelta m = Throw e.
Proof.
  unfold int64sOfNoteDelta. rewrite !elem_of_cons, elem_of_nil.
  intros Hv Hbad. apply written_throws.
  destruct Hv as [->|[->|[->|[]]]]; solve_unsafe Hbad.
Qed.

Lemma encodeNoteDeleted_unsafe (m : NoteDeleted) v :
  v ∈ [deleted_id m] → ¬ safeNumber v → ∃ e, encodeNoteDeleted m = Throw e.
Proof.
  rewrite !elem_of_cons, elem_of_nil.
  intros [->|[]] Hbad. apply written_throws. solve_unsafe Hbad.
Qed.

Lemma writeOptionalNote_unsafe (m : option Note) v :
  v ∈ from_option int64sOfNote [] m → ¬ safeNumber v →
  ∃ e, written (writeOptionalNote m) = Throw e.
Proof.
  destruct m as [n|]; cbn [from_option]; [|by intros ?%elem_of_nil].
  intros Hv Hbad. destruct (encodeNote_unsafe n v Hv Hbad) as [e He].
  apply written_throws. by apply (throws_nested encodeNote n _ e).
Qed.

Lemma writeNotes_unsafe (items : list Note) v :
  v ∈ items ≫= int64sOfNote → ¬ safeNumber v → throws (writeNotes items).
Proof.
  intros Hv Hbad. induction items as [|n rest IH].
  - by apply elem_of_nil in Hv.
  - rewrite bind_cons, elem_of_app in Hv. cbn [writeNotes].
    destruct (encodeNote_settled n) as [[bn Hn]|[e Hn]].
    + destruct Hv as [Hv|Hv].
      { destruct (encodeNote_unsafe n v Hv Hbad) as [e He]. congruence. }
      intros w. unfold bind at 1, lift. rewrite Hn.
      apply throws_after; [solve_settled|auto].
    + by apply (throws_nested encodeNote n _ e).
Qed.

Lemma encode_unsafe (m : Message) v :
  v ∈ int64sOf m → ¬ safeNumber v → ∃ e, encode m = Throw e.
Proof.
  intros Hv Hbad.
  destruct m as [m|m|m|m|m|m|m|m|m|m|m]; cbn [int64sOf encode] in *;
    try (by apply elem_of_nil in Hv).
  - by apply (encodeNote_unsafe m v).
  - by apply (writeOptionalNote_unsafe _ v).
  - by apply (writeOptionalNote_unsafe _ v).
  - apply written_throws. by apply (writeNotes_unsafe _ v).
  - by apply (writeOptionalNote_unsafe _ v).
  - apply list_elem_of_singleton in Hv as ->.
    apply written_throws. solve_unsafe Hbad.
  - by apply (encodeNoteDelta_unsafe m v).
  - by apply (encodeNoteDeleted_unsafe m v).
  - destruct m as [note|delta|deleted|]; [| | |by apply elem_of_nil in Hv].
    + destruct (encodeNote_unsafe note v Hv Hbad) as [e He].
      apply written_throws. by apply (throws_nested encodeNote note _ e).
    + destruct (encodeNoteDelta_unsafe delta v Hv Hbad) as [e He].
      apply written_throws. by apply (throws_nested encodeNoteDelta delta _ e).
    + destruct (encodeNoteDeleted_unsafe deleted v Hv Hbad) as [e He].
      apply written_throws. by apply (throws_nested encodeNoteDeleted deleted _ e).
Qed.

Lemma encodeNote_safe (m : Note) :
  Forall safeNumber (int64sOfNote m) → ∃ bs, encodeNote m = Ok bs.
Proof.
  destruct m as [i t b c u v]. unfold int64sOfNote.
  cbn [id title body created_at_unix_ms updated_at_unix_ms version].
  rewrite !Forall_cons. intros (Hi & Hc & Hu & Hv & _).
  integers_of m. eexists. apply emits_written. solve_emits.
Qed.

Lemma encodeNoteDelta_safe (m : NoteDelta) :
  Forall safeNumber (int64sOfNoteDelta m) → ∃ bs, encodeNoteDelta m = Ok bs.
Proof.
  destruct m as [i t b u v]. unfold int64sOfNoteDelta.
  cbn [delta_id delta_title delta_body delta_updated_at_unix_ms delta_version].
  rewrite !Forall_cons. intros (Hi & Hu & Hv & _).
  integers_of m. eexists. apply emits_written. solve_emits.
Qed.

Lemma encodeNoteDeleted_safe (m : NoteDeleted) :
  Forall safeNumber [deleted_id m] → ∃ bs, encodeNoteDeleted m = Ok bs.
Proof.
  destruct m as [i]. cbn [deleted_id]. rewrite !Forall_cons. intros (Hi & _).
  integers_of m. eexists. apply emits_written. solve_emits.
Qed.

Lemma writeOptionalNote_safe (m : option Note) :
  Forall safeNumber (from_option int64sOfNote [] m) →
  ∃ bs, written (writeOptionalNote m) = Ok bs.
Proof.
  destruct m as [n|]; cbn [from_option].
  - intros [bn Hn]%encodeNote_safe. eexists. apply emits_written.
    by apply (emits_nested encodeNote n).
  - intros _. eexists. apply emits_written, emits_ret.
Qed.

Lemma writeNotes_safe (items : list Note) :
  Forall safeNumber (items ≫= int64sOfNote) → ∃ out, emits (writeNotes items) out.
Proof.
  induction items as [|n rest IH].
  - intros _. eexists. apply emits_ret.
  - rewrite bind_cons, Forall_app. intros [[bn Hn]%encodeNote_safe [out Hout]%IH].
    eexists. cbn [writeNotes]. eapply emits_lift; [exact Hn|].
    apply emits_bind; [apply emits_bytesField|exact Hout].
Qed.

Lemma encode_safe (m : Message) :
  Forall safeNumber (int64sOf m) → ∃ bs, encode m = Ok bs.
Proof.
  destruct m as [m|m|m|m|m|m|m|m|m|m|m]; cbn [int64sOf encode].
  - apply encodeNote_safe.
  - intros _. eexists. apply emits_written. solve_emits.
  - apply writeOptionalNote_safe.
  - apply writeOptionalNote_safe.
  - intros [out Hout]%writeNotes_safe. eexists. by apply emits_written.
  - intros _. eexists. apply emits_written. solve_emits.
  - apply writeOptionalNote_safe.
  - destruct m as [i]. cbn [deleted_response_id]. rewrite !Forall_cons. intros (Hi & _).
    integers_of m. eexists. apply emits_written. solve_emits.
  - apply encodeNoteDelta_safe.
  - apply encodeNoteDeleted_safe.
  - destruct m as [note|delta|deleted|].
    + intros [bn Hn]%encodeNote_safe. eexists. apply emits_written.
      by apply (emits_nested encodeNote note).
    + intros [bn Hn]%encodeNoteDelta_safe. eexists. apply emits_written.
      by apply (emits_nested encodeNoteDelta delta).
    + intros [bn Hn]%encodeNoteDeleted_safe. eexists. apply emits_written.
      by apply (emits_nested encodeNoteDeleted deleted).
    + intros _. eexists. apply emits_written, emits_ret.
Qed.

#[local] Instance safeNumber_dec v : Decision (safeNumber v).
Proof. destruct v; simpl; apply _. Qed.

(** X24: the encoders accept safe integers and nothing else: an encoder
    returns bytes exactly when every number it hands to [writeInt64] is
    an integer between 0 and [Number.MAX_SAFE_INTEGER]; whatever the
    strings are, it throws otherwise. A finite number that is not
    negative and not such an integer, a fraction or an integer beyond
    the safe range, is rejected as not a safe integer, and the
    conversion to a bigint is never reached with a number it would
    refuse. *)
Theorem encode_accepts_safe_integers_only :
  (∀ m : Message, (∃ bs, encode m = Ok bs) ↔ Forall safeNumber (int64sOf m)) ∧
  (∀ m : Message, ¬ Forall safeNumber (int64sOf m) → ∃ e, encode m = Throw e) ∧
  (∀ fn v w, isFinite v = true → isNegative v = false → ¬ safeNumber v →
     writeInt64 fn v w = Throw (NotSafeInteger v)) ∧
  (∀ v, numberToVarint v ≠ Throw RangeError).
Proof.
  assert (∀ m : Message, (∃ bs, encode m = Ok bs) → Forall safeNumber (int64sOf m))
    as Hok.
  { intros m [bs Hbs]. apply Forall_forall. intros v Hv.
    destruct (numberToVarint_settled v) as [(z & -> & Hz & _)|[e He]]; [done|].
    destruct (encode_unsafe m v Hv) as [e' He']; [|congruence].
    intros (z & _ & _ & Hz)%numberToVarint_safe. congruence. }
  split_and!.
  - intros m. split; [apply Hok|apply encode_safe].
  - intros m Hbad. apply not_Forall_Exists in Hbad; [|apply _].
    apply Exists_exists in Hbad as (v & Hv & Hbad).
    by apply (encode_unsafe m v).
  - intros fn v w Hfin Hneg Hbad.
    unfold writeInt64, bind, writeTag, writeVarint, lift.
    by rewrite numberToVarint_not_safe.
  - intros v. unfold numberToVarint.
    destruct (negb (isFinite v) || isNegative v); [done|].
    destruct (negb (isSafeInteger v)) eqn:Hsafe; [done|].
    by destruct v.
Qed.

(** *** Events with more than one member *)

Lemma nested_validFieldNumber T fn T' : nested T fn = Some T' → validFieldNumber fn.
Proof.
  destruct T; field_cases fn; intros Hn; try discriminate Hn;
    unfold validFieldNumber; lia.
Qed.

(** C10 (as the code has it): the decoder of events decodes the payload
    of every member field it meets, in the order of the buffer. A buffer
    made of member fields whose payloads decode, with unknown fields
    anywhere between them, decodes to the member that comes last, and to
    the empty event when it holds no member. Behind such a buffer, a
    member field whose payload does not decode makes the decoder throw
    the error of that payload, whatever follows it: a later member does
    not save the decode. *)
Theorem event_last_member_wins :
  (∀ bs last, EventFields bs last → decodeNoteEvent bs = Ok last) ∧
  (∀ bs last fn T' content tail e,
     EventFields bs last →
     nested TNoteEvent fn = Some T' →
     Z.of_nat (length content) ≤ MAX_SAFE_INTEGER →
     decode T' content = Throw e →
     decodeNoteEvent (bs ++ bytesField fn content ++ tail) = Throw e).
Proof.
  split; [apply decodeNoteEvent_EventFields|].
  intros bs last fn T' content tail e Hbs Hnested Hlen Hbad.
  apply decodeNoteEvent_EventFields in Hbs.
  change (decodeNoteEvent ?x) with (decodeFrom decodeNoteEvent_field EventUndefined x)
    in Hbs |- *.
  pose proof (fieldOf_streaming TNoteEvent) as Hs. cbn [fieldOf decoderOf] in Hs.
  rewrite (decodeFrom_app _ Hs bs _ _ _ Hbs).
  rewrite bytesField_eq, <- !app_assoc.
  apply decodeFrom_throws; [done|by eapply nested_validFieldNumber|lia|].
  apply (fieldOf_nested_throws TNoteEvent T' fn 2 last _ content
           (length (varintBytes (Z.of_nat (length content))) + length content)%nat e);
    [done| |done].
  by apply view_readBytes_written.
Qed.

(** *** Well-formed messages, by their numbers and strings *)

Lemma wellFormedNote_lists (m : Note) :
  Forall safeNumber (int64sOfNote m) → Forall textSurvives (stringsOfNote m) →
  wellFormedNote m.
Proof.
  unfold int64sOfNote, stringsOfNote, wellFormedNote. rewrite !Forall_cons.
  tauto.
Qed.

Lemma optionalTextSurvives_list (s : option Str) :
  Forall textSurvives (option_list s) → optionalTextSurvives s.
Proof. destruct s as [s|]; [|done]. simpl. by intros [? _]%Forall_cons. Qed.

Lemma wellFormedNoteDelta_lists (m : NoteDelta) :
  Forall safeNumber (int64sOfNoteDelta m) →
  Forall textSurvives (stringsOfNoteDelta m) →
  wellFormedNoteDelta m.
Proof.
  unfold int64sOfNoteDelta, stringsOfNoteDelta, wellFormedNoteDelta.
  rewrite !Forall_cons, Forall_app.
  intros (? & ? & ? & _) [? ?]. auto using optionalTextSurvives_list.
Qed.

Lemma wellFormedOptionalNote_lists (m : option Note) :
  Forall safeNumber (from_option int64sOfNote [] m) →
  Forall textSurvives (from_option stringsOfNote [] m) →
  wellFormedOptionalNote m.
Proof. destruct m as [m|]; [apply wellFormedNote_lists|done]. Qed.

Lemma wellFormed_lists (m : Message) :
  Forall safeNumber (int64sOf m) → Forall textSurvives (stringsOf m) →
  wellFormed m.
Proof.
  destruct m as [m|m|m|m|m|m|m|m|m|m|m]; cbn [int64sOf stringsOf wellFormed].
  - apply wellFormedNote_lists.
  - rewrite !Forall_cons. tauto.
  - apply wellFormedOptionalNote_lists.
  - apply wellFormedOptionalNote_lists.
  - destruct m as [items]. cbn [notes].
    induction items as [|n rest IH]; [constructor|].
    rewrite !bind_cons, !Forall_app. intros [? ?] [? ?].
    constructor; auto using wellFormedNote_lists.
  - rewrite Forall_app. intros _ [? ?]. auto using optionalTextSurvives_list.
  - apply wellFormedOptionalNote_lists.
  - rewrite !Forall_cons. tauto.
  - apply wellFormedNoteDelta_lists.
  - rewrite !Forall_cons. tauto.
  - destruct m as [note|delta|deleted|]; cbn [wellFormedNoteEvent].
    + apply wellFormedNote_lists.
    + apply wellFormedNoteDelta_lists.
    + rewrite !Forall_cons. tauto.
    + done.
Qed.
End CodecMessages.

(** *** The host's text codec *)

Section HostText.
Import Codec.

#[local] Existing Instance hostText.

Lemma allFrom_spec fuel : ∀ z test,
  allFrom fuel z test = true →
  ∀ k, z ≤ k < z + Z.of_nat fuel → test k = true.
Proof.
  induction fuel as [|fuel IH]; intros z test Hall k Hk; [lia|].
  simpl in Hall. destruct (test z) eqn:Hz; [|done].
  destruct (decide (k = z)) as [->|Hne]; [done|].
  apply (IH (z + 1)); [done|lia].
Qed.

(** Every code point, one by one. *)
Lemma utf8Returns_all : allFrom (Z.to_nat 0x110000) 0 utf8Returns = true.
Proof. vm_compute. reflexivity. Qed.

Lemma utf8Run_utf8Encode cp :
  scalarValue cp →
  Forall (λ b, 0 ≤ b < 256) (utf8Encode cp) ∧
  utf8Run newUtf8Decoder (utf8Encode cp) = ([cp], newUtf8Decoder).
Proof.
  intros [Hrange Hscalar].
  pose proof (allFrom_spec _ _ _ utf8Returns_all cp) as Hcp.
  rewrite Z2Nat.id in Hcp by lia. specialize (Hcp ltac:(lia)).
  unfold utf8Returns in Hcp.
  assert (isLeadSurrogate cp || isTrailSurrogate cp = false) as Hno.
  { unfold isLeadSurrogate, isTrailSurrogate.
    rewrite !bool_decide_eq_false_2 by lia. done. }
  rewrite Hno in Hcp. cbn [orb] in Hcp.
  apply andb_true_iff in Hcp as [Hbytes Hrun]. split.
  - apply Forall_forall. intros b Hb%list_elem_of_In.
    rewrite forallb_forall in Hbytes. specialize (Hbytes b Hb).
    by apply bool_decide_eq_true in Hbytes.
  - destruct (utf8Run _ _) as [[|out [|]] [c s n l u]]; try done.
    cbn [utf8CodePoint utf8BytesSeen utf8BytesNeeded utf8LowerBoundary
         utf8UpperBoundary] in Hrun.
    repeat (apply andb_true_iff in Hrun as [Hrun ?%Z.eqb_eq]).
    apply Z.eqb_eq in Hrun. by subst.
Qed.

Lemma utf8Decode_utf8Run input : ∀ d rest,
  Forall (λ b, 0 ≤ b < 256) input →
  utf8Decode d ((byte_of_Z <$> input) ++ rest)
  = (utf8Run d input).1 ++ utf8Decode (utf8Run d input).2 rest.
Proof.
  induction input as [|b input IH]; intros d rest Hbytes; [done|].
  apply Forall_cons in Hbytes as [Hb Hbytes].
  rewrite fmap_cons. cbn [app utf8Decode utf8Run]. rewrite byte_to_of_Z by done.
  destruct (utf8Handle d b) as [out d']. rewrite IH by done.
  destruct (utf8Run d' input) as [out' d'']. cbn [fst snd]. by rewrite app_assoc.
Qed.

Lemma utf8Decode_utf8Encode cps :
  Forall scalarValue cps →
  utf8Decode newUtf8Decoder (byte_of_Z <$> (cps ≫= utf8Encode)) = cps.
Proof.
  induction 1 as [|cp cps Hcp _ IH]; [done|].
  destruct (utf8Run_utf8Encode cp Hcp) as [Hbytes Hrun].
  rewrite bind_cons, fmap_app, utf8Decode_utf8Run, Hrun by done.
  cbn [fst snd app]. by rewrite IH.
Qed.

(** How a string starts: with a surrogate pair, with a surrogate that
    stands alone, or with another code unit. *)
Lemma surrogate_cases s :
  s = [] ∨
  (∃ c d rest, s = c :: d :: rest ∧
     isLeadSurrogate c = true ∧ isTrailSurrogate d = true ∧
     toScalarValues s
     = (2 ^ 16 + 2 ^ 10 * Z.land c 0x3FF + Z.land d 0x3FF) :: toScalarValues rest ∧
     isWellFormed s = isWellFormed rest) ∨
  (∃ c rest, s = c :: rest ∧
     (isLeadSurrogate c = true ∨ isTrailSurrogate c = true) ∧
     toScalarValues s = 0xFFFD :: toScalarValues rest ∧
     isWellFormed s = false) ∨
  (∃ c rest, s = c :: rest ∧
     isLeadSurrogate c = false ∧ isTrailSurrogate c = false ∧
     toScalarValues s = c :: toScalarValues rest ∧
     isWellFormed s = isWellFormed rest).
Proof.
  destruct s as [|c rest]; [by left|]. right.
  destruct (isLeadSurrogate c) eqn:Hlead.
  - destruct rest as [|d rest'].
    { right. left. exists c, []. simpl. rewrite Hlead. auto. }
    destruct (isTrailSurrogate d) eqn:Htrail.
    + left. exists c, d, rest'. simpl. rewrite Hlead, Htrail. auto.
    + right. left. exists c, (d :: rest').
      cbn [toScalarValues isWellFormed]. rewrite Hlead, Htrail. auto.
  - right. destruct (isTrailSurrogate c) eqn:Htrail.
    + left. exists c, rest. simpl. rewrite Hlead, Htrail. auto.
    + right. exists c, rest. simpl. rewrite Hlead, Htrail. auto.
Qed.

Lemma surrogate_pair c d :
  isLeadSurrogate c = true → isTrailSurrogate d = true →
  0x10000 ≤ 2 ^ 16 + 2 ^ 10 * Z.land c 0x3FF + Z.land d 0x3FF ≤ 0x10FFFF ∧
  fromScalarValue (2 ^ 16 + 2 ^ 10 * Z.land c 0x3FF + Z.land d 0x3FF) = [c; d].
Proof.
  unfold isLeadSurrogate, isTrailSurrogate.
  intros Hc%bool_decide_eq_true Hd%bool_decide_eq_true.
  change 0x3FF with (Z.ones 10). rewrite !Z.land_ones by lia.
  change (2 ^ 10) with 1024. change (2 ^ 16) with 65536.
  assert (c `mod` 1024 = c - 0xD800) as ->.
  { symmetry. apply (Z.mod_unique c 1024 54); lia. }
  assert (d `mod` 1024 = d - 0xDC00) as ->.
  { symmetry. apply (Z.mod_unique d 1024 55); lia. }
  split; [lia|].
  unfold fromScalarValue. rewrite bool_decide_eq_false_2 by lia.
  f_equal; [|f_equal].
  - replace (65536 + 1024 * (c - 55296) + (d - 56320) - 65536)
      with ((d - 56320) + (c - 55296) * 1024) by lia.
    rewrite Z.div_add, Z.div_small by lia. lia.
  - replace (65536 + 1024 * (c - 55296) + (d - 56320) - 65536)
      with ((d - 56320) + (c - 55296) * 1024) by lia.
    rewrite Z_mod_plus_full, Z.mod_small by lia. lia.
Qed.

Lemma not_surrogate c :
  isLeadSurrogate c = false → isTrailSurrogate c = false →
  ¬ (0xD800 ≤ c ≤ 0xDFFF).
Proof.
  unfold isLeadSurrogate, isTrailSurrogate.
  intros Hl%bool_decide_eq_false Ht%bool_decide_eq_false. lia.
Qed.

Lemma is_surrogate c :
  isLeadSurrogate c = true ∨ isTrailSurrogate c = true → 0xD800 ≤ c ≤ 0xDFFF.
Proof.
  unfold isLeadSurrogate, isTrailSurrogate.
  intros [H%bool_decide_eq_true|H%bool_decide_eq_true]; lia.
Qed.

Lemma toScalarValues_scalar s : codeUnits s → Forall scalarValue (toScalarValues s).
Proof.
  unfold codeUnits.
  induction s as [s IH] using (induction_ltof1 _ length). unfold ltof in IH.
  intros Hs.
  destruct (surrogate_cases s) as
    [->|[(c & d & rest & -> & Hc & Hd & -> & _)
        |[(c & rest & -> & Hc & -> & _)|(c & rest & -> & Hl & Ht & -> & _)]]].
  - constructor.
  - apply Forall_cons in Hs as [_ [_ Hs]%Forall_cons].
    constructor; [|apply IH; [simpl; lia|done]].
    destruct (surrogate_pair c d Hc Hd) as [Hrange _].
    unfold scalarValue. lia.
  - apply Forall_cons in Hs as [_ Hs].
    constructor; [|apply IH; [simpl; lia|done]].
    unfold scalarValue. lia.
  - apply Forall_cons in Hs as [Hc Hs].
    constructor; [|apply IH; [simpl; lia|done]].
    pose proof (not_surrogate c Hl Ht). unfold scalarValue. lia.
Qed.

(** A string taken to scalar values and back has its length, and is the
    string itself exactly when the string is well formed. *)
Lemma through_scalarValues s :
  codeUnits s →
  length (toScalarValues s ≫= fromScalarValue) = length s ∧
  (toScalarValues s ≫= fromScalarValue = s ↔ isWellFormed s = true).
Proof.
  unfold codeUnits.
  induction s as [s IH] using (induction_ltof1 _ length). unfold ltof in IH.
  intros Hs.
  destruct (surrogate_cases s) as
    [->|[(c & d & rest & -> & Hc & Hd & -> & ->)
        |[(c & rest & -> & Hc & -> & ->)|(c & rest & -> & Hl & Ht & -> & ->)]]].
  - done.
  - apply Forall_cons in Hs as [_ [_ Hs]%Forall_cons].
    destruct (IH rest) as [Hlen Hiff]; [simpl; lia|done|].
    destruct (surrogate_pair c d Hc Hd) as [_ Hpair].
    rewrite bind_cons, Hpair. cbn [app length]. split; [by rewrite Hlen|].
    rewrite <- Hiff. split; [by intros [= ->]|by intros ->].
  - apply Forall_cons in Hs as [_ Hs].
    destruct (IH rest) as [Hlen _]; [simpl; lia|done|].
    rewrite bind_cons. change (fromScalarValue 0xFFFD) with [0xFFFD].
    cbn [app length]. split; [by rewrite Hlen|].
    split; [|done]. intros [= <- _]. apply is_surrogate in Hc. lia.
  - apply Forall_cons in Hs as [Hc Hs].
    destruct (IH rest) as [Hlen Hiff]; [simpl; lia|done|].
    assert (fromScalarValue c = [c]) as Hplain.
    { unfold fromScalarValue. by rewrite bool_decide_eq_true_2 by lia. }
    rewrite bind_cons, Hplain.
    cbn [app length]. split; [by rewrite Hlen|].
    rewrite <- Hiff. split; [by intros [= ->]|by intros ->].
Qed.

Lemma hostText_decode_encode s :
  codeUnits s →
  textDecoder_decode (textEncoder_encode s)
  = withoutBOM (toScalarValues s) ≫= fromScalarValue.
Proof.
  intros Hs. cbn [textDecoder_decode textEncoder_encode hostText].
  by rewrite utf8Decode_utf8Encode by by apply toScalarValues_scalar.
Qed.

(** The strings the host's codec gives back: the well-formed ones that
    do not start with a byte order mark. *)
Lemma hostText_survives s :
  codeUnits s →
  textDecoder_decode (textEncoder_encode s) = s
  ↔ isWellFormed s = true ∧ head s ≠ Some 0xFEFF.
Proof.
  intros Hs. rewrite hostText_decode_encode by done.
  destruct (through_scalarValues s Hs) as [Hlen Hiff].
  destruct (surrogate_cases s) as
    [->|[(c & d & rest & -> & Hc & Hd & Hto & Hwf)
        |[(c & rest & -> & Hc & Hto & Hwf)|(c & rest & -> & Hl & Ht & Hto & Hwf)]]].
  - done.
  - destruct (surrogate_pair c d Hc Hd) as [Hrange _].
    assert (withoutBOM (toScalarValues (c :: d :: rest)) = toScalarValues (c :: d :: rest))
      as ->.
    { rewrite Hto. unfold withoutBOM. by rewrite bool_decide_eq_false_2 by lia. }
    rewrite Hiff. split; [|tauto]. intros Hok. split; [done|].
    intros [= ->]. pose proof (is_surrogate _ (or_introl Hc)). lia.
  - assert (withoutBOM (toScalarValues (c :: rest)) = toScalarValues (c :: rest)) as ->.
    { rewrite Hto. unfold withoutBOM. by rewrite bool_decide_eq_false_2 by lia. }
    rewrite Hiff, Hwf. split; [done|]. by intros [? _].
  - destruct (decide (c = 0xFEFF)) as [->|Hne].
    + rewrite Hto. unfold withoutBOM. rewrite bool_decide_eq_true_2 by done.
      split; [|by intros [_ []]].
      intros Hback%(f_equal length). exfalso.
      apply Forall_cons in Hs as [_ Hs].
      destruct (through_scalarValues rest Hs) as [Hlen' _].
      rewrite Hlen' in Hback. simpl in Hback. lia.
    + assert (withoutBOM (toScalarValues (c :: rest)) = toScalarValues (c :: rest)) as ->.
      { rewrite Hto. unfold withoutBOM. by rewrite bool_decide_eq_false_2 by done. }
      rewrite Hiff. split; [|tauto]. intros Hok. split; [done|].
      simpl. congruence.
Qed.

(** C2 (as the code has it): the round trip is exact in the numbers and
    goes through the host's text codec in the strings. Every message of
    every type whose integer fields are non-negative safe integers and
    whose strings are well-formed strings that do not start with a byte
    order mark, with any of its optional fields present or absent,
    encodes without error, and the bytes, held in a typed array, decode
    to the message itself. No other string comes back unchanged: what
    [TextDecoder] returns for the bytes of [TextEncoder] is the string
    itself exactly when the string is well formed and does not start
    with U+FEFF. *)
Theorem decode_encode_roundtrip :
  (∀ m : Message (Str := list Z),
     Forall safeNumber (int64sOf m) → Forall plainText (stringsOf m) →
     ∃ bs, encode m = Ok bs ∧
           (Z.of_nat (length bs) ≤ MAX_SAFE_INTEGER →
            decode (messageType m) bs = Ok m)) ∧
  (∀ s, codeUnits s →
     textDecoder_decode (textEncoder_encode s) = s
     ↔ isWellFormed s = true ∧ head s ≠ Some 0xFEFF).
Proof.
  split; [|apply hostText_survives].
  intros m Hints Hstrings. apply roundtrip_Message, wellFormed_lists; [done|].
  eapply Forall_impl; [exact Hstrings|].
  intros s (Hunits & Hwf & Hbom). unfold textSurvives. by apply hostText_survives.
Qed.

End HostText.

(** *** The theorems at work on concrete buffers *)

Section CodecExamples.
Import Codec.

Lemma faults_fail_the_decode_witness :
  decode (text := byteStrings) TNote
    ([Byte.x08; Byte.x01] ++ tagBytes 7 5 ++ [Byte.x00; Byte.x00; Byte.x00; Byte.x00])
  = Throw (UnsupportedWireType 5).
Proof.
  apply (faults_fail_the_decode (text := byteStrings) TNote [Byte.x08; Byte.x01]
    (MNote {| id := Integer 1; title := ""%string; body := ""%string;
              created_at_unix_ms := Integer 0; updated_at_unix_ms := Integer 0;
              version := Integer 0 |})).
  - reflexivity.
  - apply fault_field.
    + unfold validFieldNumber. lia.
    + lia.
    + apply fault_wire_type; [reflexivity|lia|lia].
Defined.

Lemma int64_exact_or_rejected_witness :
  decode (text := byteStrings) TNote
    ([] ++ tagBytes 1 0 ++ (byte_of_Z <$> varintBytes (2 ^ 53)) ++ [])
  = Throw (Int64ExceedsSafe (2 ^ 53)).
Proof.
  apply (proj2 (proj2 (proj2 (int64_exact_or_rejected (text := byteStrings))))
    TNote []
    (MNote {| id := Integer 0; title := ""%string; body := ""%string;
              created_at_unix_ms := Integer 0; updated_at_unix_ms := Integer 0;
              version := Integer 0 |}) 1 0 (2 ^ 53) []).
  - reflexivity.
  - reflexivity.
  - unfold validFieldNumber. lia.
  - lia.
  - unfold MAX_SAFE_INTEGER. lia.
Defined.

Lemma unknown_fields_are_skipped_witness :
  decode (text := byteStrings) TNote
    ([Byte.x08; Byte.x01] ++ bytesField 9 [Byte.xff; Byte.xff] ++ [Byte.x30; Byte.x02])
  = decode (text := byteStrings) TNote ([Byte.x08; Byte.x01] ++ [Byte.x30; Byte.x02]).
Proof.
  refine (proj1 (unknown_fields_are_skipped (text := byteStrings) TNote
    [Byte.x08; Byte.x01] (bytesField 9 [Byte.xff; Byte.xff]) [Byte.x30; Byte.x02]
    (MNote {| id := Integer 1; title := ""%string; body := ""%string;
              created_at_unix_ms := Integer 0; updated_at_unix_ms := Integer 0;
              version := Integer 0 |}) _ _)).
  - reflexivity.
  - apply unknown_bytes.
    + unfold validFieldNumber. lia.
    + reflexivity.
    + vm_compute. congruence.
Defined.

Lemma event_last_member_wins_witness :
  decodeNoteEvent (text := byteStrings)
    (([] ++ bytesField 1 [Byte.x08; Byte.x07]) ++ bytesField 3 [Byte.x08; Byte.x07])
  = Ok (EventDeleted {| deleted_id := Integer 7 |}).
Proof.
  apply (proj1 (event_last_member_wins (text := byteStrings))).
  eapply event_fields_deleted.
  - eapply event_fields_created.
    + apply event_fields_none.
    + vm_compute. congruence.
    + reflexivity.
  - vm_compute. congruence.
  - reflexivity.
Defined.

Lemma varint_wire_format_witness :
  ∃ bs, written (writeVarint 300) = Ok bs ∧
    (1 ≤ length bs ≤ 10)%nat ∧
    (300 ≤ MAX_SAFE_INTEGER → (length bs ≤ 8)%nat) ∧
    (∃ groups last, bs = groups ++ [last] ∧
       Forall continues groups ∧ ¬ continues last ∧
       (300 ≠ 0 → byte_to_Z last ≠ 0)) ∧
    ∀ before tail,
      readVarint {| payload := before ++ bs ++ tail; offset := length before |}
      = Ok (300, {| payload := before ++ bs ++ tail;
                    offset := length before + length bs |}).
Proof.
  apply (varint_wire_format 300). lia.
Defined.

Lemma reader_stays_in_bounds_witness :
  payload {| payload := [Byte.xac; Byte.x02]; offset := 2 |}
  = payload (newReader [Byte.xac; Byte.x02]) ∧
  (offset (newReader [Byte.xac; Byte.x02])
   < offset {| payload := [Byte.xac; Byte.x02]; offset := 2 |}
   ≤ length (payload (newReader [Byte.xac; Byte.x02])))%nat.
Proof.
  refine (proj1 (reader_stays_in_bounds (newReader [Byte.xac; Byte.x02]) _)
            300 {| payload := [Byte.xac; Byte.x02]; offset := 2 |} _).
  - simpl. lia.
  - vm_compute. reflexivity.
Defined.

Lemma field_numbers_wrap_at_29_bits_witness :
  decode (text := byteStrings) TNote
    ([Byte.x30; Byte.x02] ++ tagBytes (1 + 1 * 2 ^ 29) 0 ++ [Byte.x07])
  = decode (text := byteStrings) TNote
      ([Byte.x30; Byte.x02] ++ tagBytes 1 0 ++ [Byte.x07]).
Proof.
  refine (field_numbers_wrap_at_29_bits (text := byteStrings) TNote
    [Byte.x30; Byte.x02]
    (MNote {| id := Integer 0; title := ""%string; body := ""%string;
              created_at_unix_ms := Integer 0; updated_at_unix_ms := Integer 0;
              version := Integer 2 |}) 1 1 0 [Byte.x07] _ _ _ _).
  - reflexivity.
  - unfold validFieldNumber. lia.
  - lia.
  - lia.
Defined.

Lemma known_fields_ignore_the_wire_type_witness :
  decode (text := byteStrings) TNote
    ([Byte.x30; Byte.x02] ++ tagBytes 1 0 ++ [Byte.x07])
  = decode (text := byteStrings) TNote
      ([Byte.x30; Byte.x02] ++ tagBytes 1 2 ++ [Byte.x07]).
Proof.
  refine (known_fields_ignore_the_wire_type (text := byteStrings) TNote
    [Byte.x30; Byte.x02]
    (MNote {| id := Integer 0; title := ""%string; body := ""%string;
              created_at_unix_ms := Integer 0; updated_at_unix_ms := Integer 0;
              version := Integer 2 |}) 1 0 2 [Byte.x07] _ _ _ _).
  - reflexivity.
  - eexists. reflexivity.
  - lia.
  - lia.
Defined.

Lemma concatenated_buffers_merge_witness :
  decodeNote (text := byteStrings)
    ([Byte.x08; Byte.x01]
     ++ [Byte.x08; Byte.x07; Byte.x12; Byte.x00; Byte.x1a; Byte.x00;
         Byte.x20; Byte.x01; Byte.x28; Byte.x02; Byte.x30; Byte.x03])
  = Ok {| id := Integer 7; title := ""%string; body := ""%string;
          created_at_unix_ms := Integer 1; updated_at_unix_ms := Integer 2;
          version := Integer 3 |}.
Proof.
  refine (proj1 (concatenated_buffers_merge (text := byteStrings))
    [Byte.x08; Byte.x01]
    {| id := Integer 1; title := ""%string; body := ""%string;
       created_at_unix_ms := Integer 0; updated_at_unix_ms := Integer 0;
       version := Integer 0 |}
    {| id := Integer 7; title := ""%string; body := ""%string;
       created_at_unix_ms := Integer 1; updated_at_unix_ms := Integer 2;
       version := Integer 3 |} _ _ _ _ _).
  - reflexivity.
  - repeat split; vm_compute; congruence.
  - reflexivity.
  - vm_compute. congruence.
Defined.

Lemma decode_encode_roundtrip_witness :
  ∃ bs,
    encode (text := hostText)
      (MNoteDelta {| delta_id := Integer 300; delta_title := None;
                     delta_body := Some [0x63; 0xE9; 0x20AC; 0xD83D; 0xDE00];
                     delta_updated_at_unix_ms := Integer 9007199254740991;
                     delta_version := Integer 2 |}) = Ok bs ∧
    decode (text := hostText) TNoteDelta bs
    = Ok (MNoteDelta {| delta_id := Integer 300; delta_title := None;
                        delta_body := Some [0x63; 0xE9; 0x20AC; 0xD83D; 0xDE00];
                        delta_updated_at_unix_ms := Integer 9007199254740991;
                        delta_version := Integer 2 |}).
Proof.
  destruct (proj1 decode_encode_roundtrip
    (MNoteDelta {| delta_id := Integer 300; delta_title := None;
                   delta_body := Some [0x63; 0xE9; 0x20AC; 0xD83D; 0xDE00];
                   delta_updated_at_unix_ms := Integer 9007199254740991;
                   delta_version := Integer 2 |})) as (bs & Hencode & Hdecode).
  - repeat constructor; vm_compute; congruence.
  - repeat constructor; vm_compute; congruence.
  - exists bs. split; [exact Hencode|]. apply Hdecode.
    vm_compute in Hencode. injection Hencode as <-. vm_compute. congruence.
Defined.

(** C2 (as stated) fails: a note whose numbers are safe and whose title
    is the well-formed string U+FEFF, "a" is encoded without error, and
    the bytes decode to a note whose title is "a". *)
Lemma decode_encode_drops_byte_order_mark :
  Forall safeNumber
    (int64sOf (MNote {| id := Integer 1; title := [0xFEFF; 0x61]; body := [];
                        created_at_unix_ms := Integer 0;
                        updated_at_unix_ms := Integer 0; version := Integer 0 |})) ∧
  isWellFormed [0xFEFF; 0x61] = true ∧
  ∃ bs,
    encode (text := hostText)
      (MNote {| id := Integer 1; title := [0xFEFF; 0x61]; body := [];
                created_at_unix_ms := Integer 0;
                updated_at_unix_ms := Integer 0; version := Integer 0 |}) = Ok bs ∧
    decode (text := hostText) TNote bs
    = Ok (MNote {| id := Integer 1; title := [0x61]; body := [];
                   created_at_unix_ms := Integer 0;
                   updated_at_unix_ms := Integer 0; version := Integer 0 |}) ∧
    decode (text := hostText) TNote bs
    ≠ Ok (MNote {| id := Integer 1; title := [0xFEFF; 0x61]; body := [];
                   created_at_unix_ms := Integer 0;
                   updated_at_unix_ms := Integer 0; version := Integer 0 |}).
Proof.
  split; [repeat constructor; vm_compute; congruence|].
  split; [reflexivity|].
  eexists. split; [vm_compute; reflexivity|].
  split; [vm_compute; reflexivity|].
  vm_compute. congruence.
Qed.

(** C10 (as stated) fails: the buffer 0a 01 80 1a 02 08 07 holds two
    member fields, a Created member whose payload is the one byte 80 and
    a Deleted member whose payload decodes to id 7; the decoder throws
    on the payload of the first and never reaches the second. *)
Lemma decodeNoteEvent_throws_on_replaced_member :
  bytesField 1 [Byte.x80] ++ bytesField 3 [Byte.x08; Byte.x07]
  = [Byte.x0a; Byte.x01; Byte.x80; Byte.x1a; Byte.x02; Byte.x08; Byte.x07] ∧
  decodeNoteDeleted [Byte.x08; Byte.x07]
  = Ok {| deleted_id := Integer 7 |} ∧
  decodeNoteEvent (text := hostText)
    [Byte.x0a; Byte.x01; Byte.x80; Byte.x1a; Byte.x02; Byte.x08; Byte.x07]
  = Throw UnexpectedEnd.
Proof. split_and!; vm_compute; reflexivity. Qed.

End CodecExamples.
